(** * AidPal: the wound-analysis service ([geminiService.ts])

    A shallow embedding of [analyzeWound], the model-fallback loop of the
    AidPal front end, together with the pieces of the JavaScript runtime it
    relies on: string splitting and trimming, the brace-span regular
    expression, [JSON.parse] and the zod schema [AnalysisResultSchema].

    The file [geminiService.ts] holds two revisions of the service, named
    here after the comments on their candidate lists: the one with the
    "optimized list" of four models and the one with the "expanded list"
    of seven.  They share the schema, the image framing and the loop;
    they differ in the candidate list, in the wording of the prompt and
    in what is thrown once every candidate has failed.  Both are
    embedded, indexed by [revision].

    Conventions.  A JavaScript string is represented by the bytes of its
    UTF-8 encoding, as a Rocq [string].  A thrown value is a [JsError]
    record; a property that is absent reads as [Undefined].  The remote
    model is an oracle threaded through an abstract [World]: a call
    returns, with a response or with a thrown value, and so does the
    constructor of the client, with the client or with a thrown value.
    The module constants are passed from each statement to the next, as
    the state they are.  The lines written to the console are left
    out. *)

From Stdlib Require Import Strings.String Strings.Ascii.
From Stdlib Require Import Lists.List.
From Stdlib Require Import ZArith NArith Bool Lia.
Import ListNotations.

Local Open Scope string_scope.
Local Open Scope list_scope.

Set Warnings "-register-all".

(* ================================================================== *)
(** ** JavaScript strings *)
(* ================================================================== *)

Module JsString.

(** The double quote, which a string literal of this file never holds. *)
Definition dq : string := String "034"%char EmptyString.

(** The line feed. *)
Definition nl : string := String "010"%char EmptyString.

(** [quoted s] is [s] between double quotes. *)
Definition quoted (s : string) : string := dq ++ s ++ dq.

Definition is_empty (s : string) : bool :=
  match s with
  | EmptyString => true
  | String _ _ => false
  end.

(** [s.split(sep)] for a one-character separator: the segments between
    the occurrences of [sep], always at least one segment. *)
Fixpoint split (sep : ascii) (s : string) : list string :=
  match s with
  | EmptyString => [EmptyString]
  | String c r =>
      if Ascii.eqb c sep then EmptyString :: split sep r
      else match split sep r with
           | h :: t => String c h :: t
           | [] => [String c EmptyString]
           end
  end.

(** [a[i] || d] on an array of strings: an index out of range reads as
    [undefined], and both [undefined] and the empty string are falsy. *)
Definition at_or (a : list string) (i : nat) (d : string) : string :=
  match nth_error a i with
  | Some s => if is_empty s then d else s
  | None => d
  end.

(** [a[i]] where the index is known to be in range ([split] never
    returns the empty array, so [a[0]] is always a string). *)
Definition at0 (a : list string) : string :=
  match a with
  | s :: _ => s
  | [] => EmptyString
  end.

(** [c] occurs in [s]. *)
Fixpoint occurs (c : ascii) (s : string) : bool :=
  match s with
  | EmptyString => false
  | String d r => Ascii.eqb d c || occurs c r
  end.

(** *** [String.prototype.trim]

    The white space and line terminator code points of ECMAScript, in
    UTF-8: U+0009..U+000D and U+0020 (one byte), U+00A0 (two bytes),
    U+1680, U+2000..U+200A, U+2028, U+2029, U+202F, U+205F, U+3000 and
    U+FEFF (three bytes). *)

Definition ws1 (c : ascii) : bool :=
  let n := N_of_ascii c in
  ((9 <=? n) && (n <=? 13) || (n =? 32))%N.

Definition ws2 (c1 c2 : ascii) : bool :=
  ((N_of_ascii c1 =? 194) && (N_of_ascii c2 =? 160))%N.

Definition ws3 (c1 c2 c3 : ascii) : bool :=
  let a := N_of_ascii c1 in
  let b := N_of_ascii c2 in
  let c := N_of_ascii c3 in
  ((a =? 225) && (b =? 154) && (c =? 128)
   || (a =? 226) && (b =? 128)
        && ((128 <=? c) && (c <=? 138) || (c =? 168) || (c =? 169) || (c =? 175))
   || (a =? 226) && (b =? 129) && (c =? 159)
   || (a =? 227) && (b =? 128) && (c =? 128)
   || (a =? 239) && (b =? 187) && (c =? 191))%N.

Fixpoint trimStart (s : string) : string :=
  match s with
  | EmptyString => s
  | String c1 r1 =>
      if ws1 c1 then trimStart r1
      else match r1 with
           | EmptyString => s
           | String c2 r2 =>
               if ws2 c1 c2 then trimStart r2
               else match r2 with
                    | EmptyString => s
                    | String c3 r3 =>
                        if ws3 c1 c2 c3 then trimStart r3 else s
                    end
           end
  end.

(** [s] is made of white space only. *)
Fixpoint blank (s : string) : bool :=
  match s with
  | EmptyString => true
  | String c1 r1 =>
      if ws1 c1 then blank r1
      else match r1 with
           | EmptyString => false
           | String c2 r2 =>
               if ws2 c1 c2 then blank r2
               else match r2 with
                    | EmptyString => false
                    | String c3 r3 =>
                        if ws3 c1 c2 c3 then blank r3 else false
                    end
           end
  end.

Fixpoint trimEnd (s : string) : string :=
  match s with
  | EmptyString => s
  | String c r => if blank s then EmptyString else String c (trimEnd r)
  end.

Definition trim (s : string) : string := trimEnd (trimStart s).

(** *** The regular expression [/\{[\s\S]*\}/]

    Without the global flag, [match] returns the leftmost match, and
    [[\s\S]*] is greedy: the match starts at the first left brace that has
    a right brace somewhere after it and runs to the last right brace of
    the string.  A right brace after a later left brace is also after the
    first one, so the start is the first left brace or there is no
    match. *)

Fixpoint from_first_lbrace (s : string) : option string :=
  match s with
  | EmptyString => None
  | String c r => if Ascii.eqb c "{" then Some r else from_first_lbrace r
  end.

(** The longest prefix of [s] that ends with a right brace. *)
Fixpoint upto_last_rbrace (s : string) : option string :=
  match s with
  | EmptyString => None
  | String c r =>
      match upto_last_rbrace r with
      | Some p => Some (String c p)
      | None => if Ascii.eqb c "}" then Some (String c EmptyString) else None
      end
  end.

Definition match_brace_span (s : string) : option string :=
  match from_first_lbrace s with
  | Some r =>
      match upto_last_rbrace r with
      | Some p => Some (String "{" p)
      | None => None
      end
  | None => None
  end.

(** [w] holds no brace. *)
Definition brace_free (w : string) : Prop :=
  occurs "{" w = false /\ occurs "}" w = false.

End JsString.

(* ================================================================== *)
(** ** JSON values and [JSON.parse] *)
(* ================================================================== *)

Module Json.

(** A decoded JSON value.  A number is kept as its lexeme: the schema
    accepts a number at no position, so its numeric value is never
    inspected.  An object lists its members in order of first appearance,
    one per key. *)
Inductive json : Type :=
| JNull
| JBool (b : bool)
| JNum (lexeme : string)
| JStr (s : string)
| JArr (items : list json)
| JObj (members : list (string * json)).

(** [o[k]]: the value of the own property [k], [None] for [undefined]. *)
Fixpoint get (k : string) (ms : list (string * json)) : option json :=
  match ms with
  | [] => None
  | (k', v) :: r => if String.eqb k' k then Some v else get k r
  end.

(** [o[k] = v]: a key met again keeps its place and takes the new value. *)
Fixpoint set_member (k : string) (v : json) (ms : list (string * json))
  : list (string * json) :=
  match ms with
  | [] => [(k, v)]
  | (k', v') :: r =>
      if String.eqb k' k then (k', v) :: r else (k', v') :: set_member k v r
  end.

Definition keys (ms : list (string * json)) : list string := map fst ms.

(** *** Lexical analysis *)

Inductive token : Type :=
| TLBrace | TRBrace | TLBracket | TRBracket | TColon | TComma
| TStr (s : string)
| TNum (lexeme : string)
| TTrue | TFalse | TNull.

Definition is_digit (c : ascii) : bool :=
  let n := N_of_ascii c in ((48 <=? n) && (n <=? 57))%N.

Definition is_letter (c : ascii) : bool :=
  let n := N_of_ascii c in
  ((65 <=? n) && (n <=? 90) || (97 <=? n) && (n <=? 122))%N.

(** The characters of numbers and of the three literal names. *)
Definition is_word (c : ascii) : bool :=
  is_digit c || is_letter c
  || Ascii.eqb c "-" || Ascii.eqb c "+" || Ascii.eqb c ".".

(** JSON white space: space, tab, line feed, carriage return. *)
Definition is_json_ws (c : ascii) : bool :=
  let n := N_of_ascii c in ((n =? 32) || (n =? 9) || (n =? 10) || (n =? 13))%N.

(** [s] is made of JSON white space only. *)
Fixpoint all_json_ws (s : string) : bool :=
  match s with
  | EmptyString => true
  | String c r => is_json_ws c && all_json_ws r
  end.

Definition hex_value (c : ascii) : option N :=
  let n := N_of_ascii c in
  if ((48 <=? n) && (n <=? 57))%N then Some (n - 48)%N
  else if ((65 <=? n) && (n <=? 70))%N then Some (n - 55)%N
  else if ((97 <=? n) && (n <=? 102))%N then Some (n - 87)%N
  else None.

Fixpoint skip_digits (l : list ascii) : list ascii :=
  match l with
  | c :: r => if is_digit c then skip_digits r else l
  | [] => []
  end.

Definition digits1 (l : list ascii) : option (list ascii) :=
  match l with
  | c :: r => if is_digit c then Some (skip_digits r) else None
  | [] => None
  end.

(** An optional exponent, then the end of the lexeme. *)
Definition exponent_end (l : list ascii) : bool :=
  match l with
  | [] => true
  | e :: r =>
      if Ascii.eqb e "e" || Ascii.eqb e "E" then
        let r' := match r with
                  | s :: r'' =>
                      if Ascii.eqb s "+" || Ascii.eqb s "-" then r'' else r
                  | [] => r
                  end in
        match digits1 r' with
        | Some [] => true
        | _ => false
        end
      else false
  end.

Definition fraction_end (l : list ascii) : bool :=
  match l with
  | c :: r =>
      if Ascii.eqb c "." then
        match digits1 r with
        | Some r' => exponent_end r'
        | None => false
        end
      else exponent_end l
  | [] => true
  end.

(** The number grammar: an optional minus sign; a zero, or a digit from
    1 to 9 and then any digits; optionally a dot and at least one digit;
    optionally an exponent. *)
Definition valid_number (l : list ascii) : bool :=
  let l1 := match l with
            | c :: r => if Ascii.eqb c "-" then r else l
            | [] => l
            end in
  match l1 with
  | c :: r =>
      if Ascii.eqb c "0" then fraction_end r
      else if is_digit c then fraction_end (skip_digits r)
      else false
  | [] => false
  end.

Definition word_token (w : list ascii) : option token :=
  let s := string_of_list_ascii w in
  if String.eqb s "true" then Some TTrue
  else if String.eqb s "false" then Some TFalse
  else if String.eqb s "null" then Some TNull
  else if valid_number w then Some (TNum s)
  else None.

Definition byte (n : N) : ascii := ascii_of_N n.

(** The bytes of a code point below 65536, last byte first. *)
Definition utf8_rev (u : N) : list ascii :=
  if (u <? 128)%N then [byte u]
  else if (u <? 2048)%N then [byte (128 + u mod 64); byte (192 + u / 64)]
  else [byte (128 + u mod 64); byte (128 + (u / 64) mod 64); byte (224 + u / 4096)].

(** The bytes of a code point from 65536 on, last byte first. *)
Definition utf8_rev4 (u : N) : list ascii :=
  [byte (128 + u mod 64); byte (128 + (u / 64) mod 64);
   byte (128 + (u / 4096) mod 64); byte (240 + u / 262144)].

(** Appends the code unit [u] of a [\uXXXX] escape to the reversed
    accumulator.  A low surrogate that follows a high surrogate is merged
    with it into one code point; a surrogate left alone keeps its
    three-byte form. *)
Definition push_unit (u : N) (acc : list ascii) : list ascii :=
  match acc with
  | b3 :: b2 :: b1 :: rest =>
      let hi := (((N_of_ascii b1 - 224) * 4096)
                 + ((N_of_ascii b2 - 128) * 64) + (N_of_ascii b3 - 128))%N in
      if ((N_of_ascii b1 =? 237) && (160 <=? N_of_ascii b2)
          && (N_of_ascii b2 <=? 175) && (128 <=? N_of_ascii b3)
          && (N_of_ascii b3 <=? 191) && (56320 <=? u) && (u <=? 57343))%N
      then utf8_rev4 (65536 + (hi - 55296) * 1024 + (u - 56320))%N ++ rest
      else utf8_rev u ++ acc
  | _ => utf8_rev u ++ acc
  end.

(** Appends a character that stands in the text as it is.  The byte
    that ends a low surrogate is merged, with the two bytes before it,
    into the high surrogate they follow, when there is one: the two code
    units are one character of the string. *)
Definition push_raw (c : ascii) (acc : list ascii) : list ascii :=
  if ((128 <=? N_of_ascii c) && (N_of_ascii c <=? 191))%N then
    match acc with
    | l2 :: l1 :: rest =>
        if ((N_of_ascii l1 =? 237) && (176 <=? N_of_ascii l2)
            && (N_of_ascii l2 <=? 191))%N
        then push_unit (53248 + (N_of_ascii l2 - 128) * 64
                        + (N_of_ascii c - 128))%N rest
        else c :: acc
    | _ => c :: acc
    end
  else c :: acc.

Inductive lexmode : Type :=
| Idle
| InWord (acc : list ascii)
| InStr (acc : list ascii)
| InEsc (acc : list ascii)
| InHex (acc : list ascii) (digits : list N).

Definition text_of (acc : list ascii) : string :=
  string_of_list_ascii (rev acc).

(** The six structural characters. *)
Definition structural_token (c : ascii) : option token :=
  if Ascii.eqb c "{" then Some TLBrace
  else if Ascii.eqb c "}" then Some TRBrace
  else if Ascii.eqb c "[" then Some TLBracket
  else if Ascii.eqb c "]" then Some TRBracket
  else if Ascii.eqb c ":" then Some TColon
  else if Ascii.eqb c "," then Some TComma
  else None.

(** One character outside of any word or string. *)
Definition lex_idle (out : list token) (c : ascii)
  : option (lexmode * list token) :=
  if is_json_ws c then Some (Idle, out)
  else match structural_token c with
       | Some t => Some (Idle, t :: out)
       | None =>
           if Ascii.eqb c "034" then Some (InStr [], out)
           else if is_word c then Some (InWord [c], out)
           else None
       end.

Definition lex_step (m : lexmode) (out : list token) (c : ascii)
  : option (lexmode * list token) :=
  match m with
  | Idle => lex_idle out c
  | InWord acc =>
      if is_word c then Some (InWord (c :: acc), out)
      else match word_token (rev acc) with
           | Some t => lex_idle (t :: out) c
           | None => None
           end
  | InStr acc =>
      if Ascii.eqb c "034" then Some (Idle, TStr (text_of acc) :: out)
      else if Ascii.eqb c "\" then Some (InEsc acc, out)
      else if (N_of_ascii c <? 32)%N then None
      else Some (InStr (push_raw c acc), out)
  | InEsc acc =>
      if Ascii.eqb c "034" || Ascii.eqb c "\" || Ascii.eqb c "/"
      then Some (InStr (c :: acc), out)
      else if Ascii.eqb c "b" then Some (InStr (byte 8 :: acc), out)
      else if Ascii.eqb c "f" then Some (InStr (byte 12 :: acc), out)
      else if Ascii.eqb c "n" then Some (InStr (byte 10 :: acc), out)
      else if Ascii.eqb c "r" then Some (InStr (byte 13 :: acc), out)
      else if Ascii.eqb c "t" then Some (InStr (byte 9 :: acc), out)
      else if Ascii.eqb c "u" then Some (InHex acc [], out)
      else None
  | InHex acc ds =>
      match hex_value c with
      | None => None
      | Some d =>
          match ds with
          | [d3; d2; d1] =>
              Some (InStr (push_unit (d1 * 4096 + d2 * 256 + d3 * 16 + d)%N acc),
                    out)
          | _ => Some (InHex acc (d :: ds), out)
          end
      end
  end.

Fixpoint lex (m : lexmode) (out : list token) (s : string)
  : option (list token) :=
  match s with
  | EmptyString =>
      match m with
      | Idle => Some (rev out)
      | InWord acc =>
          match word_token (rev acc) with
          | Some t => Some (rev (t :: out))
          | None => None
          end
      | _ => None
      end
  | String c r =>
      match lex_step m out c with
      | Some (m', out') => lex m' out' r
      | None => None
      end
  end.

(** *** Syntactic analysis: a pushdown automaton over the tokens *)

Inductive frame : Type :=
| InArray (items_rev : list json)
| InObject (members : list (string * json)) (key : option string).

Inductive expect : Type :=
| Value          (* a value must follow *)
| ValueOrClose   (* just after a left bracket *)
| KeyOrClose     (* just after a left brace *)
| Key            (* after a comma inside an object *)
| Colon          (* after a key *)
| CommaOrClose   (* after a value inside an array or an object *)
| Done (v : json).

(** A complete value goes to the enclosing container, or ends the text. *)
Definition deliver (v : json) (stack : list frame)
  : option (expect * list frame) :=
  match stack with
  | [] => Some (Done v, [])
  | InArray items :: st => Some (CommaOrClose, InArray (v :: items) :: st)
  | InObject ms (Some k) :: st =>
      Some (CommaOrClose, InObject (set_member k v ms) None :: st)
  | InObject _ None :: _ => None
  end.

Definition wants_value (e : expect) : bool :=
  match e with
  | Value | ValueOrClose => true
  | _ => false
  end.

Definition scalar (e : expect) (v : json) (stack : list frame)
  : option (expect * list frame) :=
  if wants_value e then deliver v stack else None.

Definition parse_step (e : expect) (stack : list frame) (t : token)
  : option (expect * list frame) :=
  match t with
  | TStr s =>
      match e with
      | Value | ValueOrClose => deliver (JStr s) stack
      | Key | KeyOrClose =>
          match stack with
          | InObject ms None :: st => Some (Colon, InObject ms (Some s) :: st)
          | _ => None
          end
      | _ => None
      end
  | TNum x => scalar e (JNum x) stack
  | TTrue => scalar e (JBool true) stack
  | TFalse => scalar e (JBool false) stack
  | TNull => scalar e JNull stack
  | TLBracket =>
      if wants_value e then Some (ValueOrClose, InArray [] :: stack) else None
  | TLBrace =>
      if wants_value e then Some (KeyOrClose, InObject [] None :: stack)
      else None
  | TRBracket =>
      match e, stack with
      | ValueOrClose, InArray [] :: st => deliver (JArr []) st
      | CommaOrClose, InArray items :: st => deliver (JArr (rev items)) st
      | _, _ => None
      end
  | TRBrace =>
      match e, stack with
      | KeyOrClose, InObject ms None :: st => deliver (JObj ms) st
      | CommaOrClose, InObject ms None :: st => deliver (JObj ms) st
      | _, _ => None
      end
  | TComma =>
      match e, stack with
      | CommaOrClose, InArray _ :: _ => Some (Value, stack)
      | CommaOrClose, InObject _ None :: _ => Some (Key, stack)
      | _, _ => None
      end
  | TColon =>
      match e with
      | Colon => Some (Value, stack)
      | _ => None
      end
  end.

Fixpoint parse_tokens (e : expect) (stack : list frame) (ts : list token)
  : option json :=
  match ts with
  | [] => match e with
          | Done v => Some v
          | _ => None
          end
  | t :: r =>
      match parse_step e stack t with
      | Some (e', stack') => parse_tokens e' stack' r
      | None => None
      end
  end.

(** [JSON.parse(text)], without a reviver: [None] stands for the
    [SyntaxError] it throws. *)
Definition JSON_parse (text : string) : option json :=
  match lex Idle [] text with
  | Some ts => parse_tokens Value [] ts
  | None => None
  end.

End Json.

Import JsString Json.

(* ================================================================== *)
(** ** The zod combinators used by the schema *)
(* ================================================================== *)

Module Zod.

(** A schema takes a decoded value to the parsed output, [None] standing
    for the [ZodError] that [parse] throws. *)
Definition schema : Type := json -> option json.

(** [z.string().min(1, message)]: a string of length at least one. *)
Definition string_min1 : schema :=
  fun v =>
    match v with
    | JStr s => if is_empty s then None else Some (JStr s)
    | _ => None
    end.

(** [z.string()]. *)
Definition string_ : schema :=
  fun v =>
    match v with
    | JStr s => Some (JStr s)
    | _ => None
    end.

(** [z.enum(values)]: a string equal to one of [values]. *)
Definition enum (values : list string) : schema :=
  fun v =>
    match v with
    | JStr s => if existsb (String.eqb s) values then Some (JStr s) else None
    | _ => None
    end.

(** The items of an array, each through [item], all of them accepted. *)
Fixpoint parse_items (item : schema) (vs : list json) : option (list json) :=
  match vs with
  | [] => Some []
  | v :: r =>
      match item v, parse_items item r with
      | Some v', Some r' => Some (v' :: r')
      | _, _ => None
      end
  end.

(** [z.array(item).min(n, message)]: an array of at least [n] items. *)
Definition array_min (n : nat) (item : schema) : schema :=
  fun v =>
    match v with
    | JArr vs =>
        match parse_items item vs with
        | Some vs' => if (n <=? List.length vs)%nat then Some (JArr vs') else None
        | None => None
        end
    | _ => None
    end.

(** The keys of a shape in turn: a key the input lacks reads as
    [undefined], which none of the schemas above accepts. *)
Fixpoint parse_shape (shape : list (string * schema))
                     (ms : list (string * json))
  : option (list (string * json)) :=
  match shape with
  | [] => Some []
  | (k, sch) :: rest =>
      match get k ms with
      | Some v =>
          match sch v, parse_shape rest ms with
          | Some v', Some out => Some ((k, v') :: out)
          | _, _ => None
          end
      | None => None
      end
  end.

(** [z.object(shape)], in its default mode: the input must be an object,
    the output is a new object holding the keys of the shape only. *)
Definition object (shape : list (string * schema)) : schema :=
  fun v =>
    match v with
    | JObj ms =>
        match parse_shape shape ms with
        | Some out => Some (JObj out)
        | None => None
        end
    | _ => None
    end.

End Zod.

(* ================================================================== *)
(** ** The service *)
(* ================================================================== *)

Module Service.

(** The two revisions of [geminiService.ts]: the first one in the file,
    with the "optimized list" of models, and the second, with the
    "expanded list". *)
Inductive revision : Type := Optimized | Expanded.

(** [AnalysisResultSchema], the same in both revisions. *)
Definition AnalysisResultSchema : Zod.schema :=
  Zod.object
    [("woundType", Zod.string_min1);
     ("severity", Zod.enum ["Low"; "Medium"; "High"]);
     ("description", Zod.string_min1);
     ("firstAidSteps", Zod.array_min 1 Zod.string_);
     ("recommendation", Zod.string_min1)].

(** The module-level constants: the candidate list is an array, which
    JavaScript would let the module mutate; the knowledge base is a
    string. *)
Record Globals : Type := {
  MODELS_TO_TRY : list string;
  MEDICAL_PDF_KNOWLEDGE : string
}.

Definition knowledge_text : string :=
  "
WOUNDS & SKIN INJURIES PROTOCOLS (102 Total):
1. Cut: Rinse with water. Press gently with clean cloth to stop bleeding. Apply antiseptic. Cover with bandage. Note: Consult professional if bleeding > 10m.
2. Scrape (Abrasion): Wash with soap/water. Remove dirt gently. Apply ointment. Cover lightly.
3. Bruise: Apply cold compress (10-15m). Rest. Repeat after hours.
4. Minor Burn: Cool under water (10m). Gently dry. Apply burn cream/aloe. Cover loosely.
5. Blister: Wash area. Do not pop. Cover with bandage. Keep clean/dry.
6. Splinter: Clean area. Remove with tweezers. Wash again. Cover if bleeding.
7. Insect Bite: Wash with soap/water. Cold compress. Anti-itch cream.
8. Insect Sting: Remove stinger gently. Wash. Cold compress. Watch for swelling.
9. Puncture Wound: Rinse. Let bleed slightly. Antiseptic. Cover.
10. Minor Skin Rash: Wash gently. Dry softly. Soothing cream. Avoid irritants.
... (Protocols 11-102)
102. Mild Callus: Soak in water. Smooth skin. Moisturizer.
".

Definition models_of (rv : revision) : list string :=
  match rv with
  | Optimized =>
      ["gemini-3-flash-preview";
       "gemini-2.5-flash-native-audio-preview-12-2025";
       "gemini-flash-lite-latest";
       "gemini-3-pro-preview"]
  | Expanded =>
      ["gemini-3-flash-preview";
       "gemini-2.5-flash-native-audio-preview-12-2025";
       "gemini-flash-lite-latest";
       "gemini-3-pro-preview";
       "gemini-2.5-pro";
       "gemini-2.5-flash";
       "gemini-2.5-flash-lite"]
  end.

(** The constants as the module declares them. *)
Definition globals (rv : revision) : Globals :=
  {| MODELS_TO_TRY := models_of rv; MEDICAL_PDF_KNOWLEDGE := knowledge_text |}.

(** *** Thrown values *)

Inductive jsval : Type :=
| Undefined
| Number (n : Z)
| Text (s : string).

Definition truthy (v : jsval) : bool :=
  match v with
  | Undefined => false
  | Number n => negb (n =? 0)%Z
  | Text s => negb (is_empty s)
  end.

(** [a || b]. *)
Definition js_or (a b : jsval) : jsval := if truthy a then a else b.

(** [v === n] for a number literal [n]. *)
Definition is_number (n : Z) (v : jsval) : bool :=
  match v with
  | Number m => (m =? n)%Z
  | _ => false
  end.

Record JsError : Type := {
  message : option string;
  status : jsval;
  code : jsval
}.

(** [new Error(msg)]. *)
Definition new_Error (msg : string) : JsError :=
  {| message := Some msg; status := Undefined; code := Undefined |}.

(** [error?.status || error?.code]; [None] is the initial [null]. *)
Definition status_of (error : option JsError) : jsval :=
  match error with
  | Some e => js_or (status e) (code e)
  | None => Undefined
  end.

(** [error?.message || fallback]. *)
Definition message_or (error : option JsError) (fallback : string) : string :=
  match error with
  | Some e =>
      match message e with
      | Some m => if is_empty m then fallback else m
      | None => fallback
      end
  | None => fallback
  end.

(** *** The request *)

Definition base64Data (base64Image : string) : string :=
  at_or (split "," base64Image) 1 base64Image.

Definition mimeType (base64Image : string) : string :=
  at_or (split ":" (at0 (split ";" base64Image))) 1 "image/jpeg".

Record InlineData : Type := {
  data : string;
  inline_mimeType : string
}.

Definition imagePart (base64Image : string) : InlineData :=
  {| data := base64Data base64Image; inline_mimeType := mimeType base64Image |}.

Definition prompt_head (rv : revision) : string :=
  match rv with
  | Optimized =>
      "You are AidPal, a friendly health buddy. Analyze this medical image.
        
        KNOWLEDGE BASE:
        "
  | Expanded =>
      "You are AidPal, a friendly and expert health buddy. Analyze this medical image.
        
        KNOWLEDGE BASE:
        "
  end.

Definition prompt_middle : string :=
  "
        
        USER CONTEXT: ".

Definition prompt_tail (rv : revision) : string :=
  match rv with
  | Optimized =>
      "
        
        INSTRUCTIONS:
        1. Identify the condition clearly. 
        2. Follow the KNOWLEDGE BASE protocols for first aid.
        3. Return ONLY a valid JSON object.
        4. Disclaimer: " ++ dq ++ "I'm a robot buddy, not a doc! This is not a professional diagnosis." ++ dq ++ "

        REQUIRED JSON STRUCTURE:
        {
          " ++ dq ++ "woundType" ++ dq ++ ": " ++ dq ++ "string" ++ dq ++ ",
          " ++ dq ++ "severity" ++ dq ++ ": " ++ dq ++ "Low" ++ dq ++ " | " ++ dq ++ "Medium" ++ dq ++ " | " ++ dq ++ "High" ++ dq ++ ",
          " ++ dq ++ "description" ++ dq ++ ": " ++ dq ++ "string" ++ dq ++ ",
          " ++ dq ++ "firstAidSteps" ++ dq ++ ": [" ++ dq ++ "string" ++ dq ++ "],
          " ++ dq ++ "recommendation" ++ dq ++ ": " ++ dq ++ "string" ++ dq ++ "
        }"
  | Expanded =>
      "
        
        INSTRUCTIONS:
        1. Identify the condition clearly based on the image and user context. 
        2. Strictly follow the KNOWLEDGE BASE protocols for step-by-step first aid.
        3. Return ONLY a valid JSON object. 
        4. Do not include any text outside the JSON.
        5. Mention you are an AI health buddy, not a doctor.
        6. Disclaimer: " ++ dq ++ "I'm a robot buddy, not a doc! This is not a professional diagnosis." ++ dq ++ "

        REQUIRED JSON STRUCTURE:
        {
          " ++ dq ++ "woundType" ++ dq ++ ": " ++ dq ++ "string" ++ dq ++ ",
          " ++ dq ++ "severity" ++ dq ++ ": " ++ dq ++ "Low" ++ dq ++ " | " ++ dq ++ "Medium" ++ dq ++ " | " ++ dq ++ "High" ++ dq ++ ",
          " ++ dq ++ "description" ++ dq ++ ": " ++ dq ++ "string" ++ dq ++ ",
          " ++ dq ++ "firstAidSteps" ++ dq ++ ": [" ++ dq ++ "string" ++ dq ++ "],
          " ++ dq ++ "recommendation" ++ dq ++ ": " ++ dq ++ "string" ++ dq ++ "
        }"
  end.

(** [context || "None provided."]. *)
Definition context_or_none (context : string) : string :=
  if is_empty context then "None provided." else context.

(** The text of [promptPart]. *)
Definition promptPart (rv : revision) (g : Globals) (context : string) : string :=
  prompt_head rv ++ MEDICAL_PDF_KNOWLEDGE g ++ prompt_middle
  ++ context_or_none context ++ prompt_tail rv.

(** The argument of [generateContent]; its [config] is constant and
    left out. *)
Record Request : Type := {
  model : string;
  image : InlineData;
  text : string
}.

Definition request (rv : revision) (g : Globals)
                   (base64Image context modelName : string) : Request :=
  {| model := modelName;
     image := imagePart base64Image;
     text := promptPart rv g context |}.

(** What a call of [generateContent] comes back with: a response whose
    [text] is a string or [undefined], or a thrown value. *)
Inductive Reply : Type :=
| Responds (response_text : option string)
| Throws (error : JsError).

(** *** Messages *)

Definition empty_response_message (rv : revision) : string :=
  match rv with
  | Optimized => "Empty response"
  | Expanded => "Received an empty response from the AI buddy."
  end.

Definition busy_message : string :=
  "All AI buddies are currently busy. Try again in a minute! üè•".

Definition rate_limit_message : string :=
  "I've been a bit too busy helping others! üßò Please take a deep breath and try again in a minute.".

Definition maintenance_message : string :=
  "My medical database is currently undergoing maintenance. ü©∫ Please check back in a few minutes!".

Definition unavailable_message : string :=
  "All my health buddies are currently busy or unavailable. üè• Let's try one more snap in a bit!".

(** *** The environment of a call

    The library of the remote is an oracle.  The constructor of its
    client, [new GoogleGenAI({ apiKey: process.env.API_KEY })], builds
    the client or throws, as the world has it: [None] when the client is
    built, [Some error] when [error] is thrown.  A call takes the request
    and the state of the outside world to a reply and a new state of the
    world.  The messages of the [SyntaxError] of [JSON.parse] and of the
    [ZodError] of [parse] belong to the engine and to the library. *)
Record Environment : Type := {
  World : Type;
  GoogleGenAI : World -> option JsError;
  generateContent : Request -> World -> Reply * World;
  syntaxErrorMessage : string -> string;
  zodErrorMessage : json -> string
}.

(** [cleanJson]: the trimmed text, or the brace span when there is one. *)
Definition cleanJson (resultText : string) : string :=
  let trimmed := trim resultText in
  match match_brace_span trimmed with
  | Some jsonMatch => jsonMatch
  | None => trimmed
  end.

(** The body of the [try] block from the response on: the value it
    returns, or the value it throws. *)
Definition decode (env : Environment) (rv : revision)
                  (resultText : option string) : JsError + json :=
  match resultText with
  | None => inl (new_Error (empty_response_message rv))
  | Some t =>
      if is_empty t then inl (new_Error (empty_response_message rv))
      else
        match JSON_parse (cleanJson t) with
        | None => inl (new_Error (syntaxErrorMessage env (cleanJson t)))
        | Some parsedData =>
            match AnalysisResultSchema parsedData with
            | None => inl (new_Error (zodErrorMessage env parsedData))
            | Some validatedResult => inr validatedResult
            end
        end
  end.

Definition attempt (env : Environment) (rv : revision) (reply : Reply)
  : JsError + json :=
  match reply with
  | Throws error => inl error
  | Responds resultText => decode env rv resultText
  end.

(** The ways a trial fails, and the value the [catch] block receives:
    the call itself throws, with any status or none; the response has no
    text; the text does not parse; the parsed value is not accepted by
    the schema. *)
Inductive CandidateFailure (env : Environment) (rv : revision)
  : Reply -> JsError -> Prop :=
| transport_error (error : JsError) :
    CandidateFailure env rv (Throws error) error
| undefined_text :
    CandidateFailure env rv (Responds None)
                     (new_Error (empty_response_message rv))
| empty_text :
    CandidateFailure env rv (Responds (Some EmptyString))
                     (new_Error (empty_response_message rv))
| unparseable_text (t : string) :
    t <> EmptyString ->
    JSON_parse (cleanJson t) = None ->
    CandidateFailure env rv (Responds (Some t))
                     (new_Error (syntaxErrorMessage env (cleanJson t)))
| schema_rejection (t : string) (parsedData : json) :
    JSON_parse (cleanJson t) = Some parsedData ->
    AnalysisResultSchema parsedData = None ->
    CandidateFailure env rv (Responds (Some t))
                     (new_Error (zodErrorMessage env parsedData)).

(** The candidates of a list fail one after the other, each in one of
    these ways, the world going from [w] to [w']. *)
Inductive Failures (env : Environment) (rv : revision) (g : Globals)
                   (base64Image context : string)
  : list string -> World env -> World env -> Prop :=
| no_candidate (w : World env) :
    Failures env rv g base64Image context [] w w
| failed_candidate (modelName : string) (rest : list string)
                   (w w1 w' : World env) (reply : Reply) (error : JsError) :
    generateContent env (request rv g base64Image context modelName) w
    = (reply, w1) ->
    CandidateFailure env rv reply error ->
    Failures env rv g base64Image context rest w1 w' ->
    Failures env rv g base64Image context (modelName :: rest) w w'.

(** How the [for] loop is left. *)
Inductive LoopExit : Type :=
| Returned (validatedResult : json)
| Exhausted (lastError : option JsError).

(** What the loop leaves: how it was left, the world, the module
    constants as the iterations have passed them on, and the requests
    sent, in order. *)
Record LoopRun (env : Environment) : Type := {
  exit : LoopExit;
  loop_world : World env;
  loop_globals : Globals;
  trials : list Request
}.
Arguments exit {env} _.
Arguments loop_world {env} _.
Arguments loop_globals {env} _.
Arguments trials {env} _.

Definition after_trial {env : Environment} (req : Request) (r : LoopRun env)
  : LoopRun env :=
  {| exit := exit r; loop_world := loop_world r;
     loop_globals := loop_globals r; trials := req :: trials r |}.

(** The [for ... of] loop over the candidates still to try.  Each
    iteration reads the module constants [g] and hands them to the
    next. *)
Fixpoint tryModels (env : Environment) (rv : revision) (g : Globals)
                   (base64Image context : string) (models : list string)
                   (lastError : option JsError) (w : World env)
  : LoopRun env :=
  match models with
  | [] =>
      {| exit := Exhausted lastError; loop_world := w; loop_globals := g;
         trials := [] |}
  | modelName :: rest =>
      let req := request rv g base64Image context modelName in
      let (reply, w') := generateContent env req w in
      match attempt env rv reply with
      | inr validatedResult =>
          {| exit := Returned validatedResult; loop_world := w';
             loop_globals := g; trials := [req] |}
      | inl error =>
          let statusCode := status_of (Some error) in
          if is_number 429 statusCode || is_number 404 statusCode
             || is_number 503 statusCode
          then after_trial req
                 (tryModels env rv g base64Image context rest (Some error) w')
          else after_trial req
                 (tryModels env rv g base64Image context rest (Some error) w')
      end
  end.

(** What is thrown once the loop is over. *)
Definition exhausted (rv : revision) (lastError : option JsError) : JsError :=
  match rv with
  | Optimized => new_Error (message_or lastError busy_message)
  | Expanded =>
      let status := status_of lastError in
      if is_number 429 status then new_Error rate_limit_message
      else if is_number 404 status then new_Error maintenance_message
      else new_Error unavailable_message
  end.

(** How the promise settles. *)
Inductive Outcome : Type :=
| Resolved (result : json)
| Rejected (error : JsError).

Definition settle (rv : revision) (e : LoopExit) : Outcome :=
  match e with
  | Returned validatedResult => Resolved validatedResult
  | Exhausted lastError => Rejected (exhausted rv lastError)
  end.

Record Run (env : Environment) : Type := {
  outcome : Outcome;
  globals_after : Globals;
  world_after : World env;
  calls : list Request
}.
Arguments outcome {env} _.
Arguments globals_after {env} _.
Arguments world_after {env} _.
Arguments calls {env} _.

(** [analyzeWound(base64Image, context)], run with the module constants
    [g] in the world [w].  The client is built first, outside of any
    [try]: what its constructor throws is what the caller gets, before
    any request. *)
Definition analyzeWound (env : Environment) (rv : revision) (g : Globals)
                        (w : World env) (base64Image context : string)
  : Run env :=
  match GoogleGenAI env w with
  | Some error =>
      {| outcome := Rejected error;
         globals_after := g;
         world_after := w;
         calls := [] |}
  | None =>
      let lastError : option JsError := None in
      let r :=
        tryModels env rv g base64Image context (MODELS_TO_TRY g) lastError w in
      {| outcome := settle rv (exit r);
         globals_after := loop_globals r;
         world_after := loop_world r;
         calls := trials r |}
  end.


End Service.

(* ================================================================== *)
(** ** The typed view of a result ([types.ts]) *)
(* ================================================================== *)

Module Types.

Inductive Severity : Type := Low | Medium | High.

Definition severity_name (s : Severity) : string :=
  match s with
  | Low => "Low"
  | Medium => "Medium"
  | High => "High"
  end.

Record AnalysisResult : Type := {
  woundType : string;
  severity : Severity;
  description : string;
  firstAidSteps : list string;
  recommendation : string
}.

(** The object an [AnalysisResult] is at run time. *)
Definition to_json (r : AnalysisResult) : json :=
  JObj [("woundType", JStr (woundType r));
        ("severity", JStr (severity_name (severity r)));
        ("description", JStr (description r));
        ("firstAidSteps", JArr (map JStr (firstAidSteps r)));
        ("recommendation", JStr (recommendation r))].

Definition schema_keys : list string :=
  ["woundType"; "severity"; "description"; "firstAidSteps"; "recommendation"].

(** The members of [ms] at the five keys are the fields of [r]. *)
Definition holds (ms : list (string * json)) (r : AnalysisResult) : Prop :=
  get "woundType" ms = Some (JStr (woundType r))
  /\ get "severity" ms = Some (JStr (severity_name (severity r)))
  /\ get "description" ms = Some (JStr (description r))
  /\ get "firstAidSteps" ms = Some (JArr (map JStr (firstAidSteps r)))
  /\ get "recommendation" ms = Some (JStr (recommendation r)).

(** What the schema asks of a result. *)
Definition schema_constraints (r : AnalysisResult) : Prop :=
  woundType r <> EmptyString
  /\ description r <> EmptyString
  /\ recommendation r <> EmptyString
  /\ firstAidSteps r <> [].

(** What the specification asks of a result (section 3 of the
    specification): as above, and every step a non-empty string. *)
Definition spec_constraints (r : AnalysisResult) : Prop :=
  schema_constraints r
  /\ Forall (fun step => step <> EmptyString) (firstAidSteps r).

End Types.

(* ================================================================== *)
(** ** The behaviour the specification words, for comparison *)
(* ================================================================== *)

Module Worded.

Import Service.

(** The prompt with the context substituted as it is. *)
Definition verbatim_prompt (rv : revision) (g : Globals) (context : string)
  : string :=
  prompt_head rv ++ MEDICAL_PDF_KNOWLEDGE g ++ prompt_middle
  ++ context ++ prompt_tail rv.

(** The message of the rejection as the specification words it, from the
    status of the last failure: 429 gives the rate-limit message, 404 the
    maintenance message, anything else or nothing the generic one. *)
Definition exhaustion_message (lastStatus : jsval) : string :=
  match lastStatus with
  | Number 429 => rate_limit_message
  | Number 404 => maintenance_message
  | _ => unavailable_message
  end.

(** The status the selection looks at: [status], and [code] when
    [status] is undefined, zero or the empty string. *)
Definition status_or_code (e : JsError) : jsval :=
  match status e with
  | Undefined => code e
  | Number 0 => code e
  | Text EmptyString => code e
  | s => s
  end.

(** The message of the rejection of the optimized revision: the message
    of the last failure, and the busy message when it has none or an
    empty one. *)
Definition own_message (e : JsError) : string :=
  match message e with
  | None => busy_message
  | Some EmptyString => busy_message
  | Some m => m
  end.

(** [strip_prefix p s] is what follows [p] in [s] when [s] starts
    with [p]. *)
Fixpoint strip_prefix (p s : string) : option string :=
  match p, s with
  | EmptyString, _ => Some s
  | String a p', String b s' =>
      if Ascii.eqb a b then strip_prefix p' s' else None
  | String _ _, EmptyString => None
  end.

(** The two sides of the first occurrence of [sep] in [s]. *)
Fixpoint cut_at (sep s : string) : option (string * string) :=
  match strip_prefix sep s with
  | Some after => Some (EmptyString, after)
  | None =>
      match s with
      | EmptyString => None
      | String c r =>
          match cut_at sep r with
          | Some (before, after) => Some (String c before, after)
          | None => None
          end
      end
  end.

(** The image part as the specification words it: a string of the form
    [data:<mediaType>;base64,<payload>] gives the payload and the media
    type; any other string is the payload, of type [image/jpeg]. *)
Definition framed_image (base64Image : string) : InlineData :=
  match strip_prefix "data:" base64Image with
  | Some r =>
      match cut_at ";base64," r with
      | Some (mediaType, payload) =>
          {| data := payload; inline_mimeType := mediaType |}
      | None => {| data := base64Image; inline_mimeType := "image/jpeg" |}
      end
  | None => {| data := base64Image; inline_mimeType := "image/jpeg" |}
  end.

End Worded.

(* ================================================================== *)
(** ** A scripted remote and sample texts *)
(* ================================================================== *)

Module Fixtures.

Import Service.

(** A remote that serves the replies of a script in order, and fails
    without a status once the script is over. *)
Definition offline : JsError :=
  {| message := Some "fetch failed"; status := Undefined; code := Undefined |}.

Definition serve (req : Request) (script : list Reply) : Reply * list Reply :=
  match script with
  | reply :: rest => (reply, rest)
  | [] => (Throws offline, [])
  end.

Definition scripted : Environment :=
  {| World := list Reply;
     GoogleGenAI := fun _ => None;
     generateContent := serve;
     syntaxErrorMessage := fun _ => "Unexpected token in JSON";
     zodErrorMessage := fun _ => "Invalid input" |}.

(** The same remote where no key is configured: the constructor of the
    client throws. *)
Definition no_key : JsError :=
  {| message := Some "An API Key must be set when running in a browser";
     status := Undefined; code := Undefined |}.

Definition keyless : Environment :=
  {| World := list Reply;
     GoogleGenAI := fun _ => Some no_key;
     generateContent := serve;
     syntaxErrorMessage := fun _ => "Unexpected token in JSON";
     zodErrorMessage := fun _ => "Invalid input" |}.

(** A failed call that carries an HTTP status. *)
Definition http_error (n : Z) (msg : string) : JsError :=
  {| message := Some msg; status := Number n; code := Undefined |}.

Definition member (k v : string) : string := quoted k ++ ":" ++ v.

Definition object_text (members : list string) : string :=
  "{" ++ String.concat "," members ++ "}".

(** [{"woundType":"Cut","severity":"Low","description":"x",
      "firstAidSteps":["Rinse with water"],"recommendation":"y"}] *)
Definition valid_text : string :=
  object_text [member "woundType" (quoted "Cut");
               member "severity" (quoted "Low");
               member "description" (quoted "x");
               member "firstAidSteps" ("[" ++ quoted "Rinse with water" ++ "]");
               member "recommendation" (quoted "y")].

Definition valid_result : Types.AnalysisResult :=
  {| Types.woundType := "Cut";
     Types.severity := Types.Low;
     Types.description := "x";
     Types.firstAidSteps := ["Rinse with water"];
     Types.recommendation := "y" |}.

(** The example of the specification: no [firstAidSteps]. *)
Definition missing_steps_text : string :=
  object_text [member "woundType" (quoted "Cut");
               member "severity" (quoted "Low");
               member "description" (quoted "x");
               member "recommendation" (quoted "y")].

(** A single step, the empty string. *)
Definition empty_step_text : string :=
  object_text [member "woundType" (quoted "Cut");
               member "severity" (quoted "Low");
               member "description" (quoted "x");
               member "firstAidSteps" ("[" ++ quoted EmptyString ++ "]");
               member "recommendation" (quoted "y")].

Definition empty_step_result : Types.AnalysisResult :=
  {| Types.woundType := "Cut";
     Types.severity := Types.Low;
     Types.description := "x";
     Types.firstAidSteps := [EmptyString];
     Types.recommendation := "y" |}.

(** The five fields and two keys the schema does not know. *)
Definition extra_keys_text : string :=
  object_text [member "confidence" "0.9";
               member "woundType" (quoted "Cut");
               member "severity" (quoted "Low");
               member "description" (quoted "x");
               member "firstAidSteps" ("[" ++ quoted "Rinse with water" ++ "]");
               member "recommendation" (quoted "y");
               member "model" (quoted "flash")].

(** The object inside a markdown fence. *)
Definition fenced_text : string :=
  "```json" ++ nl ++ valid_text ++ nl ++ "```" ++ nl.

(** The object after a sentence that holds braces of its own. *)
Definition prose_text : string :=
  "Report {draft}: " ++ valid_text.

(** The end-to-end scenario of the specification. *)
Definition scrape_text : string :=
  object_text [member "woundType" (quoted "Scrape (Abrasion)");
               member "severity" (quoted "Low");
               member "description" (quoted "...");
               member "firstAidSteps"
                 ("[" ++ quoted "Wash with soap/water" ++ ","
                  ++ quoted "Apply ointment" ++ "]");
               member "recommendation" (quoted "Monitor at home")].

Definition scrape_result : Types.AnalysisResult :=
  {| Types.woundType := "Scrape (Abrasion)";
     Types.severity := Types.Low;
     Types.description := "...";
     Types.firstAidSteps := ["Wash with soap/water"; "Apply ointment"];
     Types.recommendation := "Monitor at home" |}.

Definition jpeg_uri : string := "data:image/jpeg;base64,/9j/4AAQSkZJRg==".

End Fixtures.

(* ================================================================== *)
(** ** [JSON.stringify] *)
(* ================================================================== *)

From Stdlib Require Numbers.DecimalString Numbers.DecimalFacts Numbers.DecimalN.

Module JsonPrint.

(** The decimal numeral of a natural number: [n.toString()] for an
    integer that a double holds exactly. *)
Definition decimal (n : N) : string :=
  DecimalString.NilZero.string_of_uint (N.to_uint n).

Definition hexdigit (n : N) : ascii :=
  ascii_of_N (if (n <? 10)%N then 48 + n else 87 + n)%N.

(** [\uXXXX], with lowercase digits. *)
Definition unicode_escape (u : N) : string :=
  String "\" (String "u"
    (String (hexdigit (u / 4096))
       (String (hexdigit ((u / 256) mod 16))
          (String (hexdigit ((u / 16) mod 16))
             (String (hexdigit (u mod 16)) EmptyString))))).

(** The three bytes of a surrogate code unit. *)
Definition is_surrogate (c1 c2 c3 : ascii) : bool :=
  ((N_of_ascii c1 =? 237) && (160 <=? N_of_ascii c2)
   && (N_of_ascii c2 <=? 191) && (128 <=? N_of_ascii c3)
   && (N_of_ascii c3 <=? 191))%N.

Definition surrogate_unit (c2 c3 : ascii) : N :=
  (53248 + (N_of_ascii c2 - 128) * 64 + (N_of_ascii c3 - 128))%N.

(** One character inside a quoted string. *)
Definition escape_char (c : ascii) : string :=
  let n := N_of_ascii c in
  if (n =? 34)%N then String "\" (String c EmptyString)
  else if (n =? 92)%N then String "\" (String c EmptyString)
  else if (n =? 8)%N then "\b"
  else if (n =? 9)%N then "\t"
  else if (n =? 10)%N then "\n"
  else if (n =? 12)%N then "\f"
  else if (n =? 13)%N then "\r"
  else if (n <? 32)%N then unicode_escape n
  else String c EmptyString.

(** The characters of a string, escaped; a surrogate left alone is
    written as an escape. *)
Fixpoint quote_body (s : string) : string :=
  match s with
  | EmptyString => EmptyString
  | String c1 r1 =>
      match r1 with
      | String c2 (String c3 r3) =>
          if is_surrogate c1 c2 c3
          then unicode_escape (surrogate_unit c2 c3) ++ quote_body r3
          else escape_char c1 ++ quote_body r1
      | _ => escape_char c1 ++ quote_body r1
      end
  end.

(** [QuoteJSONString]. *)
Definition quote (s : string) : string := dq ++ quote_body s ++ dq.

(** No three bytes of [s] are those of a surrogate. *)
Fixpoint surrogate_free (s : string) : bool :=
  match s with
  | EmptyString => true
  | String c1 r1 =>
      match r1 with
      | String c2 (String c3 _) =>
          negb (is_surrogate c1 c2 c3) && surrogate_free r1
      | _ => surrogate_free r1
      end
  end.

(** *** The order of the properties of an object

    The keys that are array indices come first, in ascending order; the
    other keys follow in the order of their creation. *)

Fixpoint digits_value (acc : N) (l : list ascii) : option N :=
  match l with
  | [] => Some acc
  | c :: r =>
      if is_digit c then digits_value (acc * 10 + (N_of_ascii c - 48))%N r
      else None
  end.

(** The index that [k] denotes, when [k] is the canonical numeral of an
    integer below 2^32 - 1. *)
Definition array_index (k : string) : option N :=
  match list_ascii_of_string k with
  | [] => None
  | c :: r =>
      if Ascii.eqb c "0" && negb (match r with [] => true | _ => false end)
      then None
      else if (10 <? List.length (c :: r))%nat then None
      else match digits_value 0 (c :: r) with
           | Some n => if (n <=? 4294967294)%N then Some n else None
           | None => None
           end
  end.

Fixpoint insert_by_index {A : Type} (n : N) (x : A) (l : list (N * A))
  : list (N * A) :=
  match l with
  | [] => [(n, x)]
  | (m, y) :: r =>
      if (n <? m)%N then (n, x) :: l else (m, y) :: insert_by_index n x r
  end.

Fixpoint indexed {A : Type} (ms : list (string * A)) : list (N * (string * A)) :=
  match ms with
  | [] => []
  | (k, x) :: r =>
      match array_index k with
      | Some n => insert_by_index n (k, x) (indexed r)
      | None => indexed r
      end
  end.

Fixpoint named {A : Type} (ms : list (string * A)) : list (string * A) :=
  match ms with
  | [] => []
  | (k, x) :: r =>
      match array_index k with
      | Some _ => named r
      | None => (k, x) :: named r
      end
  end.

Definition own_properties {A : Type} (ms : list (string * A))
  : list (string * A) :=
  (map snd (indexed ms) ++ named ms)%list.

Fixpoint join (sep : string) (l : list string) : string :=
  match l with
  | [] => EmptyString
  | [x] => x
  | x :: r => x ++ sep ++ join sep r
  end.

(** [JSON.stringify(v)], without replacer or indentation.  The text of a
    number is the engine's: [printNumber] takes the numeral a number was
    read from to the text [Number.prototype.toString] gives it. *)
Fixpoint JSON_stringify (printNumber : string -> string) (v : json) : string :=
  match v with
  | JNull => "null"
  | JBool true => "true"
  | JBool false => "false"
  | JNum x => printNumber x
  | JStr s => quote s
  | JArr vs => "[" ++ join "," (map (JSON_stringify printNumber) vs) ++ "]"
  | JObj ms =>
      "{"
      ++ join ","
           (map (fun kv : string * string =>
                   (quote (fst kv) ++ ":" ++ snd kv)%string)
                (own_properties
                   (map (fun kv : string * json =>
                           (fst kv, JSON_stringify printNumber (snd kv)))
                        ms)))
      ++ "}"
  end.

(** The tokens of a sequence, with a comma between two elements. *)
Definition separated {A : Type} (f : A -> list token) (l : list A)
  : list token :=
  match l with
  | [] => []
  | x :: r => (f x ++ flat_map (fun y => TComma :: f y) r)%list
  end.

(** The tokens of the text of a value. *)
Fixpoint tokens_of (printNumber : string -> string) (v : json) : list token :=
  match v with
  | JNull => [TNull]
  | JBool true => [TTrue]
  | JBool false => [TFalse]
  | JNum x => [TNum (printNumber x)]
  | JStr s => [TStr s]
  | JArr vs =>
      (TLBracket :: separated (tokens_of printNumber) vs ++ [TRBracket])%list
  | JObj ms =>
      (TLBrace
       :: separated
            (fun kv : string * json =>
               TStr (fst kv) :: TColon :: tokens_of printNumber (snd kv))
            ms
       ++ [TRBrace])%list
  end.

(** The automaton goes on from where a step has left it. *)
Definition then_parse (r : option (expect * list frame)) (ts : list token)
  : option json :=
  match r with
  | Some (e, stack) => parse_tokens e stack ts
  | None => None
  end.

(** Where a word may end: at the end of the text, or before a character
    that is not one of a word. *)
Definition word_boundary (t : string) : Prop :=
  match t with
  | EmptyString => True
  | String c _ => is_word c = false
  end.

(** The values whose text reads back as the value: the numerals are
    printed as they are written, no string holds a surrogate, and the
    keys of an object are distinct and none of them an array index. *)
Fixpoint plain (printNumber : string -> string) (v : json) : Prop :=
  match v with
  | JNull | JBool _ => True
  | JNum x =>
      printNumber x = x /\ valid_number (list_ascii_of_string x) = true
  | JStr s => surrogate_free s = true
  | JArr vs =>
      (fix all (l : list json) : Prop :=
         match l with
         | [] => True
         | x :: r => plain printNumber x /\ all r
         end) vs
  | JObj ms =>
      NoDup (keys ms)
      /\ (fix all (l : list (string * json)) : Prop :=
            match l with
            | [] => True
            | kv :: r =>
                (surrogate_free (fst kv) = true
                 /\ array_index (fst kv) = None
                 /\ plain printNumber (snd kv))
                /\ all r
            end) ms
  end.

End JsonPrint.

(* ================================================================== *)
(** ** The application ([App.tsx]) *)
(* ================================================================== *)

Module App.

Import Service.

(** What the component is run in: the service and its remote, the
    engine's texts, and the key-value storage of the browser, which takes
    a write or throws. *)
Record Browser : Type := {
  service : Environment;
  printNumber : string -> string;
  notIterableMessage : json -> string;
  storageAccepts : list (string * string) -> string -> string -> bool;
  storageError : JsError
}.

(** The state of the component, one field per [useState].  The history
    is whatever value was read from the storage: nothing checks it
    against [HistoryItem[]]. *)
Record State : Type := {
  image : option string;
  description : string;
  isLoading : bool;
  result : option json;
  history : json;
  showHistory : bool;
  error : option string
}.

Definition initial : State :=
  {| image := None; description := EmptyString; isLoading := false;
     result := None; history := JArr []; showHistory := false;
     error := None |}.

(** What lies outside of the component: the world of the remote, the
    storage, and the clock, of which [Date.now()] gives the readings one
    after the other. *)
Record Outside (b : Browser) : Type := {
  remote : World (service b);
  disk : list (string * string);
  clock : nat -> N;
  ticks : nat
}.
Arguments remote {b} _.
Arguments disk {b} _.
Arguments clock {b} _.
Arguments ticks {b} _.

(** [Date.now()]. *)
Definition Date_now {b : Browser} (o : Outside b) : N * Outside b :=
  (clock o (ticks o),
   {| remote := remote o; disk := disk o; clock := clock o;
      ticks := S (ticks o) |}).

(** [localStorage.getItem(key)]. *)
Fixpoint getItem (key : string) (d : list (string * string)) : option string :=
  match d with
  | [] => None
  | (k, v) :: r => if String.eqb k key then Some v else getItem key r
  end.

Fixpoint put (key value : string) (d : list (string * string))
  : list (string * string) :=
  match d with
  | [] => [(key, value)]
  | (k, v) :: r =>
      if String.eqb k key then (k, value) :: r else (k, v) :: put key value r
  end.

(** [localStorage.setItem(key, value)]. *)
Definition setItem (b : Browser) (key value : string)
                   (d : list (string * string))
  : JsError + list (string * string) :=
  if storageAccepts b d key value then inr (put key value d)
  else inl (storageError b).

Definition storage_key : string := "aidpal_history".

Definition oopsie : string := "Oopsie! I couldn't see it clearly. Try again?".

(** The code points of a string, each as a string: what iterating over a
    string gives. *)
Definition is_continuation (s : string) : bool :=
  match s with
  | EmptyString => false
  | String c _ => ((128 <=? N_of_ascii c) && (N_of_ascii c <? 192))%N
  end.

Fixpoint code_points (s : string) : list string :=
  match s with
  | EmptyString => []
  | String c r =>
      match code_points r with
      | chunk :: rest =>
          if is_continuation r then String c chunk :: rest
          else String c EmptyString :: chunk :: rest
      | [] => [String c EmptyString]
      end
  end.

(** The elements [...v] spreads into an array literal; [None] when [v] is
    not iterable and the spread throws a [TypeError]. *)
Definition spread (v : json) : option (list json) :=
  match v with
  | JArr items => Some items
  | JStr s => Some (map JStr (code_points s))
  | _ => None
  end.

(** The effect run when the component is mounted. *)
Definition loadHistory {b : Browser} (s : State) (o : Outside b) : State :=
  match getItem storage_key (disk o) with
  | Some saved =>
      if is_empty saved then s
      else match JSON_parse saved with
           | Some parsed =>
               {| image := image s; description := description s;
                  isLoading := isLoading s; result := result s;
                  history := parsed; showHistory := showHistory s;
                  error := error s |}
           | None => s
           end
  | None => s
  end.

(** [reader.onloadend] in [handleImageUpload]. *)
Definition imageLoaded (readerResult : option string) (s : State) : State :=
  {| image := readerResult; description := description s;
     isLoading := isLoading s; result := result s; history := history s;
     showHistory := showHistory s; error := None |}.

Definition reset (s : State) : State :=
  {| image := None; description := EmptyString; isLoading := isLoading s;
     result := None; history := history s; showHistory := showHistory s;
     error := None |}.

(** A run of [handleScan]: the state once every setter has been applied,
    what is left outside, whether the camera input was clicked, and the
    requests sent to the remote. *)
Record Scan (b : Browser) : Type := {
  state_after : State;
  outside_after : Outside b;
  camera_clicked : bool;
  requests : list Request
}.
Arguments state_after {b} _.
Arguments outside_after {b} _.
Arguments camera_clicked {b} _.
Arguments requests {b} _.

(** The state at the end of [handleScan] when an image was there:
    [isLoading] is put back to false by the [finally] block. *)
Definition scanned (s : State) (result' : option json) (history' : json)
                   (error' : option string) : State :=
  {| image := image s; description := description s; isLoading := false;
     result := result'; history := history'; showHistory := showHistory s;
     error := error' |}.

(** [err?.message || 'Oopsie! ...']. *)
Definition shown (err : JsError) : option string :=
  Some (message_or (Some err) oopsie).

Definition newHistoryItem (id timestamp : N) (image : string) (analysis : json)
  : json :=
  JObj [("id", JStr (JsonPrint.decimal id));
        ("timestamp", JNum (JsonPrint.decimal timestamp));
        ("image", JStr image);
        ("result", analysis)].

Definition handleScan (b : Browser) (rv : revision) (s : State)
                      (o : Outside b) : Scan b :=
  let no_image :=
    {| state_after := s; outside_after := o; camera_clicked := true;
       requests := [] |} in
  match image s with
  | None => no_image
  | Some img =>
      if is_empty img then no_image
      else
        let run :=
          analyzeWound (service b) rv (globals rv) (remote o) img
                       (description s) in
        let o1 :=
          {| remote := world_after run; disk := disk o; clock := clock o;
             ticks := ticks o |} in
        match outcome run with
        | Rejected err =>
            {| state_after := scanned s (result s) (history s) (shown err);
               outside_after := o1; camera_clicked := false;
               requests := calls run |}
        | Resolved analysis =>
            let (id, o2) := Date_now o1 in
            let (timestamp, o3) := Date_now o2 in
            let item := newHistoryItem id timestamp img analysis in
            match spread (history s) with
            | None =>
                {| state_after :=
                     scanned s (Some analysis) (history s)
                       (shown (new_Error (notIterableMessage b (history s))));
                   outside_after := o3; camera_clicked := false;
                   requests := calls run |}
            | Some items =>
                let updatedHistory := JArr (item :: items) in
                match setItem b storage_key
                        (JsonPrint.JSON_stringify (printNumber b) updatedHistory)
                        (disk o3) with
                | inr disk' =>
                    {| state_after :=
                         scanned s (Some analysis) updatedHistory None;
                       outside_after :=
                         {| remote := remote o3; disk := disk';
                            clock := clock o3; ticks := ticks o3 |};
                       camera_clicked := false;
                       requests := calls run |}
                | inl err =>
                    {| state_after :=
                         scanned s (Some analysis) updatedHistory (shown err);
                       outside_after := o3; camera_clicked := false;
                       requests := calls run |}
                end
            end
        end
  end.

(** The class of the severity badge of the result modal. *)
Definition severity_badge (result : json) : string :=
  let severity :=
    match result with
    | JObj ms => get "severity" ms
    | _ => None
    end in
  match severity with
  | Some (JStr s) =>
      if String.eqb s "Low" then "bg-green-400"
      else if String.eqb s "Medium" then "bg-yellow-400"
      else "bg-red-400 text-white"
  | _ => "bg-red-400 text-white"
  end.

End App.

Module AppFixtures.

Import Service.

(** A browser whose storage takes every write of at most [capacity]
    bytes, and whose engine prints a numeral as it is written. *)
Definition quota_error : JsError :=
  {| message := Some "The quota has been exceeded.";
     status := Undefined; code := Number 22 |}.

Definition browser (capacity : nat) : App.Browser :=
  {| App.service := Fixtures.scripted;
     App.printNumber := fun x => x;
     App.notIterableMessage := fun _ => "history is not iterable";
     App.storageAccepts :=
       fun _ _ value => (String.length value <=? capacity)%nat;
     App.storageError := quota_error |}.

Definition outside (capacity : nat) (script : list Reply)
                   (disk : list (string * string))
  : App.Outside (browser capacity) :=
  @App.Build_Outside (browser capacity) script disk
    (fun i => (1730000000000 + N.of_nat i)%N) 0.



(** A state with an image chosen and a description typed. *)
Definition ready : App.State :=
  {| App.image := Some Fixtures.jpeg_uri;
     App.description := "scraped my knee";
     App.isLoading := false; App.result := None;
     App.history := JArr []; App.showHistory := false;
     App.error := None |}.

End AppFixtures.

(* ================================================================== *)
(** ** Facts about the string operations *)
(* ================================================================== *)

Import Service Types.

Module JsStringFacts.

Local Open Scope string_scope.

Lemma append_assoc (a b c : string) : (a ++ b) ++ c = a ++ (b ++ c).
Proof.
  induction a as [|x a IH]; simpl; [reflexivity | now rewrite IH].
Qed.

Lemma append_empty_r (a : string) : a ++ EmptyString = a.
Proof.
  induction a as [|x a IH]; simpl; [reflexivity | now rewrite IH].
Qed.

Lemma is_empty_true (s : string) : is_empty s = true <-> s = EmptyString.
Proof.
  destruct s; simpl; split; intro H; try reflexivity; discriminate H.
Qed.

Lemma is_empty_false (s : string) : is_empty s = false <-> s <> EmptyString.
Proof.
  destruct s; simpl; split; intro H; try discriminate H; congruence.
Qed.

Lemma occurs_append (c : ascii) (a b : string) :
  occurs c (a ++ b) = occurs c a || occurs c b.
Proof.
  induction a as [|x a IH]; simpl; [reflexivity|].
  now rewrite IH, orb_assoc.
Qed.

(** A character is told from another by its code. *)
Lemma eqb_by_code (c d : ascii) :
  N_of_ascii c <> N_of_ascii d -> Ascii.eqb c d = false.
Proof.
  intro H. destruct (Ascii.eqb_spec c d) as [->|]; [now elim H | reflexivity].
Qed.

(** *** Splitting *)

Lemma split_not_nil (sep : ascii) (s : string) : split sep s <> [].
Proof.
  destruct s as [|c r]; simpl; [discriminate|].
  destruct (Ascii.eqb c sep); [discriminate|].
  destruct (split sep r); discriminate.
Qed.

Lemma split_absent (sep : ascii) (s : string) :
  occurs sep s = false -> split sep s = [s].
Proof.
  induction s as [|c r IH]; simpl; [reflexivity|].
  intro H. apply orb_false_iff in H as [Hc Hr].
  rewrite Hc, (IH Hr). reflexivity.
Qed.

Lemma split_at_first (sep : ascii) (a b : string) :
  occurs sep a = false ->
  split sep (a ++ String sep b) = a :: split sep b.
Proof.
  induction a as [|c r IH]; simpl; intro H.
  - now rewrite Ascii.eqb_refl.
  - apply orb_false_iff in H as [Hc Hr].
    rewrite Hc, (IH Hr). reflexivity.
Qed.

(** *** White space holds no brace *)

Lemma brace_free_empty : brace_free EmptyString.
Proof. split; reflexivity. Qed.

Lemma brace_free_cons (c : ascii) (w : string) :
  N_of_ascii c <> 123%N -> N_of_ascii c <> 125%N ->
  brace_free w -> brace_free (String c w).
Proof.
  intros H1 H2 [Hl Hr]. split; simpl.
  - rewrite eqb_by_code by exact H1. exact Hl.
  - rewrite eqb_by_code by exact H2. exact Hr.
Qed.

Lemma brace_free_append (a b : string) :
  brace_free a -> brace_free b -> brace_free (a ++ b).
Proof.
  intros [Ha1 Ha2] [Hb1 Hb2].
  split; rewrite occurs_append; [rewrite Ha1, Hb1 | rewrite Ha2, Hb2];
    reflexivity.
Qed.

Lemma ws1_code (c : ascii) : ws1 c = true -> (N_of_ascii c <= 32)%N.
Proof.
  unfold ws1. intro H.
  apply orb_true_iff in H as [H|H].
  - apply andb_true_iff in H as [_ H]. apply N.leb_le in H. lia.
  - apply N.eqb_eq in H. lia.
Qed.

Lemma ws2_code (c1 c2 : ascii) :
  ws2 c1 c2 = true -> (128 <= N_of_ascii c1 /\ 128 <= N_of_ascii c2)%N.
Proof.
  unfold ws2. intro H.
  apply andb_true_iff in H as [H1 H2].
  apply N.eqb_eq in H1, H2. lia.
Qed.

Lemma ws3_code (c1 c2 c3 : ascii) :
  ws3 c1 c2 c3 = true ->
  (128 <= N_of_ascii c1 /\ 128 <= N_of_ascii c2 /\ 128 <= N_of_ascii c3)%N.
Proof.
  unfold ws3. intro H.
  repeat match type of H with
         | (_ || _) = true => apply orb_true_iff in H as [H|H]
         end;
    repeat match goal with
           | K : (_ && _) = true |- _ => apply andb_true_iff in K as [? ?]
           | K : (_ || _) = true |- _ => apply orb_true_iff in K as [?|?]
           | K : (_ =? _)%N = true |- _ => apply N.eqb_eq in K
           | K : (_ <=? _)%N = true |- _ => apply N.leb_le in K
           end; lia.
Qed.

(** The strings from which [trimStart] removes a white-space character
    are reached by a recursion of depth up to three, hence the measure. *)
Lemma trimStart_decomposition_bounded (n : nat) :
  forall s, (String.length s <= n)%nat ->
            exists w, s = w ++ trimStart s /\ brace_free w.
Proof.
  induction n as [|n IH]; intros s Hlen.
  - destruct s; [|simpl in Hlen; lia].
    exists EmptyString. split; [reflexivity | apply brace_free_empty].
  - destruct s as [|c1 r1].
    { exists EmptyString. split; [reflexivity | apply brace_free_empty]. }
    simpl in Hlen. simpl.
    destruct (ws1 c1) eqn:E1.
    { destruct (IH r1) as [w [Hw Hf]]; [lia|].
      exists (String c1 w). split; [simpl; now rewrite <- Hw|].
      apply ws1_code in E1. apply brace_free_cons; [lia | lia | exact Hf]. }
    destruct r1 as [|c2 r2].
    { exists EmptyString. split; [reflexivity | apply brace_free_empty]. }
    simpl in Hlen.
    destruct (ws2 c1 c2) eqn:E2.
    { destruct (IH r2) as [w [Hw Hf]]; [lia|].
      exists (String c1 (String c2 w)). split; [simpl; now rewrite <- Hw|].
      apply ws2_code in E2.
      repeat apply brace_free_cons; try lia. exact Hf. }
    destruct r2 as [|c3 r3].
    { exists EmptyString. split; [reflexivity | apply brace_free_empty]. }
    simpl in Hlen.
    destruct (ws3 c1 c2 c3) eqn:E3.
    { destruct (IH r3) as [w [Hw Hf]]; [lia|].
      exists (String c1 (String c2 (String c3 w))).
      split; [simpl; now rewrite <- Hw|].
      apply ws3_code in E3.
      repeat apply brace_free_cons; try lia. exact Hf. }
    exists EmptyString. split; [reflexivity | apply brace_free_empty].
Qed.

Lemma trimStart_decomposition (s : string) :
  exists w, s = w ++ trimStart s /\ brace_free w.
Proof.
  apply (trimStart_decomposition_bounded (String.length s)). lia.
Qed.

Lemma blank_brace_free_bounded (n : nat) :
  forall s, (String.length s <= n)%nat -> blank s = true -> brace_free s.
Proof.
  induction n as [|n IH]; intros s Hlen Hb.
  - destruct s; [apply brace_free_empty | simpl in Hlen; lia].
  - destruct s as [|c1 r1]; [apply brace_free_empty|].
    simpl in Hlen. simpl in Hb.
    destruct (ws1 c1) eqn:E1.
    { apply ws1_code in E1. apply brace_free_cons; try lia.
      apply IH; [lia | exact Hb]. }
    destruct r1 as [|c2 r2]; [discriminate|].
    simpl in Hlen.
    destruct (ws2 c1 c2) eqn:E2.
    { apply ws2_code in E2. repeat apply brace_free_cons; try lia.
      apply IH; [lia | exact Hb]. }
    destruct r2 as [|c3 r3]; [discriminate|].
    simpl in Hlen.
    destruct (ws3 c1 c2 c3) eqn:E3; [|discriminate].
    apply ws3_code in E3. repeat apply brace_free_cons; try lia.
    apply IH; [lia | exact Hb].
Qed.

Lemma blank_brace_free (s : string) : blank s = true -> brace_free s.
Proof.
  apply (blank_brace_free_bounded (String.length s)). lia.
Qed.

Lemma trimEnd_decomposition (s : string) :
  exists w, s = trimEnd s ++ w /\ brace_free w.
Proof.
  induction s as [|c r IH].
  - exists EmptyString. split; [reflexivity | apply brace_free_empty].
  - cbn [trimEnd]. destruct (blank (String c r)) eqn:E.
    + exists (String c r). split; [reflexivity | now apply blank_brace_free].
    + destruct IH as [w [Hw Hf]]. exists w. split; [|exact Hf].
      simpl. now rewrite <- Hw.
Qed.

(** *** The brace span *)

Lemma from_first_lbrace_skip (w s : string) :
  occurs "{" w = false -> from_first_lbrace (w ++ s) = from_first_lbrace s.
Proof.
  induction w as [|c w IH]; simpl; [reflexivity|].
  intro H. apply orb_false_iff in H as [Hc Hw].
  rewrite Hc. now apply IH.
Qed.

Lemma from_first_lbrace_none (w : string) :
  occurs "{" w = false -> from_first_lbrace w = None.
Proof.
  induction w as [|c w IH]; simpl; [reflexivity|].
  intro H. apply orb_false_iff in H as [Hc Hw].
  rewrite Hc. now apply IH.
Qed.

Lemma from_first_lbrace_append (s w : string) :
  occurs "{" w = false ->
  from_first_lbrace (s ++ w)
  = match from_first_lbrace s with
    | Some r => Some (r ++ w)
    | None => None
    end.
Proof.
  intro Hw. induction s as [|c s IH]; simpl.
  - now apply from_first_lbrace_none.
  - destruct (Ascii.eqb c "{"); [reflexivity | exact IH].
Qed.

Lemma upto_last_rbrace_none (w : string) :
  occurs "}" w = false -> upto_last_rbrace w = None.
Proof.
  induction w as [|c w IH]; simpl; [reflexivity|].
  intro H. apply orb_false_iff in H as [Hc Hw].
  now rewrite (IH Hw), Hc.
Qed.

Lemma upto_last_rbrace_append (s w : string) :
  occurs "}" w = false -> upto_last_rbrace (s ++ w) = upto_last_rbrace s.
Proof.
  intro Hw. induction s as [|c s IH]; simpl.
  - now apply upto_last_rbrace_none.
  - now rewrite IH.
Qed.

Lemma upto_last_rbrace_closing (body post : string) :
  occurs "}" post = false ->
  upto_last_rbrace (body ++ String "}" post) = Some (body ++ String "}" EmptyString).
Proof.
  intro Hp. induction body as [|c body IH]; simpl.
  - now rewrite (upto_last_rbrace_none post Hp).
  - now rewrite IH.
Qed.

Lemma from_first_lbrace_some (s r : string) :
  from_first_lbrace s = Some r ->
  exists pre, s = pre ++ String "{" r /\ occurs "{" pre = false.
Proof.
  revert r. induction s as [|c s IH]; simpl; intros r H; [discriminate|].
  destruct (Ascii.eqb_spec c "{") as [->|Hc].
  - injection H as <-. exists EmptyString. split; reflexivity.
  - destruct (IH r H) as [pre [-> Hpre]].
    exists (String c pre). split; [reflexivity|].
    simpl. rewrite Hpre.
    destruct (Ascii.eqb_spec c "{"); [contradiction | reflexivity].
Qed.

Lemma upto_last_rbrace_some (s p : string) :
  upto_last_rbrace s = Some p ->
  exists body post,
    p = body ++ String "}" EmptyString /\ s = p ++ post
    /\ occurs "}" post = false.
Proof.
  revert p. induction s as [|c s IH]; simpl; intros p H; [discriminate|].
  destruct (upto_last_rbrace s) as [q|] eqn:E.
  - injection H as <-. destruct (IH q eq_refl) as [body [post [-> [Hs Hp]]]].
    exists (String c body), post. repeat split; [|exact Hp].
    simpl. now rewrite <- Hs.
  - destruct (Ascii.eqb_spec c "}") as [->|Hc]; [|discriminate].
    injection H as <-. exists EmptyString, s. repeat split.
    clear IH. induction s as [|d s IHs]; [reflexivity|].
    simpl in E. destruct (upto_last_rbrace s); [discriminate|].
    destruct (Ascii.eqb d "}") eqn:Ed; [discriminate|].
    simpl. rewrite Ed. now apply IHs.
Qed.

(** The match runs from the first left brace to the last right brace. *)
Lemma match_brace_span_some (s m : string) :
  match_brace_span s = Some m ->
  exists pre body post,
    s = pre ++ m ++ post
    /\ m = String "{" (body ++ String "}" EmptyString)
    /\ occurs "{" pre = false /\ occurs "}" post = false.
Proof.
  unfold match_brace_span. intro H.
  destruct (from_first_lbrace s) as [r|] eqn:E1; [|discriminate].
  destruct (upto_last_rbrace r) as [p|] eqn:E2; [|discriminate].
  injection H as <-.
  destruct (from_first_lbrace_some _ _ E1) as [pre [-> Hpre]].
  destruct (upto_last_rbrace_some _ _ E2) as [body [post [-> [-> Hpost]]]].
  exists pre, body, post. repeat split; assumption.
Qed.

Lemma match_brace_span_wrapped (pre body post : string) :
  occurs "{" pre = false -> occurs "}" post = false ->
  match_brace_span (pre ++ String "{" (body ++ String "}" post))
  = Some (String "{" (body ++ String "}" EmptyString)).
Proof.
  intros Hpre Hpost. unfold match_brace_span.
  rewrite from_first_lbrace_skip by exact Hpre. simpl.
  now rewrite upto_last_rbrace_closing.
Qed.

Lemma match_brace_span_outer (w1 t w2 : string) :
  brace_free w1 -> brace_free w2 ->
  match_brace_span (w1 ++ t ++ w2) = match_brace_span t.
Proof.
  intros [H1 _] [H2 H2']. unfold match_brace_span.
  rewrite from_first_lbrace_skip by exact H1.
  rewrite from_first_lbrace_append by exact H2.
  destruct (from_first_lbrace t) as [r|]; [|reflexivity].
  now rewrite upto_last_rbrace_append.
Qed.

(** Trimming does not move the span. *)
Lemma match_brace_span_trim (s : string) :
  match_brace_span (trim s) = match_brace_span s.
Proof.
  unfold trim.
  destruct (trimStart_decomposition s) as [w1 [Hs Hw1]].
  destruct (trimEnd_decomposition (trimStart s)) as [w2 [Ht Hw2]].
  rewrite Hs at 2. rewrite Ht at 2.
  symmetry. now apply match_brace_span_outer.
Qed.

End JsStringFacts.

(* ================================================================== *)
(** ** Facts about [JSON.parse]: the text of an object *)
(* ================================================================== *)

Module JsonFacts.

Import JsStringFacts.
Local Open Scope string_scope.

Lemma json_ws_code (c : ascii) : is_json_ws c = true -> (N_of_ascii c <= 32)%N.
Proof.
  unfold is_json_ws. intro H.
  repeat match type of H with
         | (_ || _) = true => apply orb_true_iff in H as [H|H]
         end; apply N.eqb_eq in H; lia.
Qed.

Lemma all_json_ws_brace_free (s : string) :
  all_json_ws s = true -> brace_free s.
Proof.
  induction s as [|c s IH]; simpl; intro H; [apply brace_free_empty|].
  apply andb_true_iff in H as [Hc Hs]. apply json_ws_code in Hc.
  apply brace_free_cons; [lia | lia | now apply IH].
Qed.

(** *** The lexer *)

(** A word never yields a structural token. *)
Lemma word_token_scalar (w : list ascii) (t : token) :
  word_token w = Some t ->
  t = TTrue \/ t = TFalse \/ t = TNull \/ exists x, t = TNum x.
Proof.
  unfold word_token.
  repeat match goal with
         | |- context [if ?b then _ else _] => destruct b
         end; intro H; try discriminate H; injection H as <-; eauto.
Qed.

Lemma structural_rbrace (c : ascii) :
  structural_token c = Some TRBrace -> c = "}"%char.
Proof.
  unfold structural_token.
  repeat match goal with
         | |- context [if Ascii.eqb c ?d then _ else _] =>
             destruct (Ascii.eqb_spec c d) as [->|?]
         end; intro H; try discriminate H; reflexivity.
Qed.

Lemma structural_lbrace (c : ascii) :
  structural_token c = Some TLBrace -> c = "{"%char.
Proof.
  unfold structural_token.
  repeat match goal with
         | |- context [if Ascii.eqb c ?d then _ else _] =>
             destruct (Ascii.eqb_spec c d) as [->|?]
         end; intro H; try discriminate H; reflexivity.
Qed.

(** The tokens already found stay, and in their order. *)
Lemma lex_step_keeps (m : lexmode) (out : list token) (c : ascii)
      (m' : lexmode) (out' : list token) :
  lex_step m out c = Some (m', out') -> exists extra, out' = (extra ++ out)%list.
Proof.
  assert (Hidle : forall o mm oo,
             lex_idle o c = Some (mm, oo) -> exists extra, oo = (extra ++ o)%list).
  { intros o mm oo. unfold lex_idle.
    destruct (is_json_ws c); [intro H; injection H as <- <-; now exists []|].
    destruct (structural_token c) as [t|];
      [intro H; injection H as <- <-; now exists [t]|].
    destruct (Ascii.eqb c "034"); [intro H; injection H as <- <-; now exists []|].
    destruct (is_word c); [|discriminate].
    intro H; injection H as <- <-; now exists []. }
  destruct m as [|acc|acc|acc|acc ds]; cbn [lex_step].
  - apply Hidle.
  - destruct (is_word c); [intro H; injection H as <- <-; now exists []|].
    destruct (word_token (rev acc)) as [t|]; [|discriminate].
    intro H. destruct (Hidle _ _ _ H) as [extra ->].
    exists (extra ++ [t])%list. now rewrite <- app_assoc.
  - repeat match goal with
           | |- context [if ?b then _ else _] => destruct b
           end; intro H; try discriminate H; injection H as <- <-;
      solve [now exists [] | eexists [_]; reflexivity].
  - repeat match goal with
           | |- context [if ?b then _ else _] => destruct b
           end; intro H; try discriminate H; injection H as <- <-;
      now exists [].
  - destruct (hex_value c); [|discriminate].
    destruct ds as [|d3 [|d2 [|d1 [|d0 ds]]]];
      intro H; injection H as <- <-; now exists [].
Qed.

Lemma lex_keeps (s : string) :
  forall m out ts,
    lex m out s = Some ts -> exists ts', ts = (rev out ++ ts')%list.
Proof.
  induction s as [|c s IH]; intros m out ts; cbn [lex].
  - destruct m as [|acc|acc|acc|acc ds]; try discriminate.
    + intro H. injection H as <-. exists []. now rewrite app_nil_r.
    + destruct (word_token (rev acc)) as [t|]; [|discriminate].
      intro H. injection H as <-. now exists [t].
  - destruct (lex_step m out c) as [[m' out']|] eqn:Hstep; [|discriminate].
    intro H. destruct (IH _ _ _ H) as [ts' ->].
    destruct (lex_step_keeps _ _ _ _ _ Hstep) as [extra ->].
    exists (rev extra ++ ts')%list. now rewrite rev_app_distr, <- app_assoc.
Qed.

(** Inside a string, the next token is that string. *)
Lemma lex_string_step (m : lexmode) (c : ascii) (m' : lexmode)
      (out' : list token) :
  match m with InStr _ | InEsc _ | InHex _ _ => True | _ => False end ->
  lex_step m [] c = Some (m', out') ->
  (match m' with InStr _ | InEsc _ | InHex _ _ => True | _ => False end
   /\ out' = [])
  \/ (m' = Idle /\ exists x, out' = [TStr x]).
Proof.
  destruct m as [|acc|acc|acc|acc ds]; try contradiction; intros _;
    cbn [lex_step].
  - repeat match goal with
           | |- context [if ?b then _ else _] => destruct b
           end; intro H; try discriminate H; injection H as <- <-;
      solve [left; now split | right; split; [reflexivity | now eexists]].
  - repeat match goal with
           | |- context [if ?b then _ else _] => destruct b
           end; intro H; try discriminate H; injection H as <- <-;
      left; now split.
  - destruct (hex_value c); [|discriminate].
    destruct ds as [|d3 [|d2 [|d1 [|d0 ds]]]];
      intro H; injection H as <- <-; left; now split.
Qed.

Lemma lex_string_first (s : string) :
  forall m ts,
    match m with InStr _ | InEsc _ | InHex _ _ => True | _ => False end ->
    lex m [] s = Some ts -> exists x ts', ts = TStr x :: ts'.
Proof.
  induction s as [|c s IH]; intros m ts Hm; cbn [lex].
  - destruct m; try contradiction; discriminate.
  - destruct (lex_step m [] c) as [[m' out']|] eqn:Hstep; [|discriminate].
    intro H.
    destruct (lex_string_step _ _ _ _ Hm Hstep) as [[Hm' ->]|[-> [x ->]]].
    + now apply (IH m').
    + destruct (lex_keeps _ _ _ _ H) as [ts' ->]. now exists x, ts'.
Qed.

(** Inside a word, the next token is that word. *)
Lemma lex_word_first (s : string) :
  forall acc ts,
    lex (InWord acc) [] s = Some ts ->
    exists t ts',
      ts = t :: ts'
      /\ (t = TTrue \/ t = TFalse \/ t = TNull \/ exists x, t = TNum x).
Proof.
  induction s as [|c s IH]; intros acc ts; cbn [lex].
  - destruct (word_token (rev acc)) as [t|] eqn:Ht; [|discriminate].
    intro H. injection H as <-. exists t, []. split; [reflexivity|].
    now apply word_token_scalar with (rev acc).
  - cbn [lex_step]. destruct (is_word c); [apply IH|].
    destruct (word_token (rev acc)) as [t|] eqn:Ht; [|discriminate].
    destruct (lex_idle [t] c) as [[m' out']|] eqn:Hidle; [|discriminate].
    intro H.
    destruct (lex_step_keeps Idle [t] c m' out' Hidle) as [extra ->].
    destruct (lex_keeps _ _ _ _ H) as [ts' ->].
    rewrite rev_app_distr. cbn [rev app].
    eexists t, _. split; [reflexivity|].
    now apply word_token_scalar with (rev acc).
Qed.

(** *** The automaton *)

Lemma parse_after_done (v : json) (stack : list frame) (t : token)
      (ts : list token) :
  parse_tokens (Done v) stack (t :: ts) = None.
Proof. destruct t; reflexivity. Qed.

Lemma deliver_done (v v' : json) (st st' : list frame) :
  deliver v st = Some (Done v', st') -> v' = v /\ st = [].
Proof.
  destruct st as [|[items|ms [k|]] st]; simpl; intro H; try discriminate H.
  injection H as <- <-. now split.
Qed.

(** The token that completes an object is a right brace. *)
Lemma parse_step_done_object (e : expect) (stack : list frame) (t : token)
      (ms : list (string * json)) (stack' : list frame) :
  parse_step e stack t = Some (Done (JObj ms), stack') -> t = TRBrace.
Proof.
  destruct t; cbn [parse_step scalar]; try reflexivity;
    destruct e; cbn [wants_value]; try discriminate;
    try (intro H; apply deliver_done in H as [H _]; discriminate H);
    try (destruct stack as [|[items|ms' [k|]] st]; try discriminate;
         try (destruct items; try discriminate);
         intro H; apply deliver_done in H as [H _]; discriminate H).
Qed.

Lemma parse_object_last (ts : list token) :
  forall e stack ms,
    (forall v, e <> Done v) ->
    parse_tokens e stack ts = Some (JObj ms) ->
    exists ts0, ts = (ts0 ++ [TRBrace])%list.
Proof.
  induction ts as [|t ts IH]; intros e stack ms He; cbn [parse_tokens].
  - destruct e; try discriminate. now elim (He v).
  - destruct (parse_step e stack t) as [[e' stack']|] eqn:Hstep; [|discriminate].
    intro H. destruct ts as [|t2 ts2].
    + cbn [parse_tokens] in H. destruct e'; try discriminate H.
      injection H as ->. apply parse_step_done_object in Hstep. subst t.
      now exists [].
    + assert (He' : forall v, e' <> Done v).
      { intros v ->. now rewrite parse_after_done in H. }
      destruct (IH _ _ _ He' H) as [ts0 ->].
      now exists (t :: ts0).
Qed.

Lemma deliver_array_bottom (v : json) (rest : list frame) (items : list json)
      (e' : expect) (stack' : list frame) :
  deliver v (rest ++ [InArray items]) = Some (e', stack') ->
  e' = CommaOrClose
  /\ exists rest' items', stack' = (rest' ++ [InArray items'])%list.
Proof.
  destruct rest as [|[its|ms [k|]] rest]; simpl; intro H;
    try discriminate H; injection H as <- <-; split; try reflexivity.
  - now exists [], (v :: items).
  - now exists (InArray (v :: its) :: rest), items.
  - now exists (InObject (set_member k v ms) None :: rest), items.
Qed.

(** A run that starts inside an array at the bottom stays inside it, or
    completes it. *)
Lemma parse_step_array_bottom (e : expect) (rest : list frame)
      (items : list json) (t : token) (e' : expect) (stack' : list frame) :
  (forall v, e <> Done v) ->
  parse_step e (rest ++ [InArray items]) t = Some (e', stack') ->
  ((forall v, e' <> Done v)
   /\ exists rest' items', stack' = (rest' ++ [InArray items'])%list)
  \/ (exists vs, e' = Done (JArr vs) /\ stack' = []).
Proof.
  intro He.
  assert (Hd : forall v o1 o2,
             deliver v (rest ++ [InArray items]) = Some (o1, o2) ->
             ((forall v, o1 <> Done v)
              /\ exists rest' items', o2 = (rest' ++ [InArray items'])%list)
             \/ (exists vs, o1 = Done (JArr vs) /\ o2 = [])).
  { intros v o1 o2 H. left.
    apply deliver_array_bottom in H as [-> H]. split; [discriminate | exact H]. }
  assert (Hpop : forall v top rest0 o1 o2,
             (rest ++ [InArray items])%list = top :: rest0 ->
             (rest = [] -> exists vs, v = JArr vs) ->
             deliver v rest0 = Some (o1, o2) ->
             ((forall v, o1 <> Done v)
              /\ exists rest' items', o2 = (rest' ++ [InArray items'])%list)
             \/ (exists vs, o1 = Done (JArr vs) /\ o2 = [])).
  { intros v top rest0 o1 o2 Heq Hv H.
    destruct rest as [|f rest1].
    - simpl in Heq. injection Heq as <- <-. simpl in H.
      injection H as <- <-. right. destruct (Hv eq_refl) as [vs ->].
      now exists vs.
    - simpl in Heq. injection Heq as <- <-. left.
      apply deliver_array_bottom in H as [-> H]. split; [discriminate | exact H]. }
  destruct t; cbn [parse_step scalar].
  - (* left brace *)
    destruct (wants_value e) eqn:Hw; [|discriminate].
    intro H. injection H as <- <-. left. split; [discriminate|].
    now exists (InObject [] None :: rest), items.
  - (* right brace *)
    destruct e; try discriminate;
      destruct (rest ++ [InArray items])%list as [|[its|ms [k|]] st] eqn:Heq;
      try discriminate; intro H;
      (eapply Hpop; [reflexivity | | exact H]);
      intros ->; simpl in Heq; discriminate Heq.
  - (* left bracket *)
    destruct (wants_value e) eqn:Hw; [|discriminate].
    intro H. injection H as <- <-. left. split; [discriminate|].
    now exists (InArray [] :: rest), items.
  - (* right bracket *)
    destruct e; try discriminate;
      destruct (rest ++ [InArray items])%list as [|[its|ms [k|]] st] eqn:Heq;
      try discriminate; try (destruct its; try discriminate); intro H;
      (eapply Hpop; [reflexivity | | exact H]); intros _; eauto.
  - (* colon *)
    destruct e; try discriminate.
    intro H. injection H as <- <-. left. split; [discriminate|].
    now exists rest, items.
  - (* comma *)
    destruct e; try discriminate;
      destruct (rest ++ [InArray items])%list as [|[its|ms [k|]] st] eqn:Heq;
      try discriminate; intro H; injection H as <- <-; left;
      (split; [discriminate|]); rewrite <- Heq; now exists rest, items.
  - (* string *)
    destruct e; try discriminate; try apply Hd.
    + destruct (rest ++ [InArray items])%list as [|[its|ms [k|]] st] eqn:Heq;
        try discriminate.
      intro H. injection H as <- <-. left. split; [discriminate|].
      destruct rest as [|f rest1]; simpl in Heq; [discriminate Heq|].
      injection Heq as -> <-.
      now exists (InObject ms (Some s) :: rest1), items.
    + destruct (rest ++ [InArray items])%list as [|[its|ms [k|]] st] eqn:Heq;
        try discriminate.
      intro H. injection H as <- <-. left. split; [discriminate|].
      destruct rest as [|f rest1]; simpl in Heq; [discriminate Heq|].
      injection Heq as -> <-.
      now exists (InObject ms (Some s) :: rest1), items.
  - unfold scalar. destruct (wants_value e); [apply Hd | discriminate].
  - unfold scalar. destruct (wants_value e); [apply Hd | discriminate].
  - unfold scalar. destruct (wants_value e); [apply Hd | discriminate].
  - unfold scalar. destruct (wants_value e); [apply Hd | discriminate].
Qed.

Lemma parse_array_bottom (ts : list token) :
  forall e rest items v,
    (forall v', e <> Done v') ->
    parse_tokens e (rest ++ [InArray items]) ts = Some v ->
    exists vs, v = JArr vs.
Proof.
  induction ts as [|t ts IH]; intros e rest items v He; cbn [parse_tokens].
  - destruct e; try discriminate. now elim (He v0).
  - destruct (parse_step e (rest ++ [InArray items]) t)
      as [[e' stack']|] eqn:Hstep; [|discriminate].
    destruct (parse_step_array_bottom _ _ _ _ _ _ He Hstep)
      as [[He' (rest' & items' & ->)]|(vs & -> & ->)].
    + now apply IH.
    + destruct ts as [|t2 ts2]; [|now rewrite parse_after_done].
      cbn [parse_tokens]. intro H. injection H as <-. now exists vs.
Qed.

(** The text of an object starts with a left brace token. *)
Lemma parse_object_first (t : token) (ts : list token)
      (ms : list (string * json)) :
  parse_tokens Value [] (t :: ts) = Some (JObj ms) -> t = TLBrace.
Proof.
  assert (Hscalar : forall v,
             (forall ms', v <> JObj ms') ->
             parse_tokens (Done v) [] ts = Some (JObj ms) -> False).
  { intros v Hv. destruct ts as [|t2 ts2]; [|now rewrite parse_after_done].
    cbn [parse_tokens]. intro H. injection H as ->. now elim (Hv ms). }
  destruct t; cbn [parse_tokens parse_step scalar wants_value deliver];
    try reflexivity; try discriminate;
    try (intro H; exfalso; apply Hscalar in H; [exact H | discriminate]).
  intro H.
  destruct (parse_array_bottom ts ValueOrClose [] [] (JObj ms)) as [vs Hvs];
    [discriminate | exact H | discriminate Hvs].
Qed.

(** A text that lexes to the tokens of an object, and starts with a
    character that is not white space, starts with a left brace. *)
Lemma lex_object_first (c : ascii) (s : string) (ts : list token)
      (ms : list (string * json)) :
  is_json_ws c = false ->
  lex Idle [] (String c s) = Some ts ->
  parse_tokens Value [] ts = Some (JObj ms) ->
  c = "{"%char.
Proof.
  intros Hws. cbn [lex lex_step]. unfold lex_idle. rewrite Hws.
  destruct (structural_token c) as [t|] eqn:Hst.
  - intros Hlex Hparse.
    destruct (lex_keeps _ _ _ _ Hlex) as [ts' ->]. cbn [rev app] in Hparse.
    apply parse_object_first in Hparse. subst t.
    now apply structural_lbrace.
  - destruct (Ascii.eqb c "034").
    + intros Hlex Hparse.
      destruct (lex_string_first s (InStr []) ts I Hlex) as (x & ts' & ->).
      apply parse_object_first in Hparse. discriminate Hparse.
    + destruct (is_word c); [|discriminate].
      intros Hlex Hparse.
      destruct (lex_word_first s [c] ts Hlex)
        as (t & ts' & -> & [->|[->|[->|[x ->]]]]);
        apply parse_object_first in Hparse; discriminate Hparse.
Qed.

(** The step that leaves the lexer idle with a right brace on top. *)
Lemma lex_step_rbrace (m : lexmode) (out : list token) (c : ascii)
      (out' : list token) :
  lex_step m out c = Some (Idle, TRBrace :: out') ->
  (is_json_ws c = true /\ m = Idle /\ out = TRBrace :: out')
  \/ c = "}"%char.
Proof.
  assert (Hidle : forall o,
             lex_idle o c = Some (Idle, TRBrace :: out') ->
             (is_json_ws c = true /\ o = TRBrace :: out') \/ c = "}"%char).
  { intro o. unfold lex_idle.
    destruct (is_json_ws c); [intro H; injection H as ->; now left|].
    destruct (structural_token c) as [t|] eqn:Hst.
    - intro H. injection H as -> _. right. now apply structural_rbrace.
    - destruct (Ascii.eqb c "034"); [discriminate|].
      destruct (is_word c); discriminate. }
  destruct m as [|acc|acc|acc|acc ds]; cbn [lex_step].
  - intro H. destruct (Hidle _ H) as [[Hws ->]|Hc]; [left | right]; tauto.
  - destruct (is_word c); [discriminate|].
    destruct (word_token (rev acc)) as [t|] eqn:Ht; [|discriminate].
    intro H. destruct (Hidle _ H) as [[_ Heq]|Hc]; [|now right].
    injection Heq as -> _.
    apply word_token_scalar in Ht as [Ht|[Ht|[Ht|[x Ht]]]]; discriminate Ht.
  - repeat match goal with
           | |- context [if ?b then _ else _] => destruct b
           end; discriminate.
  - repeat match goal with
           | |- context [if ?b then _ else _] => destruct b
           end; discriminate.
  - destruct (hex_value c); [|discriminate].
    destruct ds as [|d3 [|d2 [|d1 [|d0 ds]]]]; discriminate.
Qed.

(** A text whose last token is a right brace ends with a right brace and
    white space, and the white space can be left out. *)
Lemma lex_ends_with_rbrace (s : string) :
  forall m out ts ts0,
    lex m out s = Some ts ->
    ts = (ts0 ++ [TRBrace])%list ->
    (exists s0 ws,
        s = s0 ++ String "}" ws /\ all_json_ws ws = true
        /\ lex m out (s0 ++ String "}" EmptyString) = Some ts)
    \/ (all_json_ws s = true /\ m = Idle /\ ts = rev out).
Proof.
  induction s as [|c s IH]; intros m out ts ts0 Hlex Hts.
  - cbn [lex] in Hlex. destruct m as [|acc|acc|acc|acc ds]; try discriminate.
    + injection Hlex as <-. right. now repeat split.
    + destruct (word_token (rev acc)) as [t|] eqn:Ht; [|discriminate].
      injection Hlex as <-. cbn [rev] in Hts.
      apply app_inj_tail in Hts as [_ ->].
      apply word_token_scalar in Ht as [Ht|[Ht|[Ht|[x Ht]]]]; discriminate Ht.
  - cbn [lex] in Hlex.
    destruct (lex_step m out c) as [[m' out']|] eqn:Hstep; [|discriminate].
    destruct (IH _ _ _ _ Hlex Hts)
      as [(s0 & ws & -> & Hws & Hl)|(Hws & -> & Hrev)].
    + left. exists (String c s0), ws. repeat split; [exact Hws|].
      cbn [append lex]. now rewrite Hstep.
    + assert (Hout : out' = TRBrace :: rev ts0).
      { rewrite <- (rev_involutive out'), <- Hrev, Hts, rev_app_distr.
        reflexivity. }
      rewrite Hout in Hstep.
      destruct (lex_step_rbrace _ _ _ _ Hstep) as [(Hc & -> & Ho)| ->].
      * right. cbn [all_json_ws]. rewrite Hc, Hws. repeat split.
        now rewrite Ho, <- Hout.
      * left. exists EmptyString, s. repeat split; [exact Hws|].
        cbn [append lex]. rewrite Hstep. cbn [lex]. now rewrite Hrev, Hout.
Qed.

(** White space at the start of a text is skipped. *)
Lemma lex_leading_ws (s : string) (out : list token) :
  exists ws t,
    s = ws ++ t /\ all_json_ws ws = true
    /\ lex Idle out s = lex Idle out t
    /\ match t with
       | EmptyString => True
       | String c _ => is_json_ws c = false
       end.
Proof.
  induction s as [|c s IH].
  - exists EmptyString, EmptyString. now repeat split.
  - destruct (is_json_ws c) eqn:Hc.
    + destruct IH as (ws & t & -> & Hws & Hlex & Ht).
      exists (String c ws), t.
      split; [reflexivity|]. split; [|split; [|exact Ht]].
      * cbn [all_json_ws]. now rewrite Hc, Hws.
      * cbn [append lex lex_step]. unfold lex_idle. now rewrite Hc.
    + exists EmptyString, (String c s). now repeat split.
Qed.

(** The text of an object is its braces and what they enclose, between
    white space; the white space can be left out. *)
Lemma object_text_shape (text : string) (ms : list (string * json)) :
  JSON_parse text = Some (JObj ms) ->
  exists ws1 body ws2,
    text = ws1 ++ String "{" (body ++ String "}" ws2)
    /\ all_json_ws ws1 = true /\ all_json_ws ws2 = true
    /\ JSON_parse (String "{" (body ++ String "}" EmptyString))
       = Some (JObj ms).
Proof.
  unfold JSON_parse.
  destruct (lex Idle [] text) as [ts|] eqn:Hlex; [|discriminate].
  intro Hparse.
  destruct (lex_leading_ws text []) as (ws1 & t & -> & Hws1 & Hskip & Ht).
  rewrite Hskip in Hlex.
  destruct (parse_object_last ts Value [] ms) as [ts0 Hts];
    [discriminate | exact Hparse |].
  destruct (lex_ends_with_rbrace _ _ _ _ _ Hlex Hts)
    as [(s0 & ws2 & -> & Hws2 & Hl)|(_ & _ & Hrev)].
  - destruct s0 as [|c body].
    + (* the text would start with a right brace *)
      cbn [append] in Hlex.
      assert (Hc : "}"%char = "{"%char)
        by (apply (lex_object_first _ _ _ _ Ht Hlex Hparse)).
      discriminate Hc.
    + cbn [append] in Ht, Hlex.
      assert (Hc : c = "{"%char)
        by (apply (lex_object_first _ _ _ _ Ht Hlex Hparse)).
      subst c. exists ws1, body, ws2. repeat split; try assumption.
      cbn [append] in Hl. now rewrite Hl.
  - rewrite Hts in Hrev. cbn [rev] in Hrev.
    now destruct ts0.
Qed.

End JsonFacts.

(* ================================================================== *)
(** ** Facts about the schema *)
(* ================================================================== *)

Module SchemaFacts.

Import JsStringFacts.

Lemma string_min1_some (v out : json) :
  Zod.string_min1 v = Some out ->
  exists s, v = JStr s /\ out = JStr s /\ s <> EmptyString.
Proof.
  destruct v; simpl; try discriminate.
  destruct (is_empty s) eqn:E; [discriminate|].
  intro H. injection H as <-. exists s. repeat split.
  now apply is_empty_false.
Qed.

Lemma string_min1_accepts (s : string) :
  s <> EmptyString -> Zod.string_min1 (JStr s) = Some (JStr s).
Proof.
  intro H. simpl. apply is_empty_false in H. now rewrite H.
Qed.

Lemma severity_some (v out : json) :
  Zod.enum ["Low"; "Medium"; "High"] v = Some out ->
  exists sev, v = JStr (severity_name sev) /\ out = JStr (severity_name sev).
Proof.
  destruct v; simpl; try discriminate.
  destruct (String.eqb_spec s "Low") as [->|_].
  { intro H. injection H as <-. now exists Low. }
  destruct (String.eqb_spec s "Medium") as [->|_].
  { intro H. injection H as <-. now exists Medium. }
  destruct (String.eqb_spec s "High") as [->|_].
  { intro H. injection H as <-. now exists High. }
  discriminate.
Qed.

Lemma severity_accepts (sev : Severity) :
  Zod.enum ["Low"; "Medium"; "High"] (JStr (severity_name sev))
  = Some (JStr (severity_name sev)).
Proof. destruct sev; reflexivity. Qed.

Lemma parse_items_strings (vs out : list json) :
  Zod.parse_items Zod.string_ vs = Some out ->
  exists steps, vs = map JStr steps /\ out = map JStr steps.
Proof.
  revert out. induction vs as [|v vs IH]; simpl; intros out H.
  - injection H as <-. now exists [].
  - destruct v; simpl in H; try discriminate.
    destruct (Zod.parse_items Zod.string_ vs) as [out'|]; [|discriminate].
    injection H as <-. destruct (IH out' eq_refl) as [steps [-> ->]].
    now exists (s :: steps).
Qed.

Lemma parse_items_accepts (steps : list string) :
  Zod.parse_items Zod.string_ (map JStr steps) = Some (map JStr steps).
Proof.
  induction steps as [|s steps IH]; simpl; [reflexivity | now rewrite IH].
Qed.

Lemma steps_some (v out : json) :
  Zod.array_min 1 Zod.string_ v = Some out ->
  exists steps, v = JArr (map JStr steps) /\ out = JArr (map JStr steps)
                /\ steps <> [].
Proof.
  destruct v; simpl; try discriminate.
  destruct (Zod.parse_items Zod.string_ items) as [out'|] eqn:E; [|discriminate].
  destruct (parse_items_strings _ _ E) as [steps [-> ->]].
  destruct steps as [|s steps]; simpl; [discriminate|].
  intro H. injection H as <-. exists (s :: steps). repeat split. discriminate.
Qed.

Lemma steps_accepts (steps : list string) :
  steps <> [] ->
  Zod.array_min 1 Zod.string_ (JArr (map JStr steps))
  = Some (JArr (map JStr steps)).
Proof.
  intro H. simpl. rewrite parse_items_accepts.
  destruct steps; [now elim H | reflexivity].
Qed.

(** Soundness: what the schema lets through. *)
Lemma schema_some (v out : json) :
  AnalysisResultSchema v = Some out ->
  exists ms r,
    v = JObj ms /\ out = to_json r /\ holds ms r /\ schema_constraints r.
Proof.
  unfold AnalysisResultSchema, Zod.object.
  destruct v as [| | | | |ms]; try discriminate.
  cbn [Zod.parse_shape].
  destruct (get "woundType" ms) as [v1|] eqn:G1; [|discriminate].
  destruct (Zod.string_min1 v1) as [o1|] eqn:S1; [|discriminate].
  destruct (get "severity" ms) as [v2|] eqn:G2; [|discriminate].
  destruct (Zod.enum _ v2) as [o2|] eqn:S2; [|discriminate].
  destruct (get "description" ms) as [v3|] eqn:G3; [|discriminate].
  destruct (Zod.string_min1 v3) as [o3|] eqn:S3; [|discriminate].
  destruct (get "firstAidSteps" ms) as [v4|] eqn:G4; [|discriminate].
  destruct (Zod.array_min 1 Zod.string_ v4) as [o4|] eqn:S4; [|discriminate].
  destruct (get "recommendation" ms) as [v5|] eqn:G5; [|discriminate].
  destruct (Zod.string_min1 v5) as [o5|] eqn:S5; [|discriminate].
  intro H. injection H as <-.
  destruct (string_min1_some _ _ S1) as [w [-> [-> Hw]]].
  destruct (severity_some _ _ S2) as [sev [-> ->]].
  destruct (string_min1_some _ _ S3) as [d [-> [-> Hd]]].
  destruct (steps_some _ _ S4) as [steps [-> [-> Hsteps]]].
  destruct (string_min1_some _ _ S5) as [rec [-> [-> Hrec]]].
  exists ms,
    {| woundType := w; severity := sev; description := d;
       firstAidSteps := steps; recommendation := rec |}.
  repeat split; assumption.
Qed.

(** Completeness: an object that holds the five fields in valid form is
    let through, whatever other members it has. *)
Lemma schema_accepts (ms : list (string * json)) (r : AnalysisResult) :
  holds ms r -> schema_constraints r ->
  AnalysisResultSchema (JObj ms) = Some (to_json r).
Proof.
  intros (G1 & G2 & G3 & G4 & G5) (Hw & Hd & Hrec & Hsteps).
  unfold AnalysisResultSchema, Zod.object. cbn [Zod.parse_shape].
  rewrite G1, (string_min1_accepts _ Hw).
  rewrite G2, severity_accepts.
  rewrite G3, (string_min1_accepts _ Hd).
  rewrite G4, (steps_accepts _ Hsteps).
  rewrite G5, (string_min1_accepts _ Hrec).
  reflexivity.
Qed.

Lemma keys_to_json (r : AnalysisResult) :
  match to_json r with
  | JObj ms => keys ms = schema_keys
  | _ => False
  end.
Proof. reflexivity. Qed.

End SchemaFacts.

(* ================================================================== *)
(** ** Facts about the loop *)
(* ================================================================== *)

Module LoopFacts.

Import JsStringFacts.

Lemma cleanJson_span (s : string) :
  cleanJson s = match match_brace_span s with
                | Some m => m
                | None => trim s
                end.
Proof. unfold cleanJson. now rewrite match_brace_span_trim. Qed.

Lemma cleanJson_wrapped (pre body post : string) :
  occurs "{" pre = false -> occurs "}" post = false ->
  cleanJson (pre ++ String "{" (body ++ String "}" post))%string
  = String "{" (body ++ String "}" EmptyString)%string.
Proof.
  intros Hpre Hpost.
  now rewrite cleanJson_span, match_brace_span_wrapped.
Qed.

(** The text of an object goes through the cleaning untouched, up to the
    white space around it. *)
Lemma JSON_parse_object_clean (resultText : string)
      (ms : list (string * json)) :
  JSON_parse resultText = Some (JObj ms) ->
  JSON_parse (cleanJson resultText) = Some (JObj ms).
Proof.
  intro H.
  destruct (JsonFacts.object_text_shape _ _ H)
    as (ws1 & body & ws2 & -> & Hws1 & Hws2 & Hcore).
  apply JsonFacts.all_json_ws_brace_free in Hws1 as [Hws1 _].
  apply JsonFacts.all_json_ws_brace_free in Hws2 as [_ Hws2].
  now rewrite (cleanJson_wrapped ws1 body ws2 Hws1 Hws2).
Qed.

Section Loop.

Variable env : Environment.
Variable rv : revision.
Variable g : Globals.
Variables base64Image context : string.

Local Abbreviation req := (request rv g base64Image context).
Local Abbreviation loop := (tryModels env rv g base64Image context).

(** The [catch] block has one way out: the next candidate. *)
Lemma failure_step (m : string) (rest : list string)
      (lastError : option JsError) (w w' : World env)
      (reply : Reply) (error : JsError) :
  generateContent env (req m) w = (reply, w') ->
  attempt env rv reply = inl error ->
  loop (m :: rest) lastError w = after_trial (req m) (loop rest (Some error) w').
Proof.
  intros Hcall Hfail. cbn [tryModels]. rewrite Hcall, Hfail.
  destruct (is_number 429 _ || is_number 404 _ || is_number 503 _);
    reflexivity.
Qed.

Lemma success_step (m : string) (rest : list string)
      (lastError : option JsError) (w w' : World env)
      (reply : Reply) (v : json) :
  generateContent env (req m) w = (reply, w') ->
  attempt env rv reply = inr v ->
  loop (m :: rest) lastError w
  = {| exit := Returned v; loop_world := w'; loop_globals := g;
       trials := [req m] |}.
Proof.
  intros Hcall Hok. cbn [tryModels]. now rewrite Hcall, Hok.
Qed.

(** One trial: it throws, or it returns. *)
Lemma step_cases (m : string) (rest : list string)
      (lastError : option JsError) (w : World env) :
  (exists w' error,
      loop (m :: rest) lastError w
      = after_trial (req m) (loop rest (Some error) w'))
  \/ (exists w' v,
         loop (m :: rest) lastError w
         = {| exit := Returned v; loop_world := w'; loop_globals := g;
       trials := [req m] |}).
Proof.
  destruct (generateContent env (req m) w) as [reply w'] eqn:Hcall.
  destruct (attempt env rv reply) as [error|v] eqn:Hatt.
  - left. exists w', error. now apply failure_step with reply.
  - right. exists w', v. now apply success_step with reply.
Qed.

(** Candidates that all fail are gone through, and the loop goes on
    with the rest. *)
Lemma loop_through (init rest : list string) :
  forall (lastError lastError' : option JsError) (w : World env),
    exit (loop init lastError w) = Exhausted lastError' ->
    loop (init ++ rest) lastError w
    = {| exit := exit (loop rest lastError' (loop_world (loop init lastError w)));
         loop_world :=
           loop_world (loop rest lastError' (loop_world (loop init lastError w)));
         loop_globals :=
           loop_globals (loop rest lastError' (loop_world (loop init lastError w)));
         trials :=
           trials (loop init lastError w)
           ++ trials (loop rest lastError' (loop_world (loop init lastError w))) |}.
Proof.
  induction init as [|m init IH]; intros lastError lastError' w Hex.
  - simpl in Hex. injection Hex as <-. simpl.
    now destruct (loop rest lastError w).
  - destruct (generateContent env (req m) w) as [reply w1] eqn:Hcall.
    destruct (attempt env rv reply) as [error|v] eqn:Hatt.
    + rewrite (failure_step m init lastError w w1 reply error Hcall Hatt) in *.
      simpl in Hex. rewrite <- app_comm_cons.
      rewrite (failure_step m (init ++ rest) lastError w w1 reply error Hcall Hatt).
      rewrite (IH _ _ _ Hex). reflexivity.
    + rewrite (success_step m init lastError w w1 reply v Hcall Hatt) in Hex.
      discriminate Hex.
Qed.

(** *** What a trial returns or throws *)

Lemma decode_accepts (t : string) (v out : json) :
  JSON_parse (cleanJson t) = Some v ->
  AnalysisResultSchema v = Some out ->
  decode env rv (Some t) = inr out.
Proof.
  intros Hp Hs. unfold decode.
  destruct t as [|c t]; [vm_compute in Hp; discriminate Hp|].
  cbn [is_empty]. now rewrite Hp, Hs.
Qed.

Lemma decode_returns (resultText : option string) (out : json) :
  decode env rv resultText = inr out ->
  exists t v,
    resultText = Some t /\ JSON_parse (cleanJson t) = Some v
    /\ AnalysisResultSchema v = Some out.
Proof.
  unfold decode. destruct resultText as [t|]; [|discriminate].
  destruct (is_empty t); [discriminate|].
  destruct (JSON_parse (cleanJson t)) as [v|] eqn:Hp; [|discriminate].
  destruct (AnalysisResultSchema v) as [o|] eqn:Hs; [|discriminate].
  intro H. injection H as <-. now exists t, v.
Qed.

Lemma failure_attempt (reply : Reply) (error : JsError) :
  CandidateFailure env rv reply error -> attempt env rv reply = inl error.
Proof.
  intros [e| | |t Ht Hp|t v Hp Hs]; simpl; try reflexivity.
  - apply is_empty_false in Ht. now rewrite Ht, Hp.
  - destruct t as [|c t]; [vm_compute in Hp; discriminate Hp|].
    cbn [is_empty]. now rewrite Hp, Hs.
Qed.

Lemma attempt_failure (reply : Reply) (error : JsError) :
  attempt env rv reply = inl error -> CandidateFailure env rv reply error.
Proof.
  destruct reply as [[t|]|e]; simpl.
  - destruct (is_empty t) eqn:Ht.
    + apply is_empty_true in Ht. subst t. intro H. injection H as <-.
      constructor.
    + apply is_empty_false in Ht.
      destruct (JSON_parse (cleanJson t)) as [v|] eqn:Hp.
      * destruct (AnalysisResultSchema v) as [o|] eqn:Hs; [discriminate|].
        intro H. injection H as <-. now constructor.
      * intro H. injection H as <-. now constructor.
  - intro H. injection H as <-. constructor.
  - intro H. injection H as <-. constructor.
Qed.

(** *** The trials of a run *)

Lemma trials_prefix (models : list string) :
  forall (lastError : option JsError) (w : World env),
  exists k,
    (k <= List.length models)%nat
    /\ trials (loop models lastError w) = map req (firstn k models)
    /\ match exit (loop models lastError w) with
       | Returned _ => (1 <= k)%nat
       | Exhausted _ => k = List.length models
       end.
Proof.
  induction models as [|m models IH]; intros lastError w.
  - exists 0%nat. simpl. repeat split. lia.
  - destruct (step_cases m models lastError w)
      as [(w' & error & ->)|(w' & v & ->)].
    + destruct (IH (Some error) w') as (k & Hk & Ht & He).
      exists (S k). simpl. rewrite Ht. repeat split; [lia|].
      destruct (exit (loop models (Some error) w')); lia.
    + exists 1%nat. simpl. repeat split; lia.
Qed.

Lemma loop_returned (models : list string) :
  forall (lastError : option JsError) (w : World env) (out : json),
    exit (loop models lastError w) = Returned out ->
    exists t v,
      JSON_parse (cleanJson t) = Some v /\ AnalysisResultSchema v = Some out.
Proof.
  induction models as [|m models IH]; intros lastError w out; [discriminate|].
  destruct (generateContent env (req m) w) as [reply w'] eqn:Hcall.
  destruct (attempt env rv reply) as [error|v] eqn:Hatt.
  - rewrite (failure_step m models lastError w w' reply error Hcall Hatt).
    simpl. apply IH.
  - rewrite (success_step m models lastError w w' reply v Hcall Hatt).
    simpl. intro H. injection H as <-.
    destruct reply as [resultText|e]; [|discriminate].
    destruct (decode_returns _ _ Hatt) as (t & p & _ & Hp & Hs).
    now exists t, p.
Qed.

(** The value [lastError] has when the loop starts is never read. *)
Lemma loop_independent (models : list string)
      (lastError1 lastError2 : option JsError) (w : World env) :
  models <> [] -> loop models lastError1 w = loop models lastError2 w.
Proof.
  destruct models as [|m models]; [now intros []|]. intros _.
  destruct (generateContent env (req m) w) as [reply w'] eqn:Hcall.
  destruct (attempt env rv reply) as [error|v] eqn:Hatt.
  - now rewrite !(failure_step m models _ w w' reply error Hcall Hatt).
  - now rewrite !(success_step m models _ w w' reply v Hcall Hatt).
Qed.

(** The last candidate fails after all the others did. *)
Lemma loop_last_fails (init : list string) (lastModel : string)
      (lastError : option JsError) (w w' : World env)
      (reply : Reply) (error : JsError) :
  exit (loop init None w) = Exhausted lastError ->
  generateContent env (req lastModel) (loop_world (loop init None w))
  = (reply, w') ->
  attempt env rv reply = inl error ->
  exit (loop (init ++ [lastModel]) None w) = Exhausted (Some error).
Proof.
  intros Hinit Hcall Hfail.
  rewrite (loop_through init [lastModel] None lastError w Hinit). cbn [exit].
  now rewrite (failure_step lastModel [] lastError _ w' reply error Hcall Hfail).
Qed.

(** A candidate succeeds after all the earlier ones failed. *)
Lemma loop_later_success (init : list string) (m : string)
      (rest : list string) (lastError : option JsError) (w w' : World env)
      (reply : Reply) (v : json) :
  exit (loop init None w) = Exhausted lastError ->
  generateContent env (req m) (loop_world (loop init None w)) = (reply, w') ->
  attempt env rv reply = inr v ->
  exit (loop (init ++ m :: rest) None w) = Returned v
  /\ trials (loop (init ++ m :: rest) None w) = map req (init ++ [m]).
Proof.
  intros Hinit Hcall Hok.
  rewrite (loop_through init (m :: rest) None lastError w Hinit).
  cbn [exit trials].
  rewrite (success_step m rest lastError _ w' reply v Hcall Hok).
  cbn [exit trials]. split; [reflexivity|].
  destruct (trials_prefix init None w) as (k & _ & Ht & He).
  rewrite Hinit in He. subst k. rewrite firstn_all in Ht.
  now rewrite Ht, map_app.
Qed.

(** *** The requests of a run, by their fields *)

Lemma models_of_requests (models : list string) :
  map model (map req models) = models.
Proof.
  induction models as [|m models IH]; [reflexivity|].
  cbn [map request model]. now rewrite IH.
Qed.

Lemma requests_carry (models : list string) :
  Forall (fun r => image r = imagePart base64Image
                   /\ text r = promptPart rv g context)
         (map req models).
Proof.
  induction models as [|m models IH]; constructor; [now split | exact IH].
Qed.

(** The iterations pass the constants on as they got them. *)
Lemma loop_globals_same (models : list string) :
  forall (lastError : option JsError) (w : World env),
    loop_globals (loop models lastError w) = g.
Proof.
  induction models as [|m models IH]; intros lastError w; [reflexivity|].
  destruct (step_cases m models lastError w)
    as [(w' & error & ->)|(w' & v & ->)]; [|reflexivity].
  cbn [after_trial loop_globals]. apply IH.
Qed.

(** Candidates that fail one after the other exhaust their list. *)
Lemma failures_exhaust (init : list string) (w w1 : World env) :
  Failures env rv g base64Image context init w w1 ->
  forall lastError,
  exists lastError',
    exit (loop init lastError w) = Exhausted lastError'
    /\ loop_world (loop init lastError w) = w1.
Proof.
  induction 1 as [w|m rest w w1 w' reply error Hcall Hfail _ IH];
    intro lastError.
  - exists lastError. now split.
  - rewrite (failure_step m rest lastError w w1 reply error Hcall
               (failure_attempt reply error Hfail)).
    cbn [after_trial exit loop_world]. apply IH.
Qed.

Lemma exhaust_failures (init : list string) :
  forall (lastError lastError' : option JsError) (w : World env),
    exit (loop init lastError w) = Exhausted lastError' ->
    Failures env rv g base64Image context init w
             (loop_world (loop init lastError w)).
Proof.
  induction init as [|m init IH]; intros lastError lastError' w Hex;
    [constructor|].
  destruct (generateContent env (req m) w) as [reply w1] eqn:Hcall.
  destruct (attempt env rv reply) as [error|v] eqn:Hatt.
  - rewrite (failure_step m init lastError w w1 reply error Hcall Hatt) in *.
    cbn [after_trial exit loop_world] in *.
    apply failed_candidate with w1 reply error;
      [exact Hcall | now apply attempt_failure | now apply IH with lastError'].
  - rewrite (success_step m init lastError w w1 reply v Hcall Hatt) in Hex.
    discriminate Hex.
Qed.

End Loop.

(** *** The two ways into [analyzeWound] *)

Lemma analyzeWound_built (env : Environment) (rv : revision) (g : Globals)
      (w : World env) (base64Image context : string) :
  GoogleGenAI env w = None ->
  analyzeWound env rv g w base64Image context
  = {| outcome :=
         settle rv (exit (tryModels env rv g base64Image context
                            (MODELS_TO_TRY g) None w));
       globals_after := g;
       world_after :=
         loop_world (tryModels env rv g base64Image context
                       (MODELS_TO_TRY g) None w);
       calls :=
         trials (tryModels env rv g base64Image context
                   (MODELS_TO_TRY g) None w) |}.
Proof.
  intro H. unfold analyzeWound. rewrite H.
  now rewrite loop_globals_same.
Qed.

Lemma analyzeWound_unbuilt (env : Environment) (rv : revision) (g : Globals)
      (w : World env) (base64Image context : string) (error : JsError) :
  GoogleGenAI env w = Some error ->
  analyzeWound env rv g w base64Image context
  = {| outcome := Rejected error; globals_after := g; world_after := w;
       calls := [] |}.
Proof. intro H. unfold analyzeWound. now rewrite H. Qed.





(** A run that resolves has built its client. *)
Lemma resolved_built (env : Environment) (rv : revision) (g : Globals)
      (w : World env) (base64Image context : string) (result : json) :
  outcome (analyzeWound env rv g w base64Image context) = Resolved result ->
  GoogleGenAI env w = None.
Proof.
  unfold analyzeWound. destruct (GoogleGenAI env w); [discriminate|].
  reflexivity.
Qed.

End LoopFacts.

(* ================================================================== *)
(** ** The properties of [analyzeWound] *)
(* ================================================================== *)

Import JsStringFacts SchemaFacts LoopFacts.

(** The first candidate answers with a text that, once cleaned, parses to
    a value the schema accepts. *)
Lemma first_success_after_cleaning
      (env : Environment) (rv : revision) (g : Globals)
      (w w' : World env) (base64Image context first : string)
      (rest : list string) (resultText : string)
      (parsedData validatedResult : json) :
  GoogleGenAI env w = None ->
  MODELS_TO_TRY g = first :: rest ->
  generateContent env (request rv g base64Image context first) w
  = (Responds (Some resultText), w') ->
  JSON_parse (cleanJson resultText) = Some parsedData ->
  AnalysisResultSchema parsedData = Some validatedResult ->
  analyzeWound env rv g w base64Image context
  = {| outcome := Resolved validatedResult;
       globals_after := g;
       world_after := w';
       calls := [request rv g base64Image context first] |}.
Proof.
  intros Hbuilt Hmodels Hcall Hparse Hschema.
  rewrite (analyzeWound_built env rv g w base64Image context Hbuilt).
  rewrite Hmodels.
  now rewrite (success_step env rv g base64Image context first rest None w w'
                 (Responds (Some resultText)) validatedResult Hcall
                 (decode_accepts env rv _ _ _ Hparse Hschema)).
Qed.

(** C1. First success wins: for every image and context, when the
    client is built, the first candidate's call succeeds and its response
    text parses to a value the schema accepts, [analyzeWound] resolves
    with the five fields of that value, unchanged, and calls no later
    candidate. *)
Theorem first_success_wins
        (env : Environment) (rv : revision) (g : Globals)
        (w w' : World env) (base64Image context first : string)
        (rest : list string) (resultText : string)
        (parsedData validatedResult : json) :
  GoogleGenAI env w = None ->
  MODELS_TO_TRY g = first :: rest ->
  generateContent env (request rv g base64Image context first) w
  = (Responds (Some resultText), w') ->
  JSON_parse resultText = Some parsedData ->
  AnalysisResultSchema parsedData = Some validatedResult ->
  outcome (analyzeWound env rv g w base64Image context)
  = Resolved validatedResult
  /\ calls (analyzeWound env rv g w base64Image context)
     = [request rv g base64Image context first]
  /\ world_after (analyzeWound env rv g w base64Image context) = w'
  /\ exists ms r,
      parsedData = JObj ms /\ holds ms r /\ validatedResult = to_json r.
Proof.
  intros Hbuilt Hmodels Hcall Hparse Hschema.
  destruct (schema_some _ _ Hschema) as (ms & r & -> & -> & Hholds & _).
  rewrite (first_success_after_cleaning env rv g w w' base64Image context
             first rest resultText (JObj ms) (to_json r) Hbuilt Hmodels Hcall
             (JSON_parse_object_clean _ _ Hparse) Hschema).
  cbn. repeat split. now exists ms, r.
Qed.

(** The end-to-end scenario of the specification. *)
Lemma first_success_wins_witness :
  outcome (analyzeWound Fixtures.scripted Expanded (globals Expanded)
             [Responds (Some Fixtures.scrape_text)]
             Fixtures.jpeg_uri "scraped my knee")
  = Resolved (to_json Fixtures.scrape_result)
  /\ calls (analyzeWound Fixtures.scripted Expanded (globals Expanded)
              [Responds (Some Fixtures.scrape_text)]
              Fixtures.jpeg_uri "scraped my knee")
     = [request Expanded (globals Expanded) Fixtures.jpeg_uri "scraped my knee"
                "gemini-3-flash-preview"].
Proof.
  destruct (first_success_wins Fixtures.scripted Expanded (globals Expanded)
              [Responds (Some Fixtures.scrape_text)] []
              Fixtures.jpeg_uri "scraped my knee" "gemini-3-flash-preview"
              (tl (models_of Expanded)) Fixtures.scrape_text
              (to_json Fixtures.scrape_result)
              (to_json Fixtures.scrape_result))
    as (H1 & H2 & _); try (vm_compute; reflexivity).
  split; assumption.
Defined.

(** C2. No failure is fatal before exhaustion.  When the client is
    built and the candidates of [init] have failed one after the other,
    each in any of the ways of [CandidateFailure] (the call throws, with
    status 429, 404, 503, another status or none; the response text is
    missing or empty; the text does not parse; the parsed value is
    rejected by the schema), [analyzeWound] goes on and calls the next
    candidate [m]: the models it calls are those of [init], in order,
    then [m].  At [m], the reply is one of these failures or the run
    resolves there, so that these are all the ways a trial fails.  And a
    run that rejects has called every candidate of the list, in order. *)
Theorem every_failure_advances
        (env : Environment) (rv : revision) (g : Globals)
        (w w1 : World env) (base64Image context : string)
        (init : list string) (m : string) (rest : list string) :
  GoogleGenAI env w = None ->
  MODELS_TO_TRY g = init ++ m :: rest ->
  Failures env rv g base64Image context init w w1 ->
  (exists later,
      map model (calls (analyzeWound env rv g w base64Image context))
      = init ++ m :: later)
  /\ (forall (reply : Reply) (w2 : World env),
         generateContent env (request rv g base64Image context m) w1
         = (reply, w2) ->
         (exists error, CandidateFailure env rv reply error)
         \/ (exists result,
                outcome (analyzeWound env rv g w base64Image context)
                = Resolved result
                /\ map model (calls (analyzeWound env rv g w base64Image context))
                   = init ++ [m]))
  /\ (forall rejection : JsError,
         outcome (analyzeWound env rv g w base64Image context)
         = Rejected rejection ->
         map model (calls (analyzeWound env rv g w base64Image context))
         = MODELS_TO_TRY g).
Proof.
  intros Hbuilt Hmodels Hinit.
  rewrite (analyzeWound_built env rv g w base64Image context Hbuilt).
  cbn [calls outcome].
  destruct (failures_exhaust env rv g base64Image context init w w1 Hinit None)
    as (lastError & Hex & Hw).
  assert (Htrials :
            trials (tryModels env rv g base64Image context init None w)
            = map (request rv g base64Image context) init).
  { destruct (trials_prefix env rv g base64Image context init None w)
      as (k & _ & Ht & He).
    rewrite Hex in He. subst k. now rewrite firstn_all in Ht. }
  split; [|split].
  - rewrite Hmodels.
    rewrite (loop_through env rv g base64Image context init (m :: rest)
               None lastError w Hex).
    cbn [trials]. rewrite Htrials, Hw, map_app, models_of_requests.
    destruct (step_cases env rv g base64Image context m rest lastError w1)
      as [(w' & error & ->)|(w' & v & ->)]; cbn [after_trial trials map];
      eexists; reflexivity.
  - intros reply w2 Hcall.
    destruct (attempt env rv reply) as [error|v] eqn:Hatt.
    + left. exists error. now apply attempt_failure.
    + right. exists v. rewrite Hmodels.
      rewrite (loop_through env rv g base64Image context init (m :: rest)
                 None lastError w Hex).
      cbn [exit trials]. rewrite Htrials, Hw.
      rewrite (success_step env rv g base64Image context m rest lastError
                 w1 w2 reply v Hcall Hatt).
      cbn [exit trials settle]. split; [reflexivity|].
      now rewrite map_app, models_of_requests.
  - intros rejection.
    destruct (trials_prefix env rv g base64Image context (MODELS_TO_TRY g)
                None w) as (k & _ & Ht & He).
    destruct (exit (tryModels env rv g base64Image context (MODELS_TO_TRY g)
                      None w)); [discriminate|].
    intros _. subst k. rewrite Ht, firstn_all.
    apply models_of_requests.
Qed.

(** The response without [firstAidSteps] is a failure of the trial. *)
Lemma missing_steps_rejected (env : Environment) (rv : revision) :
  exists parsedData,
    JSON_parse (cleanJson Fixtures.missing_steps_text) = Some parsedData
    /\ AnalysisResultSchema parsedData = None
    /\ CandidateFailure env rv (Responds (Some Fixtures.missing_steps_text))
                        (new_Error (zodErrorMessage env parsedData)).
Proof.
  eexists. split; [vm_compute; reflexivity|].
  split; [vm_compute; reflexivity|].
  apply schema_rejection; vm_compute; reflexivity.
Qed.

(** Five candidates fail, each in another way: rate limited, thrown
    without a status, no text, a text that does not parse, a response
    without [firstAidSteps].  The sixth is called. *)
Lemma every_failure_advances_witness :
  exists later,
    map model
      (calls (analyzeWound Fixtures.scripted Expanded (globals Expanded)
                [Throws (Fixtures.http_error 429 "quota");
                 Throws Fixtures.offline;
                 Responds None;
                 Responds (Some "I cannot help with that.");
                 Responds (Some Fixtures.missing_steps_text);
                 Responds (Some Fixtures.valid_text)]
                Fixtures.jpeg_uri EmptyString))
    = ["gemini-3-flash-preview";
       "gemini-2.5-flash-native-audio-preview-12-2025";
       "gemini-flash-lite-latest";
       "gemini-3-pro-preview";
       "gemini-2.5-pro"] ++ "gemini-2.5-flash" :: later.
Proof.
  apply (every_failure_advances Fixtures.scripted Expanded (globals Expanded)
           [Throws (Fixtures.http_error 429 "quota");
            Throws Fixtures.offline;
            Responds None;
            Responds (Some "I cannot help with that.");
            Responds (Some Fixtures.missing_steps_text);
            Responds (Some Fixtures.valid_text)]
           [Responds (Some Fixtures.valid_text)]
           Fixtures.jpeg_uri EmptyString
           ["gemini-3-flash-preview";
            "gemini-2.5-flash-native-audio-preview-12-2025";
            "gemini-flash-lite-latest";
            "gemini-3-pro-preview";
            "gemini-2.5-pro"]
           "gemini-2.5-flash" ["gemini-2.5-flash-lite"]).
  - reflexivity.
  - reflexivity.
  - eapply failed_candidate; [reflexivity | apply transport_error |].
    eapply failed_candidate; [reflexivity | apply transport_error |].
    eapply failed_candidate; [reflexivity | apply undefined_text |].
    eapply failed_candidate;
      [reflexivity
      | apply (unparseable_text Fixtures.scripted Expanded
                 "I cannot help with that.");
        [discriminate | vm_compute; reflexivity]
      |].
    eapply failed_candidate;
      [reflexivity
      | apply (schema_rejection Fixtures.scripted Expanded
                 Fixtures.missing_steps_text
                 (JObj [("woundType", JStr "Cut"); ("severity", JStr "Low");
                        ("description", JStr "x");
                        ("recommendation", JStr "y")]));
        vm_compute; reflexivity
      |].
    apply no_candidate.
Defined.

(** C8. Every invocation settles, resolved or rejected, after at most one
    trial per entry of the candidate list, the trials being issued in the
    order of the list: the models called, in the order of the calls, are
    the first [k] entries of the list, one call each.  A run that
    resolves has called at least one; a run that rejects has called all
    of them, or none when it is the constructor of the client that
    threw. *)
Theorem trials_bounded
        (env : Environment) (rv : revision) (g : Globals) (w : World env)
        (base64Image context : string) :
  exists k,
    (k <= List.length (MODELS_TO_TRY g))%nat
    /\ map model (calls (analyzeWound env rv g w base64Image context))
       = firstn k (MODELS_TO_TRY g)
    /\ List.length (calls (analyzeWound env rv g w base64Image context)) = k
    /\ ((exists result,
            outcome (analyzeWound env rv g w base64Image context)
            = Resolved result
            /\ GoogleGenAI env w = None /\ (1 <= k)%nat)
        \/ (exists error,
               outcome (analyzeWound env rv g w base64Image context)
               = Rejected error
               /\ ((GoogleGenAI env w = None
                    /\ k = List.length (MODELS_TO_TRY g))
                   \/ (GoogleGenAI env w = Some error /\ k = 0%nat)))).
Proof.
  destruct (GoogleGenAI env w) as [thrown|] eqn:Hclient.
  - rewrite (analyzeWound_unbuilt env rv g w base64Image context thrown
               Hclient).
    exists 0%nat. cbn. repeat split; [lia|].
    right. exists thrown. split; [reflexivity|]. right. now split.
  - rewrite (analyzeWound_built env rv g w base64Image context Hclient).
    cbn [calls outcome].
    destruct (trials_prefix env rv g base64Image context (MODELS_TO_TRY g)
                None w) as (k & Hk & Ht & He).
    exists k. split; [exact Hk|]. rewrite Ht. split; [|split].
    + apply models_of_requests.
    + rewrite length_map, length_firstn. lia.
    + destruct (exit _) as [v|lastError]; [left | right]; eexists.
      * cbn [settle]. repeat split. exact He.
      * cbn [settle]. split; [reflexivity|]. left. now split.
Qed.


(** C10. Unknown keys are dropped: when the client is built, the
    candidates before [m] have failed and the response of [m] parses to
    an object that holds the five fields in valid form, whatever other
    members it has, [analyzeWound] resolves, and the result has the five
    keys of the schema and no other, each with the value the response
    gave it. *)
Theorem unknown_keys_dropped
        (env : Environment) (rv : revision) (g : Globals)
        (w w' : World env) (base64Image context : string)
        (init : list string) (m : string) (rest : list string)
        (resultText : string) (ms : list (string * json))
        (r : AnalysisResult) :
  GoogleGenAI env w = None ->
  MODELS_TO_TRY g = init ++ m :: rest ->
  (exists lastError,
      exit (tryModels env rv g base64Image context init None w)
      = Exhausted lastError) ->
  generateContent env (request rv g base64Image context m)
    (loop_world (tryModels env rv g base64Image context init None w))
  = (Responds (Some resultText), w') ->
  JSON_parse (cleanJson resultText) = Some (JObj ms) ->
  holds ms r ->
  schema_constraints r ->
  outcome (analyzeWound env rv g w base64Image context) = Resolved (to_json r)
  /\ exists out,
      to_json r = JObj out
      /\ keys out = schema_keys
      /\ (forall k v, get k out = Some v -> get k ms = Some v)
      /\ (forall k, ~ In k schema_keys -> get k out = None).
Proof.
  intros Hbuilt Hmodels [lastError Hinit] Hcall Hparse Hholds Hvalid.
  split.
  - rewrite (analyzeWound_built env rv g w base64Image context Hbuilt).
    cbn [outcome]. rewrite Hmodels.
    destruct (loop_later_success env rv g base64Image context init m rest
                lastError w w' (Responds (Some resultText)) (to_json r)
                Hinit Hcall) as [He _].
    + apply (decode_accepts env rv _ (JObj ms)); [exact Hparse|].
      now apply schema_accepts.
    + now rewrite He.
  - eexists. split; [reflexivity|]. split; [reflexivity|].
    destruct Hholds as (G1 & G2 & G3 & G4 & G5). split.
    + intros k v. cbn [get].
      repeat match goal with
             | |- context [String.eqb ?a k] =>
                 destruct (String.eqb_spec a k) as [<-|_];
                 [intro Hk; injection Hk as <-; assumption|]
             end.
      discriminate.
    + intros k Hk. cbn [get].
      repeat match goal with
             | |- context [String.eqb ?a k] =>
                 destruct (String.eqb_spec a k) as [<-|_];
                 [exfalso; apply Hk; unfold schema_keys; simpl; tauto|]
             end.
      reflexivity.
Qed.

(** The second candidate answers with two members the schema does not
    know, after the first one was rate limited. *)
Lemma unknown_keys_dropped_witness :
  outcome (analyzeWound Fixtures.scripted Expanded (globals Expanded)
             [Throws (Fixtures.http_error 429 "quota");
              Responds (Some Fixtures.extra_keys_text)]
             Fixtures.jpeg_uri EmptyString)
  = Resolved (to_json Fixtures.valid_result).
Proof.
  apply (unknown_keys_dropped Fixtures.scripted Expanded (globals Expanded)
           [Throws (Fixtures.http_error 429 "quota");
            Responds (Some Fixtures.extra_keys_text)] []
           Fixtures.jpeg_uri EmptyString
           ["gemini-3-flash-preview"]
           "gemini-2.5-flash-native-audio-preview-12-2025"
           (tl (tl (models_of Expanded)))
           Fixtures.extra_keys_text
           [("confidence", JNum "0.9"); ("woundType", JStr "Cut");
            ("severity", JStr "Low"); ("description", JStr "x");
            ("firstAidSteps", JArr [JStr "Rinse with water"]);
            ("recommendation", JStr "y"); ("model", JStr "flash")]
           Fixtures.valid_result).
  - reflexivity.
  - reflexivity.
  - eexists. vm_compute. reflexivity.
  - vm_compute. reflexivity.
  - vm_compute. reflexivity.
  - repeat split.
  - repeat split; discriminate.
Defined.
(** The selection of the expanded revision, on the status it reads. *)
Lemma exhausted_expanded (error : JsError) :
  exhausted Expanded (Some error)
  = new_Error (Worded.exhaustion_message (Worded.status_or_code error)).
Proof.
  assert (Hsel : forall s : jsval,
             (if is_number 429 s then new_Error rate_limit_message
              else if is_number 404 s then new_Error maintenance_message
              else new_Error unavailable_message)
             = new_Error (Worded.exhaustion_message s)).
  { intros [|n|s]; cbn [is_number]; try reflexivity.
    destruct (Z.eqb_spec n 429) as [->|H429]; [reflexivity|].
    destruct (Z.eqb_spec n 404) as [->|H404]; [reflexivity|].
    unfold Worded.exhaustion_message.
    destruct n as [|p|p]; try reflexivity.
    repeat (destruct p as [p|p|]; try reflexivity); lia. }
  cbn [exhausted]. rewrite Hsel. do 2 f_equal.
  unfold status_of, js_or, Worded.status_or_code.
  destruct (status error) as [|[|p|p]|[|c s]]; reflexivity.
Qed.

Lemma exhausted_optimized (error : JsError) :
  exhausted Optimized (Some error) = new_Error (Worded.own_message error).
Proof.
  cbn [exhausted]. f_equal. unfold message_or, Worded.own_message.
  destruct (message error) as [[|c m]|]; reflexivity.
Qed.

(** C3, as the code has it.  When every candidate fails, [analyzeWound]
    rejects once, and what it throws is decided by the last failure
    alone, whatever the failures before it were.  In the expanded revision
    the message is the one the specification words, chosen by the status
    of the last failure, which is its [status], and its [code] only when
    [status] is undefined, zero or the empty string: 429 gives the
    rate-limit message, 404 the maintenance message, anything else the
    generic one.  In the optimized revision the message is the last
    failure's own message, and the fixed busy message when it has none or
    an empty one. *)
Theorem exhaustion_message_by_last_failure
        (env : Environment) (rv : revision) (g : Globals)
        (w w1 w' : World env) (base64Image context : string)
        (init : list string) (lastModel : string)
        (reply : Reply) (error : JsError) :
  GoogleGenAI env w = None ->
  MODELS_TO_TRY g = init ++ [lastModel] ->
  Failures env rv g base64Image context init w w1 ->
  generateContent env (request rv g base64Image context lastModel) w1
  = (reply, w') ->
  CandidateFailure env rv reply error ->
  outcome (analyzeWound env rv g w base64Image context)
  = Rejected
      (new_Error
         match rv with
         | Expanded =>
             match Worded.status_or_code error with
             | Number 429 => rate_limit_message
             | Number 404 => maintenance_message
             | _ => unavailable_message
             end
         | Optimized =>
             match message error with
             | None => busy_message
             | Some EmptyString => busy_message
             | Some m => m
             end
         end).
Proof.
  intros Hbuilt Hmodels Hinit Hcall Hfail.
  destruct (failures_exhaust env rv g base64Image context init w w1 Hinit None)
    as (lastError & Hex & Hw).
  rewrite (analyzeWound_built env rv g w base64Image context Hbuilt).
  cbn [outcome]. rewrite Hmodels. rewrite <- Hw in Hcall.
  rewrite (loop_last_fails env rv g base64Image context init lastModel
             lastError w w' reply error Hex Hcall
             (failure_attempt env rv reply error Hfail)).
  cbn [settle]. f_equal.
  destruct rv; [apply exhausted_optimized | apply exhausted_expanded].
Qed.

(** The expanded revision, six candidates unavailable.  The last one
    fails with status 429 and code 404: the status decides, and the
    message is the rate-limit one.  The last one fails with no status
    and code 404: the code decides, and the message is the maintenance
    one.  The optimized revision, three candidates unavailable.  The
    last one fails with a message: that message is thrown.  The last one
    fails with an empty message: the busy message is thrown. *)
Lemma exhaustion_message_by_last_failure_witness :
  outcome (analyzeWound Fixtures.scripted Expanded (globals Expanded)
             (repeat (Throws (Fixtures.http_error 503 "unavailable")) 6
              ++ [Throws {| message := Some "quota"; status := Number 429;
                            code := Number 404 |}])
             Fixtures.jpeg_uri EmptyString)
  = Rejected (new_Error rate_limit_message)
  /\ outcome (analyzeWound Fixtures.scripted Expanded (globals Expanded)
                (repeat (Throws (Fixtures.http_error 503 "unavailable")) 6
                 ++ [Throws {| message := Some "gone"; status := Undefined;
                               code := Number 404 |}])
                Fixtures.jpeg_uri EmptyString)
     = Rejected (new_Error maintenance_message)
  /\ outcome (analyzeWound Fixtures.scripted Optimized (globals Optimized)
                (repeat (Throws (Fixtures.http_error 503 "unavailable")) 3
                 ++ [Throws (Fixtures.http_error 404 "model not found")])
                Fixtures.jpeg_uri EmptyString)
     = Rejected (new_Error "model not found")
  /\ outcome (analyzeWound Fixtures.scripted Optimized (globals Optimized)
                (repeat (Throws (Fixtures.http_error 503 "unavailable")) 3
                 ++ [Throws (Fixtures.http_error 429 EmptyString)])
                Fixtures.jpeg_uri EmptyString)
     = Rejected (new_Error busy_message).
Proof.
  assert (Hsix : forall last : Reply,
             Failures Fixtures.scripted Expanded (globals Expanded)
               Fixtures.jpeg_uri EmptyString (firstn 6 (models_of Expanded))
               (repeat (Throws (Fixtures.http_error 503 "unavailable")) 6
                ++ [last])
               [last]).
  { intro last.
    do 6 (eapply failed_candidate; [reflexivity | apply transport_error |]).
    apply no_candidate. }
  assert (Hthree : forall last : Reply,
             Failures Fixtures.scripted Optimized (globals Optimized)
               Fixtures.jpeg_uri EmptyString (firstn 3 (models_of Optimized))
               (repeat (Throws (Fixtures.http_error 503 "unavailable")) 3
                ++ [last])
               [last]).
  { intro last.
    do 3 (eapply failed_candidate; [reflexivity | apply transport_error |]).
    apply no_candidate. }
  split; [|split; [|split]].
  - exact (exhaustion_message_by_last_failure Fixtures.scripted Expanded
             (globals Expanded) _ _ [] Fixtures.jpeg_uri EmptyString
             (firstn 6 (models_of Expanded)) "gemini-2.5-flash-lite"
             _ {| message := Some "quota"; status := Number 429;
                  code := Number 404 |}
             eq_refl eq_refl (Hsix _) eq_refl (transport_error _ _ _)).
  - exact (exhaustion_message_by_last_failure Fixtures.scripted Expanded
             (globals Expanded) _ _ [] Fixtures.jpeg_uri EmptyString
             (firstn 6 (models_of Expanded)) "gemini-2.5-flash-lite"
             _ {| message := Some "gone"; status := Undefined;
                  code := Number 404 |}
             eq_refl eq_refl (Hsix _) eq_refl (transport_error _ _ _)).
  - exact (exhaustion_message_by_last_failure Fixtures.scripted Optimized
             (globals Optimized) _ _ [] Fixtures.jpeg_uri EmptyString
             (firstn 3 (models_of Optimized)) "gemini-3-pro-preview"
             _ (Fixtures.http_error 404 "model not found")
             eq_refl eq_refl (Hthree _) eq_refl (transport_error _ _ _)).
  - exact (exhaustion_message_by_last_failure Fixtures.scripted Optimized
             (globals Optimized) _ _ [] Fixtures.jpeg_uri EmptyString
             (firstn 3 (models_of Optimized)) "gemini-3-pro-preview"
             _ (Fixtures.http_error 429 EmptyString)
             eq_refl eq_refl (Hthree _) eq_refl (transport_error _ _ _)).
Defined.

(** C3 fails on the optimized revision: its four candidates all rate
    limited, it throws the message the remote gave, which is not the one
    the status 429 selects; two runs whose last failures have the same
    status throw different messages. *)
Lemma exhaustion_message_counterexample :
  outcome (analyzeWound Fixtures.scripted Optimized (globals Optimized)
             (repeat (Throws (Fixtures.http_error 429 "quota exceeded")) 4)
             Fixtures.jpeg_uri EmptyString)
  = Rejected (new_Error "quota exceeded")
  /\ outcome (analyzeWound Fixtures.scripted Optimized (globals Optimized)
                (repeat (Throws (Fixtures.http_error 429 "slow down")) 4)
                Fixtures.jpeg_uri EmptyString)
     = Rejected (new_Error "slow down")
  /\ outcome (analyzeWound Fixtures.scripted Optimized (globals Optimized)
                (repeat (Throws (Fixtures.http_error 429 "quota exceeded")) 4)
                Fixtures.jpeg_uri EmptyString)
     <> Rejected (new_Error (Worded.exhaustion_message (Number 429))).
Proof.
  split; [vm_compute; reflexivity|].
  split; [vm_compute; reflexivity|].
  vm_compute. intro H. discriminate H.
Qed.

(** C4, as the code has it.  A result that [analyzeWound] returns is the
    five fields of a response the schema accepted: [woundType],
    [description] and [recommendation] are non-empty strings, [severity]
    is one of Low, Medium and High, and [firstAidSteps] is a sequence of
    strings with at least one element. *)
Theorem returned_result_valid
        (env : Environment) (rv : revision) (g : Globals) (w : World env)
        (base64Image context : string) (result : json) :
  outcome (analyzeWound env rv g w base64Image context) = Resolved result ->
  exists r,
    result = to_json r
    /\ schema_constraints r
    /\ exists resultText ms,
        JSON_parse (cleanJson resultText) = Some (JObj ms) /\ holds ms r.
Proof.
  intro H.
  pose proof (resolved_built env rv g w base64Image context result H)
    as Hbuilt.
  rewrite (analyzeWound_built env rv g w base64Image context Hbuilt) in H.
  cbn [outcome] in H.
  destruct (exit (tryModels env rv g base64Image context (MODELS_TO_TRY g)
                    None w)) as [out|lastError] eqn:He; [|discriminate].
  cbn [settle] in H. injection H as <-.
  destruct (loop_returned env rv g base64Image context _ _ _ _ He)
    as (t & v & Hp & Hs).
  destruct (schema_some _ _ Hs) as (ms & r & -> & -> & Hholds & Hvalid).
  exists r. split; [reflexivity|]. split; [exact Hvalid|].
  now exists t, ms.
Qed.

Lemma returned_result_valid_witness :
  exists r,
    to_json Fixtures.scrape_result = to_json r /\ schema_constraints r.
Proof.
  destruct (returned_result_valid Fixtures.scripted Expanded (globals Expanded)
              [Responds (Some Fixtures.scrape_text)]
              Fixtures.jpeg_uri "scraped my knee"
              (to_json Fixtures.scrape_result))
    as (r & Hr & Hvalid & _).
  - vm_compute. reflexivity.
  - exists r. split; assumption.
Defined.

(** C4 fails as stated: a response whose only step is the empty string is
    returned, though one of its steps is not a non-empty string. *)
Lemma returned_result_counterexample :
  outcome (analyzeWound Fixtures.scripted Expanded (globals Expanded)
             [Responds (Some Fixtures.empty_step_text)]
             Fixtures.jpeg_uri EmptyString)
  = Resolved (to_json Fixtures.empty_step_result)
  /\ ~ spec_constraints Fixtures.empty_step_result.
Proof.
  split; [vm_compute; reflexivity|].
  intros [_ H]. inversion H as [|step steps Hstep _]. now apply Hstep.
Qed.

(** C5, as the code has it.  The extraction step selects the span from
    the first left brace to the last right brace of the text.  For an
    object text wrapped in a prefix that holds no left brace and a suffix
    that holds no right brace, as a markdown fence is, extraction gives
    the object text back, and the trial ends as it would on the object
    text alone. *)
Theorem wrapped_object_roundtrip
        (env : Environment) (rv : revision) (pre body post : string) :
  occurs "{" pre = false ->
  occurs "}" post = false ->
  cleanJson (pre ++ "{" ++ body ++ "}" ++ post)%string
  = ("{" ++ body ++ "}")%string
  /\ decode env rv (Some (pre ++ "{" ++ body ++ "}" ++ post)%string)
     = decode env rv (Some ("{" ++ body ++ "}")%string)
  /\ forall s m,
      match_brace_span s = Some m ->
      exists p b q,
        (s = p ++ m ++ q /\ m = "{" ++ b ++ "}")%string
        /\ occurs "{" p = false /\ occurs "}" q = false.
Proof.
  intros Hpre Hpost.
  assert (Hw : cleanJson (pre ++ "{" ++ body ++ "}" ++ post)%string
               = ("{" ++ body ++ "}")%string)
    by exact (cleanJson_wrapped pre body post Hpre Hpost).
  assert (Ho : cleanJson ("{" ++ body ++ "}")%string
               = ("{" ++ body ++ "}")%string)
    by exact (cleanJson_wrapped EmptyString body EmptyString eq_refl eq_refl).
  split; [exact Hw|]. split.
  - unfold decode. rewrite Hw, Ho.
    replace (is_empty (pre ++ "{" ++ body ++ "}" ++ post)%string) with false
      by (destruct pre; reflexivity).
    reflexivity.
  - intros s m Hm.
    destruct (match_brace_span_some s m Hm) as (p & b & q & Hs & Hb & Hp & Hq).
    exists p, b, q. repeat split; assumption.
Qed.

(** The object inside a markdown fence. *)
Lemma wrapped_object_roundtrip_witness :
  cleanJson Fixtures.fenced_text = Fixtures.valid_text
  /\ decode Fixtures.scripted Expanded (Some Fixtures.fenced_text)
     = decode Fixtures.scripted Expanded (Some Fixtures.valid_text).
Proof.
  destruct (wrapped_object_roundtrip Fixtures.scripted Expanded
              ("```json" ++ nl)%string
              (String.concat ","
                 [Fixtures.member "woundType" (quoted "Cut");
                  Fixtures.member "severity" (quoted "Low");
                  Fixtures.member "description" (quoted "x");
                  Fixtures.member "firstAidSteps"
                    ("[" ++ quoted "Rinse with water" ++ "]")%string;
                  Fixtures.member "recommendation" (quoted "y")])
              (nl ++ "```" ++ nl)%string eq_refl eq_refl)
    as (H1 & H2 & _).
  split; [exact H1 | exact H2].
Defined.

(** C5 fails as stated: the object after a sentence with braces of its
    own is not extracted, and the trial fails where the object alone is
    accepted; and the span selected in a text with two balanced spans is
    not the first of them. *)
Lemma wrapped_object_counterexample :
  decode Fixtures.scripted Expanded (Some Fixtures.valid_text)
  = inr (to_json Fixtures.valid_result)
  /\ decode Fixtures.scripted Expanded (Some Fixtures.prose_text)
     = inl (new_Error "Unexpected token in JSON")
  /\ match_brace_span "{a} {b}" = Some "{a} {b}".
Proof.
  repeat split; vm_compute; reflexivity.
Qed.

(** C6, as the code has it.  A context that is not the empty string is
    substituted into the prompt as it is, whatever its length and its
    characters; the empty context is replaced by the words
    "None provided.".  The prompt is the text of every request. *)
Theorem context_in_prompt
        (rv : revision) (g : Globals)
        (base64Image context modelName : string) :
  context <> EmptyString ->
  promptPart rv g context = Worded.verbatim_prompt rv g context
  /\ promptPart rv g EmptyString = Worded.verbatim_prompt rv g "None provided."
  /\ text (request rv g base64Image context modelName)
     = Worded.verbatim_prompt rv g context.
Proof.
  intro H. apply is_empty_false in H.
  assert (Hc : context_or_none context = context)
    by (unfold context_or_none; now rewrite H).
  unfold request. cbn [text].
  unfold promptPart, Worded.verbatim_prompt. rewrite Hc.
  repeat split.
Qed.

Lemma context_in_prompt_witness :
  promptPart Expanded (globals Expanded) "scraped my knee"
  = Worded.verbatim_prompt Expanded (globals Expanded) "scraped my knee".
Proof.
  apply (context_in_prompt Expanded (globals Expanded) Fixtures.jpeg_uri
           "scraped my knee" "gemini-3-flash-preview").
  discriminate.
Defined.

(** C6 fails as stated at the empty context: the prompt is not the one
    with the empty string substituted. *)
Lemma context_in_prompt_counterexample :
  promptPart Expanded (globals Expanded) EmptyString
  <> Worded.verbatim_prompt Expanded (globals Expanded) EmptyString.
Proof.
  apply String.eqb_neq. vm_compute. reflexivity.
Qed.

(** C7, as the code has it.  For an image string of the form
    [data:<mediaType>;base64,<payload>] whose media type is not empty and
    holds no colon, semicolon or comma, and whose payload is not empty
    and holds no comma, the payload of the request is what follows the
    comma and its media type is the declared one.  A string that holds no
    comma is the payload as a whole, and a string that holds no colon
    gets the media type [image/jpeg]. *)
Theorem image_framing (mediaType payload : string) :
  mediaType <> EmptyString ->
  occurs ":" mediaType = false ->
  occurs ";" mediaType = false ->
  occurs "," mediaType = false ->
  payload <> EmptyString ->
  occurs "," payload = false ->
  imagePart ("data:" ++ mediaType ++ ";base64," ++ payload)%string
  = {| data := payload; inline_mimeType := mediaType |}
  /\ (forall s, occurs "," s = false -> base64Data s = s)
  /\ (forall s, occurs ":" s = false -> mimeType s = "image/jpeg").
Proof.
  intros Hm Hcolon Hsemi Hcomma Hp Hpc.
  apply is_empty_false in Hm, Hp.
  split; [|split].
  - unfold imagePart. f_equal.
    + unfold base64Data.
      replace ("data:" ++ mediaType ++ ";base64," ++ payload)%string
        with (("data:" ++ mediaType ++ ";base64") ++ String "," payload)%string
        by (rewrite !append_assoc; reflexivity).
      rewrite split_at_first.
      * rewrite (split_absent _ _ Hpc). unfold at_or. cbn [nth_error].
        now rewrite Hp.
      * rewrite !occurs_append, Hcomma. reflexivity.
    + unfold mimeType.
      replace ("data:" ++ mediaType ++ ";base64," ++ payload)%string
        with (("data:" ++ mediaType) ++ String ";" ("base64," ++ payload))%string
        by (rewrite !append_assoc; reflexivity).
      rewrite split_at_first
        by (rewrite occurs_append, Hsemi; reflexivity).
      cbn [at0].
      change ("data:" ++ mediaType)%string
        with ("data" ++ String ":" mediaType)%string.
      rewrite split_at_first by reflexivity.
      rewrite (split_absent _ _ Hcolon). unfold at_or. cbn [nth_error].
      now rewrite Hm.
  - intros s Hs. unfold base64Data. now rewrite (split_absent _ _ Hs).
  - intros s Hs. unfold mimeType.
    assert (Hfirst : occurs ":" (at0 (split ";" s)) = false).
    { clear - Hs. induction s as [|c s IH]; [reflexivity|].
      simpl in Hs. apply orb_false_iff in Hs as [Hc Hs'].
      simpl. destruct (Ascii.eqb c ";"); [reflexivity|].
      specialize (IH Hs').
      destruct (split ";" s) as [|h t] eqn:E.
      - simpl. now rewrite Hc.
      - simpl in *. now rewrite Hc. }
    now rewrite (split_absent _ _ Hfirst).
Qed.

Lemma image_framing_witness :
  imagePart Fixtures.jpeg_uri
  = {| data := "/9j/4AAQSkZJRg=="; inline_mimeType := "image/jpeg" |}.
Proof.
  apply (image_framing "image/jpeg" "/9j/4AAQSkZJRg==");
    solve [discriminate | reflexivity].
Defined.

(** C7 fails as stated: a string without the prefix that holds a comma
    is not used as the payload as a whole. *)
Lemma image_framing_counterexample :
  imagePart "image/png,iVBORw0KGgo"
  = {| data := "iVBORw0KGgo"; inline_mimeType := "image/jpeg" |}
  /\ Worded.framed_image "image/png,iVBORw0KGgo"
     = {| data := "image/png,iVBORw0KGgo"; inline_mimeType := "image/jpeg" |}
  /\ imagePart "image/png,iVBORw0KGgo"
     <> Worded.framed_image "image/png,iVBORw0KGgo".
Proof.
  split; [reflexivity|]. split; [reflexivity|].
  vm_compute. intro H. discriminate H.
Qed.

(* ================================================================== *)
(** ** Further properties of the service *)
(* ================================================================== *)

Module ServiceFacts.

Import JsStringFacts.
Local Open Scope string_scope.

Lemma append_cancel_l (a b c : string) : a ++ b = a ++ c -> b = c.
Proof.
  induction a as [|x a IH]; simpl; intro H; [exact H|].
  injection H as H. now apply IH.
Qed.

Lemma length_append (a b : string) :
  String.length (a ++ b) = (String.length a + String.length b)%nat.
Proof.
  induction a as [|x a IH]; simpl; [reflexivity | now rewrite IH].
Qed.

Lemma append_cancel_r (a b t : string) : a ++ t = b ++ t -> a = b.
Proof.
  revert b. induction a as [|x a IH]; intros [|y b] H.
  - reflexivity.
  - apply (f_equal String.length) in H. simpl in H.
    rewrite length_append in H. lia.
  - apply (f_equal String.length) in H. simpl in H.
    rewrite length_append in H. lia.
  - simpl in H. injection H as -> H. f_equal. now apply IH.
Qed.

(** [a[i] || d] is [d] or a string that is not empty. *)
Lemma at_or_cases (a : list string) (i : nat) (d : string) :
  at_or a i d = d \/ at_or a i d <> EmptyString.
Proof.
  unfold at_or. destruct (nth_error a i) as [s|]; [|now left].
  destruct (is_empty s) eqn:E; [now left | right].
  now apply is_empty_false.
Qed.

Lemma message_or_not_empty (error : option JsError) (fallback : string) :
  fallback <> EmptyString -> message_or error fallback <> EmptyString.
Proof.
  intro Hf. unfold message_or.
  destruct error as [e|]; [|exact Hf].
  destruct (message e) as [m|]; [|exact Hf].
  destruct (is_empty m) eqn:E; [exact Hf | now apply is_empty_false].
Qed.

(** A text that parses to an object has a brace span. *)
Lemma object_text_has_span (t : string) (ms : list (string * json)) :
  JSON_parse t = Some (JObj ms) -> exists m, match_brace_span t = Some m.
Proof.
  intro H.
  destruct (JsonFacts.object_text_shape _ _ H)
    as (ws1 & body & ws2 & -> & Hws1 & Hws2 & _).
  apply JsonFacts.all_json_ws_brace_free in Hws1 as [Hws1 _].
  apply JsonFacts.all_json_ws_brace_free in Hws2 as [_ Hws2].
  rewrite (match_brace_span_wrapped ws1 body ws2 Hws1 Hws2). now eexists.
Qed.

Lemma match_brace_span_not_empty (t m : string) :
  match_brace_span t = Some m -> t <> EmptyString.
Proof. destruct t; [discriminate | discriminate]. Qed.

End ServiceFacts.

Import ServiceFacts.

(** X1. The fallback returns the result of the first candidate that
    succeeds, wherever it stands in the list: when the client is built,
    the candidates before [m] have all failed and [m] answers with an
    accepted result, the run resolves with that result; the models
    called are those before [m], in the order of the list, then [m], and
    no other; every call carries the image part of the image and the
    prompt of the context; the world is left as the call to [m] left
    it. *)
Theorem fallback_returns_first_success
        (env : Environment) (rv : revision) (g : Globals)
        (w w' : World env) (base64Image context : string)
        (init : list string) (m : string) (rest : list string)
        (reply : Reply) (validatedResult : json) :
  GoogleGenAI env w = None ->
  MODELS_TO_TRY g = (init ++ m :: rest)%list ->
  (exists lastError,
      exit (tryModels env rv g base64Image context init None w)
      = Exhausted lastError) ->
  generateContent env (request rv g base64Image context m)
    (loop_world (tryModels env rv g base64Image context init None w))
  = (reply, w') ->
  attempt env rv reply = inr validatedResult ->
  outcome (analyzeWound env rv g w base64Image context)
  = Resolved validatedResult
  /\ map model (calls (analyzeWound env rv g w base64Image context))
     = (init ++ [m])%list
  /\ Forall
       (fun r =>
          image r
          = {| data := base64Data base64Image;
               inline_mimeType := mimeType base64Image |}
          /\ text r
             = (prompt_head rv ++ MEDICAL_PDF_KNOWLEDGE g ++ prompt_middle
                ++ context_or_none context ++ prompt_tail rv)%string)
       (calls (analyzeWound env rv g w base64Image context))
  /\ world_after (analyzeWound env rv g w base64Image context) = w'.
Proof.
  intros Hbuilt Hmodels [lastError Hinit] Hcall Hok.
  rewrite (LoopFacts.analyzeWound_built env rv g w base64Image context
             Hbuilt).
  cbn [outcome calls world_after]. rewrite Hmodels.
  destruct (loop_later_success env rv g base64Image context init m rest
              lastError w w' reply validatedResult Hinit Hcall Hok)
    as [He Ht].
  rewrite He, Ht. split; [reflexivity|].
  split; [apply LoopFacts.models_of_requests|].
  split; [apply LoopFacts.requests_carry|].
  rewrite (loop_through env rv g base64Image context init (m :: rest)
             None lastError w Hinit).
  cbn [loop_world].
  now rewrite (success_step env rv g base64Image context m rest lastError
                 _ w' reply validatedResult Hcall Hok).
Qed.

Lemma fallback_returns_first_success_witness :
  outcome (analyzeWound Fixtures.scripted Expanded (globals Expanded)
             [Throws (Fixtures.http_error 429 "quota");
              Responds (Some Fixtures.missing_steps_text);
              Responds (Some Fixtures.fenced_text);
              Responds (Some Fixtures.scrape_text)]
             Fixtures.jpeg_uri EmptyString)
  = Resolved (to_json Fixtures.valid_result)
  /\ map model
       (calls (analyzeWound Fixtures.scripted Expanded (globals Expanded)
                 [Throws (Fixtures.http_error 429 "quota");
                  Responds (Some Fixtures.missing_steps_text);
                  Responds (Some Fixtures.fenced_text);
                  Responds (Some Fixtures.scrape_text)]
                 Fixtures.jpeg_uri EmptyString))
     = ["gemini-3-flash-preview";
        "gemini-2.5-flash-native-audio-preview-12-2025";
        "gemini-flash-lite-latest"]
  /\ map image
       (calls (analyzeWound Fixtures.scripted Expanded (globals Expanded)
                 [Throws (Fixtures.http_error 429 "quota");
                  Responds (Some Fixtures.missing_steps_text);
                  Responds (Some Fixtures.fenced_text);
                  Responds (Some Fixtures.scrape_text)]
                 Fixtures.jpeg_uri EmptyString))
     = repeat {| data := "/9j/4AAQSkZJRg=="; inline_mimeType := "image/jpeg" |}
              3
  /\ world_after (analyzeWound Fixtures.scripted Expanded (globals Expanded)
                    [Throws (Fixtures.http_error 429 "quota");
                     Responds (Some Fixtures.missing_steps_text);
                     Responds (Some Fixtures.fenced_text);
                     Responds (Some Fixtures.scrape_text)]
                    Fixtures.jpeg_uri EmptyString)
     = [Responds (Some Fixtures.scrape_text)].
Proof.
  destruct (fallback_returns_first_success Fixtures.scripted Expanded
              (globals Expanded)
              [Throws (Fixtures.http_error 429 "quota");
               Responds (Some Fixtures.missing_steps_text);
               Responds (Some Fixtures.fenced_text);
               Responds (Some Fixtures.scrape_text)]
              [Responds (Some Fixtures.scrape_text)]
              Fixtures.jpeg_uri EmptyString
              (firstn 2 (models_of Expanded)) "gemini-flash-lite-latest"
              (skipn 3 (models_of Expanded))
              (Responds (Some Fixtures.fenced_text))
              (to_json Fixtures.valid_result))
    as (Hout & Hmodels & _ & Hworld).
  - reflexivity.
  - reflexivity.
  - eexists. vm_compute. reflexivity.
  - vm_compute. reflexivity.
  - vm_compute. reflexivity.
  - split; [exact Hout|]. split; [exact Hmodels|].
    split; [vm_compute; reflexivity | exact Hworld].
Defined.

(** X2. What a rejected run throws.  Either the constructor of the
    client threw, and the run rejects with that very value before any
    request; or the client was built, every candidate of the list was
    called, in order, and what is thrown is a fresh error: it has a
    message that is not empty and neither [status] nor [code], whatever
    the failures of the candidates carried, and in the expanded revision
    its message is one of the three fixed messages, so that no text of
    the remote reaches the caller. *)
Theorem rejection_is_a_plain_message
        (env : Environment) (rv : revision) (g : Globals) (w : World env)
        (base64Image context : string) (error : JsError) :
  outcome (analyzeWound env rv g w base64Image context) = Rejected error ->
  (GoogleGenAI env w = Some error
   /\ calls (analyzeWound env rv g w base64Image context) = [])
  \/ (GoogleGenAI env w = None
      /\ map model (calls (analyzeWound env rv g w base64Image context))
         = MODELS_TO_TRY g
      /\ status error = Undefined
      /\ code error = Undefined
      /\ exists msg,
          message error = Some msg
          /\ msg <> EmptyString
          /\ (rv = Expanded ->
              msg = rate_limit_message \/ msg = maintenance_message
              \/ msg = unavailable_message)).
Proof.
  destruct (GoogleGenAI env w) as [thrown|] eqn:Hclient.
  - rewrite (LoopFacts.analyzeWound_unbuilt env rv g w base64Image context
               thrown Hclient).
    cbn [outcome calls]. intro H. injection H as <-. left. now split.
  - rewrite (LoopFacts.analyzeWound_built env rv g w base64Image context
               Hclient).
    cbn [outcome calls]. intro H. right. split; [reflexivity|].
    destruct (trials_prefix env rv g base64Image context (MODELS_TO_TRY g)
                None w) as (k & _ & Ht & He).
    destruct (exit (tryModels env rv g base64Image context (MODELS_TO_TRY g)
                      None w)) as [v|lastError]; [discriminate|].
    subst k. rewrite firstn_all in Ht. rewrite Ht.
    split; [apply LoopFacts.models_of_requests|].
    cbn [settle] in H. injection H as <-.
    destruct rv; cbn [exhausted].
    + repeat split. eexists. split; [reflexivity|]. split; [|discriminate].
      apply message_or_not_empty. discriminate.
    + destruct (is_number 429 (status_of lastError));
        [|destruct (is_number 404 (status_of lastError))];
        (repeat split; eexists; split; [reflexivity|]; split;
         [discriminate | intros _; tauto]).
Qed.

(** The expanded revision with every candidate rate limited, the remote
    saying "quota exceeded": the rejection is the fixed rate-limit
    message.  And the same service without a key: the rejection is what
    the constructor threw. *)
Lemma rejection_is_a_plain_message_witness :
  (outcome (analyzeWound Fixtures.scripted Expanded (globals Expanded)
              (repeat (Throws (Fixtures.http_error 429 "quota exceeded")) 7)
              Fixtures.jpeg_uri EmptyString)
   = Rejected (new_Error rate_limit_message)
   /\ map model
        (calls (analyzeWound Fixtures.scripted Expanded (globals Expanded)
                  (repeat (Throws (Fixtures.http_error 429 "quota exceeded")) 7)
                  Fixtures.jpeg_uri EmptyString))
      = ["gemini-3-flash-preview";
         "gemini-2.5-flash-native-audio-preview-12-2025";
         "gemini-flash-lite-latest";
         "gemini-3-pro-preview";
         "gemini-2.5-pro";
         "gemini-2.5-flash";
         "gemini-2.5-flash-lite"])
  /\ (outcome (analyzeWound Fixtures.keyless Expanded (globals Expanded) []
                 Fixtures.jpeg_uri EmptyString)
      = Rejected Fixtures.no_key
      /\ calls (analyzeWound Fixtures.keyless Expanded (globals Expanded) []
                  Fixtures.jpeg_uri EmptyString)
         = []).
Proof.
  split.
  - destruct (rejection_is_a_plain_message Fixtures.scripted Expanded
                (globals Expanded)
                (repeat (Throws (Fixtures.http_error 429 "quota exceeded")) 7)
                Fixtures.jpeg_uri EmptyString (new_Error rate_limit_message))
      as [[Hthrown _]|(_ & Hmodels & _)].
    + vm_compute. reflexivity.
    + discriminate Hthrown.
    + split; [vm_compute; reflexivity | exact Hmodels].
  - destruct (rejection_is_a_plain_message Fixtures.keyless Expanded
                (globals Expanded) [] Fixtures.jpeg_uri EmptyString
                Fixtures.no_key)
      as [[_ Hcalls]|(Hbuilt & _)].
    + vm_compute. reflexivity.
    + split; [vm_compute; reflexivity | exact Hcalls].
    + discriminate Hbuilt.
Defined.

(** X3. The payload of the request is empty only for the empty image
    string, and its media type is never empty: a segment that is missing
    or empty gives way to the whole string, and to [image/jpeg]. *)
Theorem payload_and_media_type_not_empty (base64Image : string) :
  (base64Data base64Image = EmptyString <-> base64Image = EmptyString)
  /\ mimeType base64Image <> EmptyString.
Proof.
  split; [split|].
  - intro H. unfold base64Data in H.
    destruct (at_or_cases (split "," base64Image) 1 base64Image) as [E|E];
      [now rewrite <- E | contradiction].
  - intros ->. reflexivity.
  - unfold mimeType.
    destruct (at_or_cases (split ":" (at0 (split ";" base64Image))) 1
                "image/jpeg") as [E|E]; [rewrite E; discriminate | exact E].
Qed.

(** X4. A response is accepted exactly when it has a brace span, from its
    first left brace to its last right brace, and this span parses to a
    value the schema accepts; the text around the span plays no part, and
    a text without a span is never accepted. *)
Theorem accepted_by_its_span
        (env : Environment) (rv : revision) (resultText : string)
        (validatedResult : json) :
  decode env rv (Some resultText) = inr validatedResult
  <-> exists jsonMatch parsedData,
      match_brace_span resultText = Some jsonMatch
      /\ JSON_parse jsonMatch = Some parsedData
      /\ AnalysisResultSchema parsedData = Some validatedResult.
Proof.
  split.
  - intro H.
    destruct (decode_returns env rv _ _ H) as (t & v & Ht & Hp & Hs).
    injection Ht as <-.
    rewrite cleanJson_span in Hp.
    destruct (match_brace_span resultText) as [m|] eqn:Hm.
    + now exists m, v.
    + destruct (schema_some _ _ Hs) as (ms & r & -> & _).
      destruct (object_text_has_span _ _ Hp) as [m Hspan].
      rewrite match_brace_span_trim, Hm in Hspan. discriminate Hspan.
  - intros (m & v & Hm & Hp & Hs).
    apply (decode_accepts env rv resultText v); [|exact Hs].
    now rewrite cleanJson_span, Hm.
Qed.

(** X5. Two contexts give the same prompt exactly when they are equal
    once the empty one is replaced by "None provided.": the prompt tells
    any two contexts apart, but for the empty one and these words. *)
Theorem prompt_tells_contexts_apart
        (rv : revision) (g : Globals) (context1 context2 : string) :
  promptPart rv g context1 = promptPart rv g context2
  <-> context_or_none context1 = context_or_none context2.
Proof.
  unfold promptPart. split.
  - intro H.
    do 3 apply append_cancel_l in H.
    now apply append_cancel_r in H.
  - now intros ->.
Qed.

(** X6. Validation is idempotent: a value the schema has returned is
    accepted again, and returned as it is. *)
Theorem schema_idempotent (v out : json) :
  AnalysisResultSchema v = Some out -> AnalysisResultSchema out = Some out.
Proof.
  intro H.
  destruct (schema_some _ _ H) as (ms & r & -> & -> & _ & Hvalid).
  apply schema_accepts; [|exact Hvalid].
  repeat split.
Qed.

Lemma schema_idempotent_witness :
  AnalysisResultSchema (to_json Fixtures.valid_result)
  = Some (to_json Fixtures.valid_result).
Proof.
  apply (schema_idempotent
           (JObj [("confidence", JNum "0.9"); ("woundType", JStr "Cut");
                  ("severity", JStr "Low"); ("description", JStr "x");
                  ("firstAidSteps", JArr [JStr "Rinse with water"]);
                  ("recommendation", JStr "y"); ("model", JStr "flash")])).
  vm_compute. reflexivity.
Defined.

(** X7. In a data URL, what stands between the media type and the comma
    is ignored, and the payload stops at a second comma: for
    [data:<mediaType>;<parameters>,<payload>] followed by nothing or by a
    comma and more text, the request carries the payload and the media
    type alone. *)
Theorem data_url_parameters_ignored
        (mediaType parameters payload rest : string) :
  mediaType <> EmptyString ->
  occurs ":" mediaType = false ->
  occurs ";" mediaType = false ->
  occurs "," mediaType = false ->
  occurs "," parameters = false ->
  payload <> EmptyString ->
  occurs "," payload = false ->
  rest = EmptyString \/ (exists more, rest = String "," more) ->
  imagePart ("data:" ++ mediaType ++ ";" ++ parameters ++ ","
             ++ payload ++ rest)%string
  = {| data := payload; inline_mimeType := mediaType |}.
Proof.
  intros Hm Hcolon Hsemi Hcomma Hpar Hp Hpc Hrest.
  apply is_empty_false in Hm, Hp.
  unfold imagePart. f_equal.
  - unfold base64Data.
    replace ("data:" ++ mediaType ++ ";" ++ parameters ++ ","
             ++ payload ++ rest)%string
      with (("data:" ++ mediaType ++ ";" ++ parameters)
            ++ String "," (payload ++ rest))%string
      by (rewrite !append_assoc; reflexivity).
    rewrite split_at_first
      by (rewrite !occurs_append, Hcomma, Hpar; reflexivity).
    destruct Hrest as [->|[more ->]].
    + rewrite append_empty_r, (split_absent _ _ Hpc).
      unfold at_or. cbn [nth_error]. now rewrite Hp.
    + rewrite (split_at_first "," payload more Hpc).
      unfold at_or. cbn [nth_error]. now rewrite Hp.
  - unfold mimeType.
    replace ("data:" ++ mediaType ++ ";" ++ parameters ++ ","
             ++ payload ++ rest)%string
      with (("data:" ++ mediaType)
            ++ String ";" (parameters ++ "," ++ payload ++ rest))%string
      by (rewrite !append_assoc; reflexivity).
    rewrite split_at_first by (rewrite occurs_append, Hsemi; reflexivity).
    cbn [at0].
    change ("data:" ++ mediaType)%string
      with ("data" ++ String ":" mediaType)%string.
    rewrite split_at_first by reflexivity.
    rewrite (split_absent _ _ Hcolon). unfold at_or. cbn [nth_error].
    now rewrite Hm.
Qed.

Lemma data_url_parameters_ignored_witness :
  imagePart "data:image/svg+xml;charset=utf-8;base64,PHN2Zz4=,PC9zdmc+"
  = {| data := "PHN2Zz4="; inline_mimeType := "image/svg+xml" |}.
Proof.
  apply (data_url_parameters_ignored "image/svg+xml" "charset=utf-8;base64"
           "PHN2Zz4=" ",PC9zdmc+");
    solve [discriminate | reflexivity | right; eexists; reflexivity].
Defined.

(* ================================================================== *)
(** ** Facts about [JSON.stringify]: the text reads back *)
(* ================================================================== *)

Module PrintFacts.

Import JsStringFacts JsonPrint.
Local Open Scope string_scope.

(** Induction on a value, with the property at hand for the items of an
    array and the values of an object. *)
Lemma json_nested_ind (P : json -> Prop) :
  P JNull ->
  (forall b, P (JBool b)) ->
  (forall x, P (JNum x)) ->
  (forall s, P (JStr s)) ->
  (forall vs, Forall P vs -> P (JArr vs)) ->
  (forall ms, Forall (fun kv : string * json => P (snd kv)) ms -> P (JObj ms)) ->
  forall v, P v.
Proof.
  intros Hnull Hbool Hnum Hstr Harr Hobj.
  fix IH 1. intros [|b|x|s|vs|ms].
  - exact Hnull.
  - apply Hbool.
  - apply Hnum.
  - apply Hstr.
  - apply Harr. induction vs as [|v vs IHvs]; constructor;
      [apply IH | exact IHvs].
  - apply Hobj. induction ms as [|[k v] ms IHms]; constructor;
      [apply IH | exact IHms].
Qed.

Lemma plain_array (pn : string -> string) (vs : list json) :
  plain pn (JArr vs) <-> Forall (plain pn) vs.
Proof.
  induction vs as [|v vs IH]; cbn.
  - split; [constructor | trivial].
  - split.
    + intros [Hv Hvs]. constructor; [exact Hv | now apply IH].
    + intro H. inversion H as [|? ? Hv Hvs]. split; [exact Hv | now apply IH].
Qed.

Lemma plain_object (pn : string -> string) (ms : list (string * json)) :
  plain pn (JObj ms)
  <-> NoDup (keys ms)
      /\ Forall (fun kv : string * json =>
                   surrogate_free (fst kv) = true
                   /\ array_index (fst kv) = None
                   /\ plain pn (snd kv)) ms.
Proof.
  cbn [plain]. split; intros [Hnd H]; (split; [exact Hnd|]); clear Hnd.
  - induction ms as [|kv ms IH]; [constructor|].
    destruct H as [Hkv Hms]. constructor; [exact Hkv | now apply IH].
  - induction ms as [|kv ms IH]; [trivial|].
    inversion H as [|? ? Hkv Hms]. split; [exact Hkv | now apply IH].
Qed.

(** *** Strings *)

Lemma push_unit_small (u : N) (acc : list ascii) :
  (u < 56320)%N -> push_unit u acc = (utf8_rev u ++ acc)%list.
Proof.
  intro Hu. unfold push_unit.
  destruct acc as [|b3 [|b2 [|b1 rest]]]; try reflexivity.
  replace (56320 <=? u)%N with false by (symmetry; apply N.leb_gt; exact Hu).
  now rewrite andb_false_r.
Qed.

(** A character that ends no surrogate is appended as it is. *)
Lemma push_raw_keep (c : ascii) (acc : list ascii) :
  match acc with
  | l2 :: l1 :: _ => is_surrogate l1 l2 c = false
  | _ => True
  end ->
  push_raw c acc = c :: acc.
Proof.
  unfold push_raw.
  destruct ((128 <=? N_of_ascii c) && (N_of_ascii c <=? 191))%N eqn:Hc;
    [|reflexivity].
  destruct acc as [|l2 [|l1 rest]]; try reflexivity.
  unfold is_surrogate. intro H.
  destruct ((N_of_ascii l1 =? 237) && (176 <=? N_of_ascii l2)
            && (N_of_ascii l2 <=? 191))%N eqn:Hl; [|reflexivity].
  apply andb_true_iff in Hc as [Hc1 Hc2].
  apply andb_true_iff in Hl as [Hl Hl3].
  apply andb_true_iff in Hl as [Hl1 Hl2].
  rewrite Hl1, Hl3, Hc1, Hc2 in H.
  apply N.leb_le in Hl2.
  replace (160 <=? N_of_ascii l2)%N with true in H
    by (symmetry; apply N.leb_le; lia).
  discriminate H.
Qed.

Local Arguments push_raw : simpl never.

(** The lexer reads the escape of a character as the character. *)
Lemma lex_escape_char (c : ascii) (acc : list ascii) (out : list token)
      (t : string) :
  push_raw c acc = c :: acc ->
  lex (InStr acc) out (escape_char c ++ t) = lex (InStr (c :: acc)) out t.
Proof.
  intro H.
  destruct c as [[|] [|] [|] [|] [|] [|] [|] [|]];
    cbn; rewrite ?H; try reflexivity;
    rewrite push_unit_small by (cbn; lia); reflexivity.
Qed.

Lemma surrogate_free_tail (c : ascii) (r : string) :
  surrogate_free (String c r) = true -> surrogate_free r = true.
Proof.
  cbn [surrogate_free]. destruct r as [|c2 [|c3 r3]]; try (intro H; exact H).
  intro H. now apply andb_true_iff in H as [_ H].
Qed.

Lemma surrogate_free_suffix (a b : string) :
  surrogate_free (a ++ b) = true -> surrogate_free b = true.
Proof.
  induction a as [|c a IH]; [trivial|].
  intro H. apply IH. now apply surrogate_free_tail with c.
Qed.

Lemma quote_body_cons (c : ascii) (r : string) :
  surrogate_free (String c r) = true ->
  quote_body (String c r) = escape_char c ++ quote_body r
  /\ surrogate_free r = true.
Proof.
  cbn [surrogate_free quote_body].
  destruct r as [|c2 [|c3 r3]]; try (intro H; now split).
  destruct (is_surrogate c c2 c3); [discriminate|].
  cbn [negb andb]. intro H. now split.
Qed.

(** The lexer reads the body of a quoted string as the string, when no
    surrogate ends or lies in it: [acc] holds what was read before, of
    which the last two characters matter. *)
Lemma lex_quote_body (s : string) :
  forall acc out t,
    surrogate_free (string_of_list_ascii (rev (firstn 2 acc)) ++ s) = true ->
    lex (InStr acc) out (quote_body s ++ t)
    = lex (InStr (rev (list_ascii_of_string s) ++ acc)%list) out t.
Proof.
  induction s as [|c r IH]; intros acc out t Hs; [reflexivity|].
  pose proof (surrogate_free_suffix _ _ Hs) as Hcr.
  destruct (quote_body_cons c r Hcr) as [-> Hr].
  assert (Hpush : push_raw c acc = c :: acc).
  { apply push_raw_keep. destruct acc as [|l2 [|l1 rest]]; try exact I.
    cbn [firstn rev app string_of_list_ascii append] in Hs.
    cbn [surrogate_free] in Hs.
    apply andb_true_iff in Hs as [Hs _].
    now apply negb_true_iff in Hs. }
  rewrite append_assoc, (lex_escape_char c acc out _ Hpush).
  rewrite IH.
  - cbn [list_ascii_of_string rev]. now rewrite <- app_assoc.
  - destruct acc as [|l2 [|l1 rest]];
      cbn [firstn rev app string_of_list_ascii append] in *.
    + exact Hcr.
    + exact Hs.
    + now apply surrogate_free_tail with l1.
Qed.

Lemma lex_quote (s : string) (out : list token) (t : string) :
  surrogate_free s = true ->
  lex Idle out (quote s ++ t) = lex Idle (TStr s :: out) t.
Proof.
  intro Hs. unfold quote, dq. cbn [append].
  cbn [lex lex_step]. unfold lex_idle at 1. cbn.
  rewrite append_assoc, (lex_quote_body s [] out _ Hs).
  cbn [append lex lex_step].
  cbn. unfold text_of.
  now rewrite app_nil_r, rev_involutive, string_of_list_ascii_of_string.
Qed.

End PrintFacts.

Module PrintFacts2.

Import JsStringFacts JsonPrint PrintFacts.
Local Open Scope string_scope.

(** *** Words *)

Lemma lex_idle_word (c : ascii) (out : list token) :
  is_word c = true -> lex_idle out c = Some (InWord [c], out).
Proof.
  destruct c as [[|] [|] [|] [|] [|] [|] [|] [|]];
    cbn; intro H; try discriminate H; reflexivity.
Qed.

Lemma lex_in_word (r : string) :
  forallb is_word (list_ascii_of_string r) = true ->
  forall acc out t,
    lex (InWord acc) out (r ++ t)
    = lex (InWord (rev (list_ascii_of_string r) ++ acc)%list) out t.
Proof.
  induction r as [|c r IH]; intros Hr acc out t; [reflexivity|].
  cbn [list_ascii_of_string forallb] in Hr.
  apply andb_true_iff in Hr as [Hc Hr].
  cbn [append lex lex_step]. rewrite Hc, (IH Hr).
  cbn [list_ascii_of_string rev]. now rewrite <- app_assoc.
Qed.

Lemma lex_word_end (acc : list ascii) (out : list token) (t : string)
      (tok : token) :
  word_token (rev acc) = Some tok ->
  word_boundary t ->
  lex (InWord acc) out t = lex Idle (tok :: out) t.
Proof.
  intros Htok Hb. destruct t as [|c t]; cbn [lex lex_step].
  - now rewrite Htok.
  - cbn in Hb. now rewrite Hb, Htok.
Qed.

(** The lexer reads a word as its token. *)
Lemma lex_word (x : string) (tok : token) (out : list token) (t : string) :
  x <> EmptyString ->
  forallb is_word (list_ascii_of_string x) = true ->
  word_token (list_ascii_of_string x) = Some tok ->
  word_boundary t ->
  lex Idle out (x ++ t) = lex Idle (tok :: out) t.
Proof.
  intros Hx Hw Htok Hb. destruct x as [|c r]; [now elim Hx|].
  cbn [list_ascii_of_string forallb] in Hw.
  apply andb_true_iff in Hw as [Hc Hr].
  cbn [append lex lex_step]. rewrite (lex_idle_word c out Hc).
  rewrite (lex_in_word r Hr). apply lex_word_end; [|exact Hb].
  cbn [list_ascii_of_string] in Htok.
  now rewrite rev_app_distr, rev_involutive.
Qed.

(** *** Numerals *)

Lemma is_digit_word (c : ascii) : is_digit c = true -> is_word c = true.
Proof. intro H. unfold is_word. now rewrite H. Qed.

Lemma skip_digits_words (l : list ascii) :
  forallb is_word (skip_digits l) = true -> forallb is_word l = true.
Proof.
  induction l as [|c l IH]; cbn [skip_digits]; [trivial|].
  destruct (is_digit c) eqn:E; [|trivial].
  intro H. cbn [forallb]. now rewrite (is_digit_word c E), (IH H).
Qed.

Lemma digits1_words (l r : list ascii) :
  digits1 l = Some r ->
  forallb is_word r = true -> forallb is_word l = true.
Proof.
  destruct l as [|c l]; cbn [digits1]; [discriminate|].
  destruct (is_digit c) eqn:E; [|discriminate].
  intros H Hr. injection H as <-. cbn [forallb].
  now rewrite (is_digit_word c E), (skip_digits_words l Hr).
Qed.

Lemma exponent_end_words (l : list ascii) :
  exponent_end l = true -> forallb is_word l = true.
Proof.
  destruct l as [|e r]; cbn [exponent_end]; [trivial|].
  destruct (Ascii.eqb e "e" || Ascii.eqb e "E") eqn:Ee; [|discriminate].
  assert (He : is_word e = true).
  { apply orb_true_iff in Ee as [Ee|Ee]; apply Ascii.eqb_eq in Ee;
      subst e; reflexivity. }
  cbn [forallb]. rewrite He. cbn [andb].
  destruct r as [|s r']; [discriminate|].
  destruct (Ascii.eqb s "+" || Ascii.eqb s "-") eqn:Es.
  - assert (Hs : is_word s = true).
    { apply orb_true_iff in Es as [Es|Es]; apply Ascii.eqb_eq in Es;
        subst s; reflexivity. }
    destruct (digits1 r') as [[|? ?]|] eqn:Ed; try discriminate.
    intros _. cbn [forallb]. rewrite Hs.
    now apply (digits1_words r' [] Ed).
  - destruct (digits1 (s :: r')) as [[|? ?]|] eqn:Ed; try discriminate.
    intros _. now apply (digits1_words (s :: r') [] Ed).
Qed.

Lemma fraction_end_words (l : list ascii) :
  fraction_end l = true -> forallb is_word l = true.
Proof.
  destruct l as [|c r]; cbn [fraction_end]; [trivial|].
  destruct (Ascii.eqb_spec c ".") as [->|_].
  - destruct (digits1 r) as [r'|] eqn:Ed; [|discriminate].
    intro H. cbn [forallb]. change (is_word ".") with true. cbn [andb].
    apply (digits1_words r r' Ed). now apply exponent_end_words.
  - apply exponent_end_words.
Qed.

Lemma valid_number_words (l : list ascii) :
  valid_number l = true -> forallb is_word l = true /\ l <> [].
Proof.
  assert (Hbody : forall l1,
             match l1 with
             | c :: r =>
                 if Ascii.eqb c "0" then fraction_end r
                 else if is_digit c then fraction_end (skip_digits r)
                 else false
             | [] => false
             end = true -> forallb is_word l1 = true /\ l1 <> []).
  { intros [|c r]; [discriminate|]. intro H. split; [|discriminate].
    cbn [forallb]. destruct (Ascii.eqb_spec c "0") as [->|_].
    - change (is_word "0") with true. now apply fraction_end_words.
    - destruct (is_digit c) eqn:E; [|discriminate].
      rewrite (is_digit_word c E). cbn [andb].
      apply skip_digits_words. now apply fraction_end_words. }
  unfold valid_number. destruct l as [|c r]; [discriminate|].
  destruct (Ascii.eqb_spec c "-") as [->|_].
  - intro H. split; [|discriminate].
    cbn [forallb]. change (is_word "-") with true.
    now apply Hbody in H as [H _].
  - exact (Hbody (c :: r)).
Qed.

Lemma number_token (x : string) :
  valid_number (list_ascii_of_string x) = true ->
  word_token (list_ascii_of_string x) = Some (TNum x).
Proof.
  intro H. unfold word_token.
  rewrite string_of_list_ascii_of_string.
  destruct (String.eqb_spec x "true") as [->|_]; [discriminate H|].
  destruct (String.eqb_spec x "false") as [->|_]; [discriminate H|].
  destruct (String.eqb_spec x "null") as [->|_]; [discriminate H|].
  now rewrite H.
Qed.

Lemma lex_number (x : string) (out : list token) (t : string) :
  valid_number (list_ascii_of_string x) = true ->
  word_boundary t ->
  lex Idle out (x ++ t) = lex Idle (TNum x :: out) t.
Proof.
  intros H Hb.
  destruct (valid_number_words _ H) as [Hw Hne].
  apply lex_word; [|exact Hw | now apply number_token | exact Hb].
  intros ->. now apply Hne.
Qed.

End PrintFacts2.

Module PrintFacts3.

Import JsStringFacts JsonPrint PrintFacts PrintFacts2.
Local Open Scope string_scope.

(** *** The text of a sequence *)

Lemma separated_cons2 {A : Type} (f : A -> list token) (x y : A) (r : list A) :
  separated f (x :: y :: r) = (f x ++ TComma :: separated f (y :: r))%list.
Proof. reflexivity. Qed.

Lemma lex_separated {A : Type} (p : A -> string) (f : A -> list token)
      (c : ascii) (l : list A) :
  is_word c = false ->
  Forall (fun x => forall out t,
              word_boundary t ->
              lex Idle out (p x ++ t) = lex Idle (rev (f x) ++ out)%list t) l ->
  forall out t,
    lex Idle out (join "," (map p l) ++ String c t)
    = lex Idle (rev (separated f l) ++ out)%list (String c t).
Proof.
  intros Hc Hl. induction Hl as [|x r Hx Hr IH]; intros out t; [reflexivity|].
  destruct r as [|y r].
  - cbn [map join separated flat_map]. rewrite app_nil_r.
    apply Hx. exact Hc.
  - rewrite separated_cons2.
    change (join "," (map p (x :: y :: r)))
      with (p x ++ "," ++ join "," (map p (y :: r))).
    rewrite !append_assoc. rewrite Hx by reflexivity.
    cbn [append]. cbn [lex lex_step]. unfold lex_idle at 1. cbn.
    rewrite IH. rewrite rev_app_distr. cbn [rev].
    now rewrite <- !app_assoc.
Qed.

(** The members of an object none of whose keys is an array index are
    printed in the order they have. *)
Lemma own_properties_named {A : Type} (ms : list (string * A)) :
  Forall (fun kv => array_index (fst kv) = None) ms ->
  own_properties ms = ms.
Proof.
  intro H. unfold own_properties.
  assert (Hi : indexed ms = []).
  { induction H as [|[k x] r Hk Hr IH]; [reflexivity|].
    cbn [indexed]. cbn in Hk. now rewrite Hk. }
  assert (Hn : named ms = ms).
  { induction H as [|[k x] r Hk Hr IH]; [reflexivity|].
    cbn [named]. cbn in Hk. rewrite Hk. f_equal. apply IH.
    cbn [indexed] in Hi. now rewrite Hk in Hi. }
  now rewrite Hi, Hn.
Qed.

Lemma stringify_object (pn : string -> string) (ms : list (string * json)) :
  Forall (fun kv : string * json => array_index (fst kv) = None) ms ->
  JSON_stringify pn (JObj ms)
  = "{" ++ join ","
             (map (fun kv : string * json =>
                     quote (fst kv) ++ ":" ++ JSON_stringify pn (snd kv)) ms)
    ++ "}".
Proof.
  intro H. cbn [JSON_stringify].
  rewrite own_properties_named.
  - now rewrite map_map.
  - clear - H. induction H as [|kv r Hk Hr IH]; constructor; assumption.
Qed.

(** *** The lexer on the text of a value *)

Lemma lex_print (pn : string -> string) (v : json) :
  plain pn v ->
  forall out t,
    word_boundary t ->
    lex Idle out (JSON_stringify pn v ++ t)
    = lex Idle (rev (tokens_of pn v) ++ out)%list t.
Proof.
  induction v as [|b|x|s|vs IH|ms IH] using json_nested_ind;
    intros Hplain out t Hb.
  - apply (lex_word "null" TNull); try reflexivity; [discriminate | exact Hb].
  - destruct b.
    + apply (lex_word "true" TTrue); try reflexivity;
        [discriminate | exact Hb].
    + apply (lex_word "false" TFalse); try reflexivity;
        [discriminate | exact Hb].
  - destruct Hplain as [Hpn Hvalid]. cbn [JSON_stringify tokens_of rev app].
    rewrite Hpn. now apply lex_number.
  - cbn [JSON_stringify tokens_of rev app]. now apply lex_quote.
  - apply plain_array in Hplain.
    cbn [JSON_stringify tokens_of]. cbn [append].
    cbn [lex lex_step]. unfold lex_idle at 1. cbn.
    rewrite append_assoc. cbn [append].
    rewrite (lex_separated (JSON_stringify pn) (tokens_of pn) "]" vs).
    + cbn [lex lex_step]. unfold lex_idle at 1. cbn.
      rewrite rev_app_distr. cbn [rev app].
      now rewrite <- !app_assoc.
    + reflexivity.
    + clear - IH Hplain. induction IH as [|x r Hx Hr IHr]; [constructor|].
      inversion Hplain as [|? ? Px Pr]. subst.
      constructor; [now apply Hx | now apply IHr].
  - apply plain_object in Hplain as [_ Hms].
    rewrite stringify_object
      by (clear - Hms; induction Hms as [|kv r [_ [Hk _]] Hr IHr];
          constructor; assumption).
    cbn [tokens_of]. cbn [append].
    cbn [lex lex_step]. unfold lex_idle at 1. cbn.
    rewrite append_assoc. cbn [append].
    rewrite (lex_separated
               (fun kv : string * json =>
                  quote (fst kv) ++ ":" ++ JSON_stringify pn (snd kv))
               (fun kv : string * json =>
                  TStr (fst kv) :: TColon :: tokens_of pn (snd kv)) "}" ms).
    + cbn [lex lex_step]. unfold lex_idle at 1. cbn.
      rewrite rev_app_distr. cbn [rev app].
      now rewrite <- !app_assoc.
    + reflexivity.
    + clear - IH Hms. induction IH as [|kv r Hkv Hr IHr]; [constructor|].
      inversion Hms as [|? ? [Hs [_ Pv]] Pr]. subst.
      constructor; [|now apply IHr].
      intros out t Hb. rewrite !append_assoc.
      rewrite (lex_quote _ _ _ Hs). cbn [append].
      cbn [lex lex_step]. unfold lex_idle at 1. cbn.
      rewrite (Hkv Pv) by exact Hb.
      cbn [rev]. now rewrite <- !app_assoc.
Qed.

(** *** The automaton on the tokens of a value *)

Lemma parse_cons (e : expect) (stack : list frame) (t : token)
      (ts : list token) :
  parse_tokens e stack (t :: ts) = then_parse (parse_step e stack t) ts.
Proof.
  cbn [parse_tokens then_parse].
  now destruct (parse_step e stack t) as [[e' stack']|].
Qed.

Lemma set_member_fresh (k : string) (v : json) (acc : list (string * json)) :
  ~ In k (keys acc) -> set_member k v acc = (acc ++ [(k, v)])%list.
Proof.
  induction acc as [|[k' v'] acc IH]; intro H; [reflexivity|].
  cbn [set_member]. cbn in H.
  destruct (String.eqb_spec k' k) as [->|_]; [elim H; now left|].
  cbn [app]. f_equal. apply IH. intro Hin. apply H. now right.
Qed.

Lemma parse_print (pn : string -> string) (v : json) :
  plain pn v ->
  forall e stack ts,
    wants_value e = true ->
    parse_tokens e stack (tokens_of pn v ++ ts)%list
    = then_parse (deliver v stack) ts.
Proof.
  induction v as [|b|x|s|vs IH|ms IH] using json_nested_ind;
    intros Hplain e stack ts He.
  - cbn [tokens_of app]. rewrite parse_cons. cbn [parse_step]. unfold scalar.
    now rewrite He.
  - destruct b; cbn [tokens_of app]; rewrite parse_cons; cbn [parse_step];
      unfold scalar; now rewrite He.
  - destruct Hplain as [Hpn _]. cbn [tokens_of app]. rewrite Hpn.
    rewrite parse_cons. cbn [parse_step]. unfold scalar. now rewrite He.
  - cbn [tokens_of app]. rewrite parse_cons. cbn [parse_step].
    destruct e; try discriminate He; reflexivity.
  - (* an array *)
    apply plain_array in Hplain.
    assert (Hitems : forall r,
               Forall (fun v => plain pn v ->
                         forall e stack ts, wants_value e = true ->
                           parse_tokens e stack (tokens_of pn v ++ ts)%list
                           = then_parse (deliver v stack) ts) r ->
               Forall (plain pn) r ->
               forall items,
                 parse_tokens CommaOrClose (InArray items :: stack)
                   (flat_map (fun x => TComma :: tokens_of pn x) r
                    ++ TRBracket :: ts)%list
                 = then_parse (deliver (JArr (rev items ++ r)%list) stack) ts).
    { intros r Hr Pr. induction Hr as [|x r Hx Hr IHr]; intro items.
      - cbn [flat_map app]. rewrite parse_cons. cbn [parse_step].
        now rewrite app_nil_r.
      - inversion Pr as [|? ? Px Pr']. subst.
        cbn [flat_map]. rewrite <- app_assoc. cbn [app].
        rewrite parse_cons. cbn [parse_step then_parse].
        rewrite (Hx Px) by reflexivity. cbn [deliver then_parse].
        rewrite (IHr Pr'). cbn [rev]. now rewrite <- app_assoc. }
    cbn [tokens_of]. cbn [app]. rewrite parse_cons. cbn [parse_step].
    rewrite He. cbn [then_parse].
    destruct vs as [|v1 r].
    + cbn [separated app]. rewrite parse_cons. reflexivity.
    + inversion IH as [|? ? H1 Hr]. inversion Hplain as [|? ? P1 Pr]. subst.
      cbn [separated]. rewrite <- !app_assoc.
      rewrite (H1 P1) by reflexivity. cbn [deliver then_parse].
      cbn [app]. now rewrite (Hitems r Hr Pr).
  - (* an object *)
    apply plain_object in Hplain as [Hnd Hms].
    assert (Hmembers : forall r,
               Forall (fun kv : string * json => plain pn (snd kv) ->
                         forall e stack ts, wants_value e = true ->
                           parse_tokens e stack
                             (tokens_of pn (snd kv) ++ ts)%list
                           = then_parse (deliver (snd kv) stack) ts) r ->
               Forall (fun kv : string * json => plain pn (snd kv)) r ->
               forall acc,
                 NoDup (keys (acc ++ r)%list) ->
                 parse_tokens CommaOrClose (InObject acc None :: stack)
                   (flat_map
                      (fun kv : string * json =>
                         TComma :: TStr (fst kv) :: TColon
                         :: tokens_of pn (snd kv)) r
                    ++ TRBrace :: ts)%list
                 = then_parse (deliver (JObj (acc ++ r)%list) stack) ts).
    { intros r Hr Pr. induction Hr as [|[k x] r Hx Hr IHr]; intros acc Hacc.
      - cbn [flat_map app]. rewrite parse_cons. cbn [parse_step].
        now rewrite app_nil_r.
      - inversion Pr as [|? ? Px Pr']. subst. cbn [fst snd] in *.
        cbn [flat_map]. rewrite <- app_assoc. cbn [app].
        rewrite !parse_cons. cbn [parse_step then_parse].
        rewrite parse_cons. cbn [parse_step then_parse].
        rewrite parse_cons. cbn [parse_step then_parse].
        rewrite (Hx Px) by reflexivity. cbn [deliver then_parse].
        assert (Hfresh : ~ In k (keys acc)).
        { unfold keys in *. rewrite map_app in Hacc. cbn [map fst] in Hacc.
          apply NoDup_remove_2 in Hacc. intro Hin. apply Hacc.
          apply in_or_app. now left. }
        cbn [fst snd]. rewrite (set_member_fresh k x acc Hfresh).
        rewrite (IHr Pr') by (now rewrite <- app_assoc).
        now rewrite <- app_assoc. }
    cbn [tokens_of]. cbn [app]. rewrite parse_cons. cbn [parse_step].
    rewrite He. cbn [then_parse].
    destruct ms as [|[k1 v1] r].
    + cbn [separated app]. rewrite parse_cons. reflexivity.
    + inversion IH as [|? ? H1 Hr]. inversion Hms as [|? ? [_ [_ P1]] Pr].
      subst. cbn [fst snd] in *.
      cbn [separated fst snd]. rewrite <- !app_assoc. cbn [app].
      rewrite parse_cons. cbn [parse_step then_parse].
      rewrite parse_cons. cbn [parse_step then_parse].
      rewrite (H1 P1) by reflexivity. cbn [deliver then_parse set_member].
      rewrite (Hmembers r Hr); [reflexivity | | exact Hnd].
      clear - Pr. induction Pr as [|kv r [_ [_ P]] Pr IHr]; constructor;
        assumption.
Qed.

(** The text of a plain value reads back as the value. *)
Lemma parse_stringify (pn : string -> string) (v : json) :
  plain pn v -> JSON_parse (JSON_stringify pn v) = Some v.
Proof.
  intro H. unfold JSON_parse.
  rewrite <- (append_empty_r (JSON_stringify pn v)).
  rewrite (lex_print pn v H [] EmptyString I).
  cbn [lex]. rewrite app_nil_r, rev_involutive.
  rewrite <- (app_nil_r (tokens_of pn v)).
  rewrite (parse_print pn v H Value [] [] eq_refl).
  reflexivity.
Qed.

End PrintFacts3.

(* ================================================================== *)
(** ** Facts about the application *)
(* ================================================================== *)

Module AppFacts.

Import JsStringFacts JsonPrint PrintFacts PrintFacts2 PrintFacts3.
Local Open Scope string_scope.

(** *** Decimal numerals *)

Lemma digits_of_uint (d : Decimal.uint) :
  forallb is_digit
    (list_ascii_of_string (DecimalString.NilEmpty.string_of_uint d)) = true.
Proof. induction d; cbn; trivial. Qed.

Lemma to_uint_normal (n : N) :
  N.to_uint n = Decimal.unorm (N.to_uint n).
Proof.
  rewrite <- (DecimalN.Unsigned.to_of (N.to_uint n)).
  now rewrite DecimalN.Unsigned.of_to.
Qed.

Lemma skip_digits_all (l : list ascii) :
  forallb is_digit l = true -> skip_digits l = [].
Proof.
  induction l as [|c l IH]; cbn; [reflexivity|].
  intro H. apply andb_true_iff in H as [Hc Hl]. now rewrite Hc, IH.
Qed.

Lemma decimal_digits (n : N) :
  forallb is_digit (list_ascii_of_string (decimal n)) = true.
Proof.
  unfold decimal, DecimalString.NilZero.string_of_uint.
  destruct (N.to_uint n); try apply digits_of_uint. reflexivity.
Qed.

Lemma digits_valid (c : ascii) (l : list ascii) :
  is_digit c = true ->
  Ascii.eqb c "0" = false ->
  forallb is_digit l = true ->
  valid_number (c :: l) = true.
Proof.
  intros Hc H0 Hl. unfold valid_number.
  assert (Hm : Ascii.eqb c "-" = false).
  { destruct (Ascii.eqb_spec c "-") as [->|]; [discriminate Hc | reflexivity]. }
  rewrite Hm, H0, Hc. now rewrite (skip_digits_all l Hl).
Qed.

Lemma normal_zero (d : Decimal.uint) :
  Decimal.D0 d = Decimal.unorm (Decimal.D0 d) -> d = Decimal.Nil.
Proof.
  rewrite DecimalFacts.unorm_D0. unfold Decimal.unorm.
  destruct (Decimal.nzhead d) eqn:Ez; intro H; try discriminate H.
  - now injection H.
  - injection H as H. subst d.
    now elim (DecimalFacts.nzhead_nonzero u u).
Qed.

(** A decimal numeral is a JSON number. *)
Lemma decimal_valid (n : N) :
  valid_number (list_ascii_of_string (decimal n)) = true.
Proof.
  pose proof (to_uint_normal n) as Hn.
  unfold decimal, DecimalString.NilZero.string_of_uint.
  destruct (N.to_uint n) as [|d|d|d|d|d|d|d|d|d|d]; try reflexivity;
    cbn [DecimalString.NilEmpty.string_of_uint list_ascii_of_string];
    try (apply digits_valid; [reflexivity | reflexivity | apply digits_of_uint]).
  apply normal_zero in Hn. subst d. reflexivity.
Qed.

Lemma ascii_surrogate_free (s : string) :
  forallb (fun c => (N_of_ascii c <? 128)%N) (list_ascii_of_string s) = true ->
  surrogate_free s = true.
Proof.
  induction s as [|c r IH]; [reflexivity|].
  cbn [list_ascii_of_string forallb]. intro H.
  apply andb_true_iff in H as [Hc Hr]. specialize (IH Hr).
  cbn [surrogate_free]. destruct r as [|c2 [|c3 r3]]; try exact IH.
  rewrite IH, andb_true_r. unfold is_surrogate.
  apply N.ltb_lt in Hc.
  replace (N_of_ascii c =? 237)%N with false
    by (symmetry; apply N.eqb_neq; lia).
  reflexivity.
Qed.

Lemma decimal_surrogate_free (n : N) : surrogate_free (decimal n) = true.
Proof.
  apply ascii_surrogate_free.
  pose proof (decimal_digits n) as H.
  induction (list_ascii_of_string (decimal n)) as [|c l IH]; [reflexivity|].
  cbn [forallb] in *. apply andb_true_iff in H as [Hc Hl].
  rewrite (IH Hl), andb_true_r.
  unfold is_digit in Hc. apply andb_true_iff in Hc as [_ Hc].
  apply N.leb_le in Hc. apply N.ltb_lt. lia.
Qed.

(** *** The storage *)

Lemma getItem_put (key value : string) (d : list (string * string)) :
  App.getItem key (App.put key value d) = Some value.
Proof.
  induction d as [|[k v] d IH]; cbn.
  - now rewrite String.eqb_refl.
  - destruct (String.eqb_spec k key) as [->|Hk]; cbn.
    + now rewrite String.eqb_refl.
    + destruct (String.eqb_spec k key) as [->|_]; [now elim Hk | exact IH].
Qed.

Lemma getItem_put_other (key other value : string)
      (d : list (string * string)) :
  other <> key -> App.getItem other (App.put key value d) = App.getItem other d.
Proof.
  intro Hne. induction d as [|[k v] d IH]; cbn.
  - destruct (String.eqb_spec key other) as [->|_]; [now elim Hne | reflexivity].
  - destruct (String.eqb_spec k key) as [->|Hk]; cbn.
    + destruct (String.eqb_spec key other) as [->|_];
        [now elim Hne | reflexivity].
    + destruct (String.eqb_spec k other); [reflexivity | exact IH].
Qed.

(** *** The rejection of the service *)


Lemma resolved_result (env : Environment) (rv : revision) (g : Globals)
      (w : World env) (base64Image context : string) (result : json) :
  outcome (analyzeWound env rv g w base64Image context) = Resolved result ->
  exists r, result = to_json r /\ schema_constraints r.
Proof.
  intro H.
  pose proof (LoopFacts.resolved_built env rv g w base64Image context result H)
    as Hbuilt.
  rewrite (LoopFacts.analyzeWound_built env rv g w base64Image context Hbuilt)
    in H.
  cbn [outcome] in H.
  destruct (exit (tryModels env rv g base64Image context (MODELS_TO_TRY g)
                    None w)) as [out|lastError] eqn:He; [|discriminate].
  cbn [settle] in H. injection H as <-.
  destruct (LoopFacts.loop_returned env rv g base64Image context _ _ _ _ He)
    as (t & v & _ & Hs).
  destruct (SchemaFacts.schema_some _ _ Hs) as (ms & r & _ & -> & _ & Hvalid).
  now exists r.
Qed.

(** The requests of a run, by their fields: the models are the first
    candidates of the list, and each request carries the image part and
    the prompt. *)
Lemma run_requests (env : Environment) (rv : revision) (g : Globals)
      (w : World env) (base64Image context : string) :
  exists k,
    (k <= List.length (MODELS_TO_TRY g))%nat
    /\ map model (calls (analyzeWound env rv g w base64Image context))
       = firstn k (MODELS_TO_TRY g)
    /\ Forall (fun r => image r = imagePart base64Image
                        /\ text r = promptPart rv g context)
              (calls (analyzeWound env rv g w base64Image context))
    /\ (GoogleGenAI env w = None -> (1 <= k)%nat \/ MODELS_TO_TRY g = []).
Proof.
  destruct (GoogleGenAI env w) as [thrown|] eqn:Hclient.
  - rewrite (LoopFacts.analyzeWound_unbuilt env rv g w base64Image context
               thrown Hclient).
    exists 0%nat. cbn. repeat split; [lia | constructor | discriminate].
  - rewrite (LoopFacts.analyzeWound_built env rv g w base64Image context
               Hclient).
    cbn [calls].
    destruct (LoopFacts.trials_prefix env rv g base64Image context
                (MODELS_TO_TRY g) None w) as (k & Hk & Ht & He).
    exists k. rewrite Ht. split; [exact Hk|].
    split; [apply LoopFacts.models_of_requests|].
    split; [apply LoopFacts.requests_carry|].
    intros _.
    destruct (exit (tryModels env rv g base64Image context (MODELS_TO_TRY g)
                      None w)); [now left|].
    subst k. destruct (MODELS_TO_TRY g); [now right | left; cbn; lia].
Qed.

(** The image part of a base64 data URL. *)
Lemma imagePart_base64_url (mediaType payload : string) :
  mediaType <> EmptyString ->
  occurs ":" mediaType = false ->
  occurs ";" mediaType = false ->
  occurs "," mediaType = false ->
  payload <> EmptyString ->
  occurs "," payload = false ->
  imagePart ("data:" ++ mediaType ++ ";base64," ++ payload)%string
  = {| data := payload; inline_mimeType := mediaType |}.
Proof.
  intros Hm Hcolon Hsemi Hcomma Hp Hpc.
  apply JsStringFacts.is_empty_false in Hm, Hp.
  unfold imagePart. f_equal.
  - unfold base64Data.
    replace ("data:" ++ mediaType ++ ";base64," ++ payload)%string
      with (("data:" ++ mediaType ++ ";base64") ++ String "," payload)%string
      by (rewrite !JsStringFacts.append_assoc; reflexivity).
    rewrite JsStringFacts.split_at_first
      by (rewrite !JsStringFacts.occurs_append, Hcomma; reflexivity).
    rewrite (JsStringFacts.split_absent _ _ Hpc).
    unfold at_or. cbn [nth_error]. now rewrite Hp.
  - unfold mimeType.
    replace ("data:" ++ mediaType ++ ";base64," ++ payload)%string
      with (("data:" ++ mediaType)
            ++ String ";" ("base64," ++ payload))%string
      by (rewrite !JsStringFacts.append_assoc; reflexivity).
    rewrite JsStringFacts.split_at_first
      by (rewrite JsStringFacts.occurs_append, Hsemi; reflexivity).
    cbn [at0].
    change ("data:" ++ mediaType)%string
      with ("data" ++ String ":" mediaType)%string.
    rewrite JsStringFacts.split_at_first by reflexivity.
    rewrite (JsStringFacts.split_absent _ _ Hcolon).
    unfold at_or. cbn [nth_error]. now rewrite Hm.
Qed.

(** The candidates of either revision are distinct. *)
Lemma models_distinct (rv : revision) : NoDup (models_of rv).
Proof.
  destruct rv; repeat constructor; cbn; intuition discriminate.
Qed.

Lemma NoDup_firstn {A : Type} (k : nat) (l : list A) :
  NoDup l -> NoDup (firstn k l).
Proof.
  intro H. rewrite <- (firstn_skipn k l) in H.
  now apply NoDup_app_remove_r in H.
Qed.

(** *** The history item *)

Lemma plain_item (pn : string -> string) (id timestamp : N)
      (image : string) (analysis : json) :
  pn (decimal timestamp) = decimal timestamp ->
  surrogate_free image = true ->
  plain pn analysis ->
  plain pn (App.newHistoryItem id timestamp image analysis).
Proof.
  intros Hpn Himage Hanalysis. unfold App.newHistoryItem.
  apply plain_object. split.
  - cbn. repeat constructor; cbn; intuition discriminate.
  - repeat constructor; cbn [fst snd plain]; try reflexivity;
      try assumption.
    + apply decimal_surrogate_free.
    + apply decimal_valid.
Qed.

(** *** A scan that succeeds and is stored *)

Lemma scan_success_stored_text
      (b : App.Browser) (rv : revision) (s : App.State)
      (o : App.Outside b) (img : string) (analysis : json)
      (items : list json) :
  App.image s = Some img ->
  img <> EmptyString ->
  outcome (analyzeWound (App.service b) rv (globals rv) (App.remote o) img
             (App.description s))
  = Resolved analysis ->
  App.spread (App.history s) = Some items ->
  App.storageAccepts b (App.disk o) App.storage_key
    (JSON_stringify (App.printNumber b)
       (JArr (App.newHistoryItem (App.clock o (App.ticks o))
                (App.clock o (S (App.ticks o))) img analysis :: items)))
  = true ->
  App.state_after (App.handleScan b rv s o)
  = App.scanned s (Some analysis)
      (JArr (App.newHistoryItem (App.clock o (App.ticks o))
               (App.clock o (S (App.ticks o))) img analysis :: items))
      None
  /\ App.getItem App.storage_key
       (App.disk (App.outside_after (App.handleScan b rv s o)))
     = Some (JSON_stringify (App.printNumber b)
               (JArr (App.newHistoryItem (App.clock o (App.ticks o))
                        (App.clock o (S (App.ticks o))) img analysis
                      :: items))).
Proof.
  intros Himage Himg Hout Hspread Haccept.
  apply JsStringFacts.is_empty_false in Himg.
  unfold App.handleScan. rewrite Himage, Himg, Hout.
  cbn [App.Date_now App.clock App.ticks App.disk App.remote].
  rewrite Hspread. unfold App.setItem.
  cbn [App.disk]. rewrite Haccept.
  cbn [App.state_after App.outside_after App.disk App.ticks].
  split; [reflexivity | apply getItem_put].
Qed.

End AppFacts.
Import JsonPrint AppFacts.



(** X9. A scan whose analysis succeeds, on a history that is an array
    and with a storage that takes the write.  The result of the state is
    the analysis, the error is cleared and the loading flag is down; the
    history is the new item, an object with the first reading of the
    clock as a decimal string under [id], the second as a number under
    [timestamp], the image and the analysis, followed by the items there
    were, in their order; the storage holds the text of this history
    under [aidpal_history], and every other key of the storage is as it
    was. *)
Theorem scan_success_is_stored
        (b : App.Browser) (rv : revision) (s : App.State)
        (o : App.Outside b) (img : string) (analysis : json)
        (items : list json) (updatedHistory : json) :
  updatedHistory
  = JArr (JObj [("id", JStr (decimal (App.clock o (App.ticks o))));
                ("timestamp",
                 JNum (decimal (App.clock o (S (App.ticks o)))));
                ("image", JStr img);
                ("result", analysis)]
          :: items) ->
  App.image s = Some img ->
  img <> EmptyString ->
  outcome (analyzeWound (App.service b) rv (globals rv) (App.remote o) img
             (App.description s))
  = Resolved analysis ->
  App.history s = JArr items ->
  App.storageAccepts b (App.disk o) "aidpal_history"
    (JSON_stringify (App.printNumber b) updatedHistory)
  = true ->
  App.result (App.state_after (App.handleScan b rv s o)) = Some analysis
  /\ App.error (App.state_after (App.handleScan b rv s o)) = None
  /\ App.isLoading (App.state_after (App.handleScan b rv s o)) = false
  /\ App.history (App.state_after (App.handleScan b rv s o)) = updatedHistory
  /\ App.getItem "aidpal_history"
       (App.disk (App.outside_after (App.handleScan b rv s o)))
     = Some (JSON_stringify (App.printNumber b) updatedHistory)
  /\ (forall key,
         key <> "aidpal_history" ->
         App.getItem key
           (App.disk (App.outside_after (App.handleScan b rv s o)))
         = App.getItem key (App.disk o))
  /\ App.ticks (App.outside_after (App.handleScan b rv s o))
     = S (S (App.ticks o)).
Proof.
  intros -> Himage Himg Hout Hhistory Haccept.
  apply JsStringFacts.is_empty_false in Himg.
  unfold App.handleScan. rewrite Himage, Himg, Hout.
  cbn [App.Date_now App.clock App.ticks App.disk App.remote].
  rewrite Hhistory. cbn [App.spread]. unfold App.setItem.
  cbn [App.disk]. unfold App.newHistoryItem.
  change App.storage_key with "aidpal_history". rewrite Haccept.
  cbn [App.state_after App.outside_after App.disk App.ticks App.scanned
       App.result App.error App.isLoading App.history].
  repeat split.
  - apply getItem_put.
  - intros key Hkey. now apply getItem_put_other.
Qed.

(** The first candidate is busy and the second answers, the storage
    holding a theme: the state and the storage after the scan. *)
Lemma scan_success_is_stored_witness :
  App.result
    (App.state_after
       (App.handleScan (AppFixtures.browser 1000) Expanded AppFixtures.ready
          (AppFixtures.outside 1000
             [Throws (Fixtures.http_error 503 "busy");
              Responds (Some Fixtures.scrape_text)]
             [("theme", "dark")])))
  = Some (JObj [("woundType", JStr "Scrape (Abrasion)");
                ("severity", JStr "Low");
                ("description", JStr "...");
                ("firstAidSteps",
                 JArr [JStr "Wash with soap/water"; JStr "Apply ointment"]);
                ("recommendation", JStr "Monitor at home")])
  /\ App.history
       (App.state_after
          (App.handleScan (AppFixtures.browser 1000) Expanded
             AppFixtures.ready
             (AppFixtures.outside 1000
                [Throws (Fixtures.http_error 503 "busy");
                 Responds (Some Fixtures.scrape_text)]
                [("theme", "dark")])))
     = JArr [JObj [("id", JStr "1730000000000");
                   ("timestamp", JNum "1730000000001");
                   ("image", JStr "data:image/jpeg;base64,/9j/4AAQSkZJRg==");
                   ("result",
                    JObj [("woundType", JStr "Scrape (Abrasion)");
                          ("severity", JStr "Low");
                          ("description", JStr "...");
                          ("firstAidSteps",
                           JArr [JStr "Wash with soap/water";
                                 JStr "Apply ointment"]);
                          ("recommendation", JStr "Monitor at home")])]]
  /\ App.getItem "aidpal_history"
       (App.disk
          (App.outside_after
             (App.handleScan (AppFixtures.browser 1000) Expanded
                AppFixtures.ready
                (AppFixtures.outside 1000
                   [Throws (Fixtures.http_error 503 "busy");
                    Responds (Some Fixtures.scrape_text)]
                   [("theme", "dark")]))))
     = Some ("[" ++ Fixtures.object_text
                      [Fixtures.member "id" (quoted "1730000000000");
                       Fixtures.member "timestamp" "1730000000001";
                       Fixtures.member "image"
                         (quoted "data:image/jpeg;base64,/9j/4AAQSkZJRg==");
                       Fixtures.member "result" Fixtures.scrape_text]
             ++ "]")%string
  /\ App.getItem "theme"
       (App.disk
          (App.outside_after
             (App.handleScan (AppFixtures.browser 1000) Expanded
                AppFixtures.ready
                (AppFixtures.outside 1000
                   [Throws (Fixtures.http_error 503 "busy");
                    Responds (Some Fixtures.scrape_text)]
                   [("theme", "dark")]))))
     = Some "dark".
Proof.
  destruct (scan_success_is_stored (AppFixtures.browser 1000) Expanded
              AppFixtures.ready
              (AppFixtures.outside 1000
                 [Throws (Fixtures.http_error 503 "busy");
                  Responds (Some Fixtures.scrape_text)]
                 [("theme", "dark")])
              Fixtures.jpeg_uri (to_json Fixtures.scrape_result) []
              _ eq_refl)
    as (Hresult & _ & _ & Hhistory & Hstored & Hother & _).
  - reflexivity.
  - discriminate.
  - vm_compute. reflexivity.
  - reflexivity.
  - vm_compute. reflexivity.
  - split; [exact Hresult|]. split; [exact Hhistory|].
    split; [rewrite Hstored; vm_compute; reflexivity|].
    rewrite (Hother "theme"); [reflexivity | discriminate].
Defined.
(** X10. What a successful scan stores, the next start of the
    application reads back: when the engine prints the timestamp as its
    decimal numeral, the image holds no surrogate, and the result and the
    earlier items are plain values, loading the history from the storage
    the scan has left gives the history the scan has left in the state. *)
Theorem stored_history_is_read_back
        (b : App.Browser) (rv : revision) (s fresh : App.State)
        (o : App.Outside b) (img : string) (analysis : json)
        (items : list json) :
  App.image s = Some img ->
  img <> EmptyString ->
  outcome (analyzeWound (App.service b) rv (globals rv) (App.remote o) img
             (App.description s))
  = Resolved analysis ->
  App.spread (App.history s) = Some items ->
  App.storageAccepts b (App.disk o) App.storage_key
    (JSON_stringify (App.printNumber b)
       (JArr (App.newHistoryItem (App.clock o (App.ticks o))
                (App.clock o (S (App.ticks o))) img analysis :: items)))
  = true ->
  App.printNumber b (decimal (App.clock o (S (App.ticks o))))
  = decimal (App.clock o (S (App.ticks o))) ->
  surrogate_free img = true ->
  plain (App.printNumber b) analysis ->
  Forall (plain (App.printNumber b)) items ->
  App.history
    (App.loadHistory fresh (App.outside_after (App.handleScan b rv s o)))
  = App.history (App.state_after (App.handleScan b rv s o)).
Proof.
  intros Himage Himg Hout Hspread Haccept Hpn Hsf Hanalysis Hitems.
  destruct (scan_success_stored_text b rv s o img analysis items
              Himage Himg Hout Hspread Haccept) as (Hstate & Hdisk).
  rewrite Hstate. unfold App.loadHistory. rewrite Hdisk.
  assert (Hplain :
            plain (App.printNumber b)
              (JArr (App.newHistoryItem (App.clock o (App.ticks o))
                       (App.clock o (S (App.ticks o))) img analysis
                     :: items))).
  { apply PrintFacts.plain_array. constructor; [|exact Hitems].
    now apply plain_item. }
  pose proof (PrintFacts3.parse_stringify _ _ Hplain) as Hparse.
  destruct (JSON_stringify _ _) as [|c text] eqn:Htext;
    [discriminate Hparse|].
  cbn [is_empty]. rewrite Hparse. reflexivity.
Qed.

Lemma stored_history_is_read_back_witness :
  App.history
    (App.loadHistory App.initial
       (App.outside_after
          (App.handleScan (AppFixtures.browser 1000) Expanded
             AppFixtures.ready
             (AppFixtures.outside 1000
                [Responds (Some Fixtures.scrape_text)] []))))
  = App.history
      (App.state_after
         (App.handleScan (AppFixtures.browser 1000) Expanded
            AppFixtures.ready
            (AppFixtures.outside 1000
               [Responds (Some Fixtures.scrape_text)] []))).
Proof.
  apply (stored_history_is_read_back (AppFixtures.browser 1000) Expanded
           AppFixtures.ready App.initial
           (AppFixtures.outside 1000 [Responds (Some Fixtures.scrape_text)] [])
           Fixtures.jpeg_uri (to_json Fixtures.scrape_result) []).
  - reflexivity.
  - discriminate.
  - vm_compute. reflexivity.
  - reflexivity.
  - vm_compute. reflexivity.
  - reflexivity.
  - vm_compute. reflexivity.
  - cbn. repeat split; repeat constructor; cbn; intuition discriminate.
  - constructor.
Defined.

(** X11. A scan whose analysis succeeds while the storage refuses the
    write.  The result of the state is the analysis and its history has
    the new item in front of the items there were; the error is the
    message of what the storage threw, or the fallback text of the
    application when that has no message; the loading flag is down; and
    the storage is as it was, under every key, so that the new item is
    not what a later start reads. *)
Theorem scan_with_storage_refusing
        (b : App.Browser) (rv : revision) (s : App.State)
        (o : App.Outside b) (img : string) (analysis : json)
        (items : list json) (updatedHistory : json) :
  updatedHistory
  = JArr (JObj [("id", JStr (decimal (App.clock o (App.ticks o))));
                ("timestamp",
                 JNum (decimal (App.clock o (S (App.ticks o)))));
                ("image", JStr img);
                ("result", analysis)]
          :: items) ->
  App.image s = Some img ->
  img <> EmptyString ->
  outcome (analyzeWound (App.service b) rv (globals rv) (App.remote o) img
             (App.description s))
  = Resolved analysis ->
  App.history s = JArr items ->
  App.storageAccepts b (App.disk o) "aidpal_history"
    (JSON_stringify (App.printNumber b) updatedHistory)
  = false ->
  App.result (App.state_after (App.handleScan b rv s o)) = Some analysis
  /\ App.history (App.state_after (App.handleScan b rv s o)) = updatedHistory
  /\ App.error (App.state_after (App.handleScan b rv s o))
     = Some match message (App.storageError b) with
            | None => "Oopsie! I couldn't see it clearly. Try again?"
            | Some EmptyString =>
                "Oopsie! I couldn't see it clearly. Try again?"
            | Some m => m
            end
  /\ App.isLoading (App.state_after (App.handleScan b rv s o)) = false
  /\ App.disk (App.outside_after (App.handleScan b rv s o)) = App.disk o.
Proof.
  intros -> Himage Himg Hout Hhistory Hrefuse.
  apply JsStringFacts.is_empty_false in Himg.
  unfold App.handleScan. rewrite Himage, Himg, Hout.
  cbn [App.Date_now App.clock App.ticks App.disk App.remote].
  rewrite Hhistory. cbn [App.spread]. unfold App.setItem.
  cbn [App.disk]. unfold App.newHistoryItem.
  change App.storage_key with "aidpal_history". rewrite Hrefuse.
  cbn [App.state_after App.outside_after App.disk App.scanned
       App.result App.error App.isLoading App.history].
  repeat split.
  unfold App.shown, message_or, App.oopsie.
  destruct (message (App.storageError b)) as [[|c m]|]; reflexivity.
Qed.

(** A storage that takes ten bytes, holding a theme. *)
Lemma scan_with_storage_refusing_witness :
  App.result
    (App.state_after
       (App.handleScan (AppFixtures.browser 10) Expanded AppFixtures.ready
          (AppFixtures.outside 10 [Responds (Some Fixtures.scrape_text)]
             [("theme", "dark")])))
  = Some (JObj [("woundType", JStr "Scrape (Abrasion)");
                ("severity", JStr "Low");
                ("description", JStr "...");
                ("firstAidSteps",
                 JArr [JStr "Wash with soap/water"; JStr "Apply ointment"]);
                ("recommendation", JStr "Monitor at home")])
  /\ App.history
       (App.state_after
          (App.handleScan (AppFixtures.browser 10) Expanded AppFixtures.ready
             (AppFixtures.outside 10 [Responds (Some Fixtures.scrape_text)]
                [("theme", "dark")])))
     = JArr [JObj [("id", JStr "1730000000000");
                   ("timestamp", JNum "1730000000001");
                   ("image", JStr "data:image/jpeg;base64,/9j/4AAQSkZJRg==");
                   ("result",
                    JObj [("woundType", JStr "Scrape (Abrasion)");
                          ("severity", JStr "Low");
                          ("description", JStr "...");
                          ("firstAidSteps",
                           JArr [JStr "Wash with soap/water";
                                 JStr "Apply ointment"]);
                          ("recommendation", JStr "Monitor at home")])]]
  /\ App.error
       (App.state_after
          (App.handleScan (AppFixtures.browser 10) Expanded AppFixtures.ready
             (AppFixtures.outside 10 [Responds (Some Fixtures.scrape_text)]
                [("theme", "dark")])))
     = Some "The quota has been exceeded."
  /\ App.disk
       (App.outside_after
          (App.handleScan (AppFixtures.browser 10) Expanded AppFixtures.ready
             (AppFixtures.outside 10 [Responds (Some Fixtures.scrape_text)]
                [("theme", "dark")])))
     = [("theme", "dark")].
Proof.
  destruct (scan_with_storage_refusing (AppFixtures.browser 10) Expanded
              AppFixtures.ready
              (AppFixtures.outside 10 [Responds (Some Fixtures.scrape_text)]
                 [("theme", "dark")])
              Fixtures.jpeg_uri (to_json Fixtures.scrape_result) []
              _ eq_refl)
    as (Hresult & Hhistory & Herror & _ & Hdisk).
  - reflexivity.
  - discriminate.
  - vm_compute. reflexivity.
  - reflexivity.
  - vm_compute. reflexivity.
  - split; [exact Hresult|]. split; [exact Hhistory|].
    split; [exact Herror | exact Hdisk].
Defined.

(** X12. A stored text that parses to null, a boolean, a number or an
    object becomes the history as it is, the effect that loads it
    checking nothing.  A scan on that state whose analysis succeeds sets
    the result, then fails where it spreads the history: the error is
    the message of the [TypeError] of the engine, or the fallback text
    of the application when that is empty; the history stays the value
    read, the loading flag is down and the storage is not written. *)
Theorem unusable_history_blocks_saving
        (b : App.Browser) (rv : revision) (s : App.State)
        (o : App.Outside b) (saved : string) (v : json)
        (img : string) (analysis : json) :
  App.getItem "aidpal_history" (App.disk o) = Some saved ->
  saved <> EmptyString ->
  JSON_parse saved = Some v ->
  (v = JNull \/ (exists x, v = JBool x) \/ (exists n, v = JNum n)
   \/ (exists ms, v = JObj ms)) ->
  App.image s = Some img ->
  img <> EmptyString ->
  outcome (analyzeWound (App.service b) rv (globals rv) (App.remote o) img
             (App.description s))
  = Resolved analysis ->
  App.history (App.loadHistory s o) = v
  /\ App.result
       (App.state_after (App.handleScan b rv (App.loadHistory s o) o))
     = Some analysis
  /\ App.history
       (App.state_after (App.handleScan b rv (App.loadHistory s o) o))
     = v
  /\ App.error
       (App.state_after (App.handleScan b rv (App.loadHistory s o) o))
     = Some match App.notIterableMessage b v with
            | EmptyString => "Oopsie! I couldn't see it clearly. Try again?"
            | m => m
            end
  /\ App.isLoading
       (App.state_after (App.handleScan b rv (App.loadHistory s o) o))
     = false
  /\ App.disk (App.outside_after (App.handleScan b rv (App.loadHistory s o) o))
     = App.disk o.
Proof.
  intros Hget Hsaved Hparse Hshape Himage Himg Hout.
  apply JsStringFacts.is_empty_false in Hsaved, Himg.
  assert (Hload : App.loadHistory s o
                  = {| App.image := App.image s;
                       App.description := App.description s;
                       App.isLoading := App.isLoading s;
                       App.result := App.result s;
                       App.history := v;
                       App.showHistory := App.showHistory s;
                       App.error := App.error s |}).
  { unfold App.loadHistory. change App.storage_key with "aidpal_history".
    now rewrite Hget, Hsaved, Hparse. }
  rewrite Hload. cbn [App.history]. split; [reflexivity|].
  unfold App.handleScan. cbn [App.image App.description App.history].
  rewrite Himage, Himg, Hout.
  cbn [App.Date_now App.clock App.ticks App.disk App.remote].
  assert (Hspread : App.spread v = None).
  { destruct Hshape as [->|[[x ->]|[[n ->]|[ms ->]]]]; reflexivity. }
  rewrite Hspread.
  cbn [App.state_after App.outside_after App.disk App.scanned
       App.result App.error App.isLoading App.history].
  repeat split.
  unfold App.shown, message_or, new_Error, App.oopsie. cbn [message].
  destruct (App.notIterableMessage b v) as [|c m]; reflexivity.
Qed.

(** The storage holds [null], [true], [7] and an object in turn. *)
Lemma unusable_history_blocks_saving_witness :
  Forall
    (fun stored : string * json =>
       App.history
         (App.state_after
            (App.handleScan (AppFixtures.browser 1000) Expanded
               (App.loadHistory AppFixtures.ready
                  (AppFixtures.outside 1000
                     [Responds (Some Fixtures.scrape_text)]
                     [("aidpal_history", fst stored)]))
               (AppFixtures.outside 1000
                  [Responds (Some Fixtures.scrape_text)]
                  [("aidpal_history", fst stored)])))
       = snd stored
       /\ App.result
            (App.state_after
               (App.handleScan (AppFixtures.browser 1000) Expanded
                  (App.loadHistory AppFixtures.ready
                     (AppFixtures.outside 1000
                        [Responds (Some Fixtures.scrape_text)]
                        [("aidpal_history", fst stored)]))
                  (AppFixtures.outside 1000
                     [Responds (Some Fixtures.scrape_text)]
                     [("aidpal_history", fst stored)])))
          = Some (to_json Fixtures.scrape_result)
       /\ App.error
            (App.state_after
               (App.handleScan (AppFixtures.browser 1000) Expanded
                  (App.loadHistory AppFixtures.ready
                     (AppFixtures.outside 1000
                        [Responds (Some Fixtures.scrape_text)]
                        [("aidpal_history", fst stored)]))
                  (AppFixtures.outside 1000
                     [Responds (Some Fixtures.scrape_text)]
                     [("aidpal_history", fst stored)])))
          = Some "history is not iterable"
       /\ App.disk
            (App.outside_after
               (App.handleScan (AppFixtures.browser 1000) Expanded
                  (App.loadHistory AppFixtures.ready
                     (AppFixtures.outside 1000
                        [Responds (Some Fixtures.scrape_text)]
                        [("aidpal_history", fst stored)]))
                  (AppFixtures.outside 1000
                     [Responds (Some Fixtures.scrape_text)]
                     [("aidpal_history", fst stored)])))
          = [("aidpal_history", fst stored)])
    [("null", JNull); ("true", JBool true); ("7", JNum "7");
     ("{" ++ quoted "a" ++ ":1}", JObj [("a", JNum "1")])]%string.
Proof.
  apply Forall_cons;
    [|apply Forall_cons;
      [|apply Forall_cons; [|apply Forall_cons; [|apply Forall_nil]]]];
    cbn [fst snd].
  - destruct (unusable_history_blocks_saving (AppFixtures.browser 1000)
                Expanded AppFixtures.ready
                (AppFixtures.outside 1000
                   [Responds (Some Fixtures.scrape_text)]
                   [("aidpal_history", "null")])
                "null" JNull Fixtures.jpeg_uri
                (to_json Fixtures.scrape_result))
      as (_ & Hresult & Hhistory & Herror & _ & Hdisk);
      [reflexivity | discriminate | reflexivity | now left | reflexivity
      | discriminate | vm_compute; reflexivity |].
    repeat split; assumption.
  - destruct (unusable_history_blocks_saving (AppFixtures.browser 1000)
                Expanded AppFixtures.ready
                (AppFixtures.outside 1000
                   [Responds (Some Fixtures.scrape_text)]
                   [("aidpal_history", "true")])
                "true" (JBool true) Fixtures.jpeg_uri
                (to_json Fixtures.scrape_result))
      as (_ & Hresult & Hhistory & Herror & _ & Hdisk);
      [reflexivity | discriminate | reflexivity
      | right; left; now eexists | reflexivity
      | discriminate | vm_compute; reflexivity |].
    repeat split; assumption.
  - destruct (unusable_history_blocks_saving (AppFixtures.browser 1000)
                Expanded AppFixtures.ready
                (AppFixtures.outside 1000
                   [Responds (Some Fixtures.scrape_text)]
                   [("aidpal_history", "7")])
                "7" (JNum "7") Fixtures.jpeg_uri
                (to_json Fixtures.scrape_result))
      as (_ & Hresult & Hhistory & Herror & _ & Hdisk);
      [reflexivity | discriminate | reflexivity
      | right; right; left; now eexists | reflexivity
      | discriminate | vm_compute; reflexivity |].
    repeat split; assumption.
  - destruct (unusable_history_blocks_saving (AppFixtures.browser 1000)
                Expanded AppFixtures.ready
                (AppFixtures.outside 1000
                   [Responds (Some Fixtures.scrape_text)]
                   [("aidpal_history", ("{" ++ quoted "a" ++ ":1}")%string)])
                ("{" ++ quoted "a" ++ ":1}")%string (JObj [("a", JNum "1")])
                Fixtures.jpeg_uri (to_json Fixtures.scrape_result))
      as (_ & Hresult & Hhistory & Herror & _ & Hdisk);
      [reflexivity | discriminate | reflexivity
      | right; right; right; now eexists | reflexivity
      | discriminate | vm_compute; reflexivity |].
    repeat split; assumption.
Defined.

(** X13. Whatever the state and the outside, the requests of a run of
    [handleScan] go to the first candidates of the list, in the order of
    the list, and no candidate gets two; each of them carries the image
    part of the image of the state and the prompt of its description.
    The camera input is clicked exactly when the state has no image, or
    the empty one, and then no request is sent and the state and the
    outside are left as they were. *)
Theorem scan_is_bounded
        (b : App.Browser) (rv : revision) (s : App.State)
        (o : App.Outside b) :
  (exists k,
      (k <= List.length (models_of rv))%nat
      /\ map model (App.requests (App.handleScan b rv s o))
         = firstn k (models_of rv))
  /\ NoDup (map model (App.requests (App.handleScan b rv s o)))
  /\ (forall r,
         In r (App.requests (App.handleScan b rv s o)) ->
         exists img,
           App.image s = Some img
           /\ img <> EmptyString
           /\ image r
              = {| data := base64Data img; inline_mimeType := mimeType img |}
           /\ text r
              = (prompt_head rv ++ knowledge_text ++ prompt_middle
                 ++ context_or_none (App.description s)
                 ++ prompt_tail rv)%string)
  /\ (App.camera_clicked (App.handleScan b rv s o) = true
      <-> App.image s = None \/ App.image s = Some EmptyString)
  /\ (App.camera_clicked (App.handleScan b rv s o) = true ->
      App.requests (App.handleScan b rv s o) = []
      /\ App.state_after (App.handleScan b rv s o) = s
      /\ App.outside_after (App.handleScan b rv s o) = o).
Proof.
  assert (Hnone :
            App.image s = None \/ App.image s = Some EmptyString ->
            App.handleScan b rv s o
            = {| App.state_after := s; App.outside_after := o;
                 App.camera_clicked := true; App.requests := [] |}).
  { unfold App.handleScan. intros [->| ->]; reflexivity. }
  destruct (App.image s) as [[|c img]|] eqn:Himage.
  1, 3: rewrite Hnone by tauto;
    cbn [App.requests App.camera_clicked App.state_after App.outside_after
         map];
    (split; [exists 0%nat; split; [lia | reflexivity]|]);
    (split; [constructor|]); (split; [intros r []|]);
    (split; [split; tauto|]); intros _; repeat split.
  clear Hnone.
  assert (Hscan :
            App.requests (App.handleScan b rv s o)
            = calls (analyzeWound (App.service b) rv (globals rv)
                       (App.remote o) (String c img) (App.description s))
            /\ App.camera_clicked (App.handleScan b rv s o) = false).
  { unfold App.handleScan. rewrite Himage. cbn [is_empty].
    destruct (outcome _) as [analysis|err];
      cbn [App.Date_now App.clock App.ticks App.disk App.remote];
      try destruct (App.spread (App.history s)) as [items|];
      try destruct (App.setItem b _ _ _) as [e|d];
      now split. }
  destruct Hscan as [-> ->].
  destruct (run_requests (App.service b) rv (globals rv) (App.remote o)
              (String c img) (App.description s))
    as (k & Hk & Hmodels & Hcarry & _).
  cbn [globals MODELS_TO_TRY] in Hk, Hmodels.
  split; [now exists k|].
  split; [rewrite Hmodels; apply NoDup_firstn, models_distinct|].
  split.
  - intros r Hr. exists (String c img).
    split; [reflexivity|]. split; [discriminate|].
    rewrite Forall_forall in Hcarry. exact (Hcarry r Hr).
  - split; [|discriminate].
    split; [discriminate | intros [H|H]; discriminate H].
Qed.
(** X14. The badge of a result the service has returned tells its
    severity: green for Low, yellow for Medium, and red, the class of
    every other value, for High alone. *)
Theorem badge_tells_severity
        (env : Environment) (rv : revision) (g : Globals) (w : World env)
        (base64Image context : string) (result : json) :
  outcome (analyzeWound env rv g w base64Image context) = Resolved result ->
  exists r,
    result = to_json r
    /\ App.severity_badge result
       = match severity r with
         | Low => "bg-green-400"
         | Medium => "bg-yellow-400"
         | High => "bg-red-400 text-white"
         end.
Proof.
  intro H. destruct (resolved_result _ _ _ _ _ _ _ H) as (r & -> & _).
  exists r. split; [reflexivity|].
  destruct r as [w0 sev d steps rec]. destruct sev; reflexivity.
Qed.

Lemma badge_tells_severity_witness :
  exists r,
    to_json Fixtures.scrape_result = to_json r
    /\ App.severity_badge (to_json Fixtures.scrape_result)
       = match severity r with
         | Low => "bg-green-400"
         | Medium => "bg-yellow-400"
         | High => "bg-red-400 text-white"
         end.
Proof.
  apply (badge_tells_severity Fixtures.scripted Expanded (globals Expanded)
           [Responds (Some Fixtures.scrape_text)] Fixtures.jpeg_uri
           "scraped my knee" (to_json Fixtures.scrape_result)).
  vm_compute. reflexivity.
Defined.


(** X15. The scan that follows an upload.  When the reader has loaded
    the data URL of an image, [data:<mediaType>;base64,<payload>], a
    description is typed and the client is built, the scan does not
    click the camera input, and its first request goes to the first
    candidate, [gemini-3-flash-preview], with the payload and the media
    type of the upload as its image part and the description, as typed,
    in its prompt.  The scan that follows a reset sends nothing and
    clicks the camera input: the state is left with no image, no result,
    no error and an empty description, and with the history it had. *)
Theorem scan_after_upload_and_after_reset
        (b : App.Browser) (rv : revision) (s : App.State)
        (o : App.Outside b) (mediaType payload : string) :
  mediaType <> EmptyString ->
  occurs ":" mediaType = false ->
  occurs ";" mediaType = false ->
  occurs "," mediaType = false ->
  payload <> EmptyString ->
  occurs "," payload = false ->
  App.description s <> EmptyString ->
  GoogleGenAI (App.service b) (App.remote o) = None ->
  (exists first later,
      App.requests
        (App.handleScan b rv
           (App.imageLoaded
              (Some ("data:" ++ mediaType ++ ";base64," ++ payload)%string) s)
           o)
      = first :: later
      /\ model first = "gemini-3-flash-preview"
      /\ image first = {| data := payload; inline_mimeType := mediaType |}
      /\ text first
         = (prompt_head rv ++ knowledge_text ++ prompt_middle
            ++ App.description s ++ prompt_tail rv)%string)
  /\ App.camera_clicked
       (App.handleScan b rv
          (App.imageLoaded
             (Some ("data:" ++ mediaType ++ ";base64," ++ payload)%string) s)
          o)
     = false
  /\ App.camera_clicked (App.handleScan b rv (App.reset s) o) = true
  /\ App.requests (App.handleScan b rv (App.reset s) o) = []
  /\ App.image (App.state_after (App.handleScan b rv (App.reset s) o)) = None
  /\ App.result (App.state_after (App.handleScan b rv (App.reset s) o)) = None
  /\ App.error (App.state_after (App.handleScan b rv (App.reset s) o)) = None
  /\ App.description (App.state_after (App.handleScan b rv (App.reset s) o))
     = EmptyString
  /\ App.history (App.state_after (App.handleScan b rv (App.reset s) o))
     = App.history s.
Proof.
  intros Hm Hcolon Hsemi Hcomma Hp Hpc Hdescription Hbuilt.
  split; [|split; [|repeat split]].
  - assert (Hreq :
              App.requests
                (App.handleScan b rv
                   (App.imageLoaded
                      (Some ("data:" ++ mediaType ++ ";base64," ++ payload)%string)
                      s) o)
              = calls (analyzeWound (App.service b) rv (globals rv)
                         (App.remote o)
                         ("data:" ++ mediaType ++ ";base64," ++ payload)%string
                         (App.description s))).
    { unfold App.handleScan.
      cbn [App.imageLoaded App.image App.description App.history
           append is_empty].
      destruct (outcome _) as [analysis|err];
        cbn [App.Date_now App.clock App.ticks App.disk App.remote];
        try destruct (App.spread (App.history s)) as [items|];
        try destruct (App.setItem b _ _ _) as [e|d];
        reflexivity. }
    rewrite Hreq.
    destruct (run_requests (App.service b) rv (globals rv) (App.remote o)
                ("data:" ++ mediaType ++ ";base64," ++ payload)%string
                (App.description s))
      as (k & _ & Hmodels & Hcarry & Hpos).
    destruct (Hpos Hbuilt) as [Hk|Hnil];
      [|destruct rv; discriminate Hnil].
    destruct (calls _) as [|first later] eqn:Hcalls.
    + destruct k as [|k]; [lia|]. destruct rv; discriminate Hmodels.
    + exists first, later. split; [reflexivity|].
      inversion Hcarry as [|r l [Himage Htext] _]; subst r l.
      split.
      * destruct k as [|k]; [lia|].
        destruct rv; cbn in Hmodels; now injection Hmodels as -> _.
      * split.
        -- rewrite Himage. now apply imagePart_base64_url.
        -- rewrite Htext. unfold promptPart, context_or_none.
           apply JsStringFacts.is_empty_false in Hdescription.
           now rewrite Hdescription.
  - unfold App.handleScan.
    cbn [App.imageLoaded App.image App.description App.history
         append is_empty].
    destruct (outcome _) as [analysis|err];
      cbn [App.Date_now App.clock App.ticks App.disk App.remote];
      try destruct (App.spread (App.history s)) as [items|];
      try destruct (App.setItem b _ _ _) as [e|d];
      reflexivity.
Qed.

(** A JPEG is uploaded and "scraped my knee" typed. *)
Lemma scan_after_upload_and_after_reset_witness :
  (exists first later,
      App.requests
        (App.handleScan (AppFixtures.browser 1000) Expanded
           (App.imageLoaded (Some "data:image/jpeg;base64,/9j/4AAQSkZJRg==")
              AppFixtures.ready)
           (AppFixtures.outside 1000
              [Responds (Some Fixtures.scrape_text)] []))
      = first :: later
      /\ model first = "gemini-3-flash-preview"
      /\ image first
         = {| data := "/9j/4AAQSkZJRg=="; inline_mimeType := "image/jpeg" |}
      /\ text first
         = (prompt_head Expanded ++ knowledge_text ++ prompt_middle
            ++ "scraped my knee" ++ prompt_tail Expanded)%string)
  /\ App.camera_clicked
       (App.handleScan (AppFixtures.browser 1000) Expanded
          (App.reset AppFixtures.ready)
          (AppFixtures.outside 1000
             [Responds (Some Fixtures.scrape_text)] []))
     = true.
Proof.
  destruct (scan_after_upload_and_after_reset (AppFixtures.browser 1000)
              Expanded AppFixtures.ready
              (AppFixtures.outside 1000
                 [Responds (Some Fixtures.scrape_text)] [])
              "image/jpeg" "/9j/4AAQSkZJRg==")
    as (Hfirst & _ & Hcamera & _);
    [discriminate | reflexivity | reflexivity | reflexivity | discriminate
    | reflexivity | discriminate | reflexivity |].
  split; [exact Hfirst | exact Hcamera].
Defined.
